(** * DMA ping-pong driver (dmapp): turn protocol of the character device

    A shallow embedding of the kernel module [dmapp]: the participant
    registry ([dmapp_cdev_open], [dmapp_cdev_release]), the control calls
    ([dmapp_cdev_ioctl]) and the fence initialisation done at attach time
    ([dmapp_platform_driver_probe]).

    The driver state is the [dmapp_device] structure together with the
    [dmapp_user] structures it points to.  User structures live in a store
    indexed by their address, because the driver recognises a caller by
    comparing its [file->private_data] pointer with the two slots
    [user[0]] and [user[1]].

    The development also covers the lifetimes of the kernel objects that
    the driver sets up and tears down (probe and remove, the mapping of
    the exported buffer, the module entry points), the user program of
    the driver, and the echo module (ekm) with its user program. *)

From stdpp Require Import base option gmap fin_maps list.
From Stdlib Require Import ZArith Lia.

Open Scope Z_scope.

(** ** Constants of the kernel headers *)

Definition ENOMEM : Z := 12.
Definition EINVAL : Z := 22.
Definition ENOTTY : Z := 25.
Definition ERESTARTSYS : Z := 512.

(** [_IO(type, nr)] of <linux/ioctl.h>: no direction bits, no size, the
    type in bits 8..15 and the number in bits 0..7. *)
Definition _IO (type nr : Z) : Z :=
  Z.lor (Z.shiftl type 8) nr.

(** ['d'] *)
Definition DMAPP_IOC_MAGIC : Z := 100.

Definition DMAPP_BUFFER_SIZE : Z := 10.
Definition DMAPP_IOCTL_GET_BUFFER_SIZE : Z := _IO DMAPP_IOC_MAGIC 1.
Definition DMAPP_IOCTL_GET_BUFFER_FD : Z := _IO DMAPP_IOC_MAGIC 2.
Definition DMAPP_IOCTL_GET_BUFFER_PARITY : Z := _IO DMAPP_IOC_MAGIC 3.
Definition DMAPP_IOCTL_BUFFER_LOCK : Z := _IO DMAPP_IOC_MAGIC 4.
Definition DMAPP_IOCTL_BUFFER_UNLOCK : Z := _IO DMAPP_IOC_MAGIC 5.

(** ** Parities and two-element arrays *)

(** The index of a slot of [user[2]] and [fence[2]]; also the value of the
    local [int parity]. *)
Inductive parity : Type := P0 | P1.

#[global] Instance parity_eq_dec : EqDecision parity.
Proof. solve_decision. Defined.

Definition other (p : parity) : parity :=
  match p with P0 => P1 | P1 => P0 end.

Definition parity_Z (p : parity) : Z :=
  match p with P0 => 0 | P1 => 1 end.

Record arr2 (A : Type) : Type := Arr2 { elt0 : A; elt1 : A }.
Arguments Arr2 {A} _ _.
Arguments elt0 {A} _.
Arguments elt1 {A} _.

Definition nth2 {A} (a : arr2 A) (p : parity) : A :=
  match p with P0 => elt0 a | P1 => elt1 a end.

Definition upd2 {A} (a : arr2 A) (p : parity) (x : A) : arr2 A :=
  match p with
  | P0 => Arr2 x (elt1 a)
  | P1 => Arr2 (elt0 a) x
  end.

(** ** Fences *)

(** [struct dma_fence], reduced to what the driver reads and writes: the
    signaled bit of [flags], and the context and sequence number given to
    [dma_fence_init]. *)
Record dma_fence : Type := Fence {
  signaled : bool;
  context : Z;
  seqno : Z
}.

(** Modelled from the spec: the fence functions belong to the kernel
    (<linux/dma-fence.h>), not to this repository.  A fence is a
    single-shot latch, pending until signaled; [dma_fence_init] (re)arms
    it as pending. *)
Definition dma_fence_init (ctx sq : Z) : dma_fence :=
  {| signaled := false; context := ctx; seqno := sq |}.

(** Modelled from the spec: the kernel's test of the signaled bit (the
    driver's [dmapp_fence_ops] has no [signaled] callback). *)
Definition dma_fence_is_signaled (f : dma_fence) : bool :=
  signaled f.

(** Modelled from the spec: the kernel's [dma_fence_signal] latches a
    pending fence and returns 0; on a fence that is already signaled it
    changes nothing and fails (the driver's comment: "Signal may fail if
    the fence was previously signaled"), with [-EINVAL]. *)
Definition dma_fence_signal (f : dma_fence) : Z * dma_fence :=
  if signaled f then (- EINVAL, f)
  else (0, {| signaled := true; context := context f; seqno := seqno f |}).

(** Modelled from the spec: the kernel's interruptible
    [dma_fence_wait (fence, true)].  It returns 0 once the fence is
    signaled; while the fence is pending it fails with [-ERESTARTSYS] when
    a process signal interrupts the sleep (the driver's comment: "Wait may
    fail if interrupted by a signal") and otherwise does not return:
    [None] stands for a caller that is still asleep. *)
Definition dma_fence_wait (f : dma_fence) (intr : bool) : option Z :=
  if signaled f then Some 0
  else if intr then Some (- ERESTARTSYS)
  else None.

(** ** Driver state *)

(** Address of a [struct dmapp_user] returned by [kzalloc]. *)
Definition addr : Type := nat.

(** [struct dmapp_user].  The back pointer [dmapp_dev] is left out: the
    embedding has one device. *)
Record dmapp_user : Type := User {
  is_locked : bool
}.

(** [struct dmapp_device], reduced to the registry and the fences. [None]
    in a slot is the [NULL] pointer. *)
Record dmapp_device : Type := Device {
  user : arr2 (option addr);
  fence : arr2 dma_fence
}.

(** The device and the user structures allocated at the moment. *)
Record world : Type := World {
  dev : dmapp_device;
  mem : gmap addr dmapp_user
}.

Definition set_user (p : parity) (x : option addr) (w : world) : world :=
  {| dev := {| user := upd2 (user (dev w)) p x; fence := fence (dev w) |};
     mem := mem w |}.

Definition set_fence (p : parity) (f : dma_fence) (w : world) : world :=
  {| dev := {| user := user (dev w); fence := upd2 (fence (dev w)) p f |};
     mem := mem w |}.

(** [u->is_locked = b] *)
Definition set_is_locked (u : addr) (b : bool) (w : world) : world :=
  {| dev := dev w;
     mem := alter (fun _ => {| is_locked := b |}) u (mem w) |}.

(** [kzalloc]: a zeroed structure at address [u]. *)
Definition kzalloc_user (u : addr) (w : world) : world :=
  {| dev := dev w; mem := <[u := {| is_locked := false |}]> (mem w) |}.

Definition kfree_user (u : addr) (w : world) : world :=
  {| dev := dev w; mem := delete u (mem w) |}.

(** [dmapp_dev->user[p] == u] *)
Definition slot_is (w : world) (p : parity) (u : addr) : bool :=
  bool_decide (nth2 (user (dev w)) p = Some u).

Definition slot_free (w : world) (p : parity) : bool :=
  bool_decide (nth2 (user (dev w)) p = None).

(** ** Device attach: [dmapp_platform_driver_probe] *)

(** Results of the kernel services that the probe calls, in call order.
    A pointer-returning service is represented by its error code: 0 for a
    valid pointer, a negative value for an [ERR_PTR]. *)
Record probe_env : Type := ProbeEnv {
  kzalloc_dev_ok : bool;
  alloc_chrdev_region_ret : Z;
  device_create_err : Z;
  fence_context : Z;
  kzalloc_fence0_ok : bool;
  kzalloc_fence1_ok : bool;
  kzalloc_buffer_ok : bool;
  dma_alloc_coherent_ok : bool;
  dma_buf_export_err : Z;
  cdev_add_ret : Z
}.

(** The probe returns its status and, on success, the device it leaves
    registered.  The device comes from [kzalloc], so both user slots start
    as [NULL].  Every error path frees the device. *)
Definition dmapp_platform_driver_probe (env : probe_env)
  : Z * option dmapp_device :=
  if negb (kzalloc_dev_ok env) then (- ENOMEM, None)
  else if alloc_chrdev_region_ret env <? 0
  then (alloc_chrdev_region_ret env, None)
  else if device_create_err env <? 0 then (device_create_err env, None)
  else
    (* Create and initialize DMA fences *)
    if negb (kzalloc_fence0_ok env) then (- ENOMEM, None)
    else
      let fence0 := dma_fence_init (fence_context env) 0 in
      if negb (kzalloc_fence1_ok env) then (- ENOMEM, None)
      else
        let fence1 := dma_fence_init (fence_context env) 1 in
        (* Signal fence[1] immediately after initialization *)
        let '(ret, fence1) := dma_fence_signal fence1 in
        if ret <? 0 then (ret, None)
        else if negb (kzalloc_buffer_ok env) then (- ENOMEM, None)
        else if negb (dma_alloc_coherent_ok env) then (- ENOMEM, None)
        else if dma_buf_export_err env <? 0
        then (dma_buf_export_err env, None)
        else if cdev_add_ret env <? 0 then (cdev_add_ret env, None)
        else (0, Some {| user := Arr2 None None;
                         fence := Arr2 fence0 fence1 |}).

(** A world right after a successful attach: the device of the probe and
    no user structure. *)
Definition attached (w : world) : Prop :=
  exists env d,
    dmapp_platform_driver_probe env = (0, Some d) /\
    w = {| dev := d; mem := ∅ |}.

(** ** Participant registry: [dmapp_cdev_open] and [dmapp_cdev_release] *)

(** [dmapp_cdev_open].  [kz] is what [kzalloc] returns: [None] for [NULL],
    [Some u] for a zeroed structure at [u].  The file's [private_data]
    becomes [u] when the call returns 0. *)
Definition dmapp_cdev_open (kz : option addr) (w : world) : Z * world :=
  match kz with
  | None => (- ENOMEM, w)
  | Some u =>
    let w := kzalloc_user u w in
    (* Assign parity to user *)
    if slot_free w P0 then (0, set_user P0 (Some u) w)
    else if slot_free w P1 then (0, set_user P1 (Some u) w)
    else (- EINVAL, kfree_user u w)
  end.

(** First part of [dmapp_cdev_release], up to [kfree(user)]: the slot of
    the caller is cleared under the spinlock and [signal_fence] is chosen.
    [signal_fence] is given as the index of the fence, [None] for [NULL].
    The call dereferences [user]; [None] as a result stands for a pointer
    that is not allocated, which the kernel never passes. *)
Definition release_disconnect (u : addr) (w : world)
  : option (option parity * world) :=
  usr ← mem w !! u;
  let '(signal_fence, w) :=
    if slot_is w P0 u then
      (if is_locked usr then Some P1 else None, set_user P0 None w)
    else if slot_is w P1 u then
      (if is_locked usr then Some P0 else None, set_user P1 None w)
    else (None, w) in
  Some (signal_fence, kfree_user u w).

(** Second part of [dmapp_cdev_release]: "Optionally reset the
    signal_fence to prevent deadlocks".  First the test
    [signal_fence && !dma_fence_is_signaled(signal_fence)], which gives
    the fence to signal, if any ... *)
Definition release_test (signal_fence : option parity) (w : world)
  : option parity :=
  match signal_fence with
  | Some k =>
    if negb (dma_fence_is_signaled (nth2 (fence (dev w)) k)) then Some k
    else None
  | None => None
  end.

(** ... then [ret = dma_fence_signal(signal_fence)]. *)
Definition release_do_signal (k : parity) (w : world) : Z * world :=
  let '(ret, f) := dma_fence_signal (nth2 (fence (dev w)) k) in
  (ret, set_fence k f w).

Definition release_signal (signal_fence : option parity) (w : world)
  : Z * world :=
  match release_test signal_fence w with
  | Some k => release_do_signal k w
  | None => (0, w)
  end.

Definition dmapp_cdev_release (u : addr) (w : world) : option (Z * world) :=
  '(signal_fence, w) ← release_disconnect u w;
  Some (release_signal signal_fence w).

(** ** Control calls: [dmapp_cdev_ioctl] *)

(** What the caller's thread of control meets during one call: whether a
    process signal is pending when it has to sleep in [dma_fence_wait], and
    what [dma_buf_fd] returns. *)
Record ioctl_env : Type := IoctlEnv {
  signal_pending : bool;
  dma_buf_fd : Z
}.

(** How [dmapp_cdev_ioctl] goes on after the part that runs before
    anything can sleep or signal: it returns, or it is a lock or an unlock
    call of a validated caller of the given parity. *)
Inductive ioctl_next : Type :=
| NextReturn (ret : Z)
| NextLock (parity : parity)
| NextUnlock (parity : parity).

(** "Validate user, determine parity and assign fences": the parity of the
    caller, [None] for the invalid-user branch. *)
Definition validate_user (u : addr) (w : world) : option parity :=
  if slot_is w P0 u then Some P0
  else if slot_is w P1 u then Some P1
  else None.

(** [signal_fence] and [wait_fence] of a caller of parity [p], as indices
    into [fence[2]]. *)
Definition signal_fence_of (p : parity) : parity := other p.
Definition wait_fence_of (p : parity) : parity := p.

(** [dmapp_cdev_ioctl] from its entry to the end of the commands that
    neither sleep nor signal: validation and the first [switch] under the
    spinlock, then the [GET_*] cases and the [default] case of the second
    [switch].  The state is only read.  [None]: [user] is not allocated. *)
Definition ioctl_entry (u : addr) (cmd : Z) (env : ioctl_env) (w : world)
  : option ioctl_next :=
  usr ← mem w !! u;
  match validate_user u w with
  | None => Some (NextReturn (- EINVAL))
  | Some parity =>
    (* Handle commands that require synchronization *)
    if (cmd =? DMAPP_IOCTL_BUFFER_LOCK) && is_locked usr
    then Some (NextReturn 0)
    else if (cmd =? DMAPP_IOCTL_BUFFER_UNLOCK) && negb (is_locked usr)
    then Some (NextReturn 0)
    (* Handle commands that might sleep or do not require synchronization *)
    else if cmd =? DMAPP_IOCTL_GET_BUFFER_SIZE
    then Some (NextReturn DMAPP_BUFFER_SIZE)
    else if cmd =? DMAPP_IOCTL_GET_BUFFER_PARITY
    then Some (NextReturn (parity_Z parity))
    else if cmd =? DMAPP_IOCTL_GET_BUFFER_FD
    then Some (NextReturn (dma_buf_fd env))
    else if cmd =? DMAPP_IOCTL_BUFFER_LOCK
    then Some (NextLock parity)
    else if cmd =? DMAPP_IOCTL_BUFFER_UNLOCK
    then Some (NextUnlock parity)
    else Some (NextReturn (- ENOTTY))
  end.

(** [ret = dma_fence_wait(wait_fence, true)]; [None] while the caller
    sleeps. *)
Definition lock_wait (parity : parity) (env : ioctl_env) (w : world)
  : option Z :=
  dma_fence_wait (nth2 (fence (dev w)) (wait_fence_of parity))
                 (signal_pending env).

(** "Reinitialize wait_fence for the next pass and set the locked flag",
    under the spinlock. *)
Definition lock_commit (u : addr) (parity : parity) (w : world) : world :=
  set_is_locked u true
    (set_fence (wait_fence_of parity) (dma_fence_init 0 (parity_Z parity)) w).

(** [ret = dma_fence_signal(signal_fence)] *)
Definition unlock_signal (parity : parity) (w : world) : Z * world :=
  let '(ret, f) :=
    dma_fence_signal (nth2 (fence (dev w)) (signal_fence_of parity)) in
  (ret, set_fence (signal_fence_of parity) f w).

(** "Clear the locked flag", under the spinlock. *)
Definition unlock_clear (u : addr) (w : world) : world :=
  set_is_locked u false w.

(** How a call ends: it returns a value, or its caller is still asleep in
    the interruptible wait. *)
Inductive outcome : Type :=
| Returned (ret : Z)
| Blocked.

(** [dmapp_cdev_ioctl], run from entry to exit with no other call in
    between. *)
Definition dmapp_cdev_ioctl (u : addr) (cmd : Z) (env : ioctl_env) (w : world)
  : option (outcome * world) :=
  next ← ioctl_entry u cmd env w;
  match next with
  | NextReturn ret => Some (Returned ret, w)
  | NextLock parity =>
    (* Wait for our turn to process the buffer *)
    match lock_wait parity env w with
    | None => Some (Blocked, w)
    | Some ret =>
      if ret <? 0 then Some (Returned ret, w)
      else Some (Returned ret, lock_commit u parity w)
    end
  | NextUnlock parity =>
    (* Signal the next user that it may begin *)
    let '(ret, w) := unlock_signal parity w in
    Some (Returned ret, unlock_clear u w)
  end.

(** ** Runs of whole calls *)

(** One call on the character device, with what its environment supplies:
    the address [kzalloc] hands to an open, the file (identified by its
    [private_data]) of a close or a control call. *)
Inductive call : Type :=
| Open (kz : option addr)
| Close (u : addr)
| Ioctl (u : addr) (cmd : Z) (env : ioctl_env).

(** [kzalloc] never returns the address of a live structure. *)
Definition fresh (kz : option addr) (w : world) : bool :=
  match kz with
  | Some u => bool_decide (mem w !! u = None)
  | None => true
  end.

(** A call run from entry to exit.  [None]: the environment cannot issue
    this call here (an address that is live for [Open], a file that is not
    open otherwise). *)
Definition do_call (c : call) (w : world) : option (outcome * world) :=
  match c with
  | Open kz =>
    if fresh kz w then
      let '(ret, w) := dmapp_cdev_open kz w in Some (Returned ret, w)
    else None
  | Close u =>
    '(ret, w) ← dmapp_cdev_release u w; Some (Returned ret, w)
  | Ioctl u cmd env => dmapp_cdev_ioctl u cmd env w
  end.

(** Worlds reached from an attach by calls that run one at a time. *)
Inductive reachable : world -> Prop :=
| reachable_attach w :
    attached w -> reachable w
| reachable_call w c o w' :
    reachable w -> do_call c w = Some (o, w') -> reachable w'.

(** The flag of a user structure, [false] when it is not allocated. *)
Definition locked_at (w : world) (u : addr) : bool :=
  match mem w !! u with
  | Some usr => is_locked usr
  | None => false
  end.

(** The parity for which a call takes the turn, if it does: a lock call
    that returns 0 to a registered caller whose flag was clear. *)
Definition acquires (c : call) (w : world) : option parity :=
  match c with
  | Ioctl u cmd env =>
    if (cmd =? DMAPP_IOCTL_BUFFER_LOCK) && negb (locked_at w u) then
      match dmapp_cdev_ioctl u cmd env w with
      | Some (Returned 0, _) => validate_user u w
      | _ => None
      end
    else None
  | _ => None
  end.

(** A sequence of calls run one after the other, with the parities of the
    acquisitions in order. *)
Fixpoint run (cs : list call) (w : world) : option (list parity * world) :=
  match cs with
  | [] => Some ([], w)
  | c :: cs =>
    '(_, w1) ← do_call c w;
    '(log, w2) ← run cs w1;
    Some (option_list (acquires c w) ++ log, w2)
  end.

(** [start], [other start], [start], ... *)
Fixpoint alternating (start : parity) (l : list parity) : bool :=
  match l with
  | [] => true
  | p :: l => bool_decide (p = start) && alternating (other start) l
  end.

(** ** Turn tokens *)

(** The "in turn" flag of the participant registered in slot [p]. *)
Definition in_turn (w : world) (p : parity) : bool :=
  match nth2 (user (dev w)) p with
  | Some u => locked_at w u
  | None => false
  end.

Definition fence_signaled (w : world) (p : parity) : bool :=
  signaled (nth2 (fence (dev w)) p).

Definition count_true (b : bool) : nat := if b then 1%nat else 0%nat.

(** Signaled fences plus registered participants in their turn. *)
Definition tokens (w : world) : nat :=
  (count_true (fence_signaled w P0) + count_true (fence_signaled w P1)
   + count_true (in_turn w P0) + count_true (in_turn w P1))%nat.

(** ** Interleaved execution *)

(** The spinlock is dropped before [dma_fence_wait] and is taken again
    only for the short updates that follow, so calls of different threads
    interleave at the boundaries of these sections.  A program counter
    records which section a thread in a call runs next; it carries the
    locals the remaining sections use ([user], [parity], [ret],
    [signal_fence]):
    - [PcLockWait]: in [dma_fence_wait(wait_fence, true)];
    - [PcLockCommit]: the wait has returned [ret >= 0], before the
      spinlock is taken to re-arm the fence and set the flag;
    - [PcUnlockSignal]: before [dma_fence_signal(signal_fence)];
    - [PcUnlockClear]: after it, before the spinlock is taken to clear
      the flag;
    - [PcReleaseSignal]: in [dmapp_cdev_release] after [kfree(user)],
      before the test of [signal_fence];
    - [PcReleaseDoSignal]: after that test, before [dma_fence_signal];
    - [PcReturn]: the call has returned [ret]. *)
Inductive pc : Type :=
| PcLockWait (u : addr) (parity : parity)
| PcLockCommit (u : addr) (parity : parity) (ret : Z)
| PcUnlockSignal (u : addr) (parity : parity)
| PcUnlockClear (u : addr) (ret : Z)
| PcReleaseSignal (signal_fence : option parity)
| PcReleaseDoSignal (k : parity)
| PcReturn (ret : Z).

(** The file a call in progress holds a reference to. *)
Definition in_flight_on (u : addr) (c : pc) : bool :=
  match c with
  | PcLockWait v _ | PcLockCommit v _ _
  | PcUnlockSignal v _ | PcUnlockClear v _ => bool_decide (v = u)
  | PcReleaseSignal _ | PcReleaseDoSignal _ | PcReturn _ => false
  end.

Record config : Type := Config {
  cworld : world;
  threads : gmap nat pc
}.

(** One scheduling decision: thread [t] enters a call, or thread [t] runs
    the next section of the call it is in. *)
Inductive sched : Type :=
| Start (t : nat) (c : call)
| Step (t : nat) (env : ioctl_env).

Definition idle (t : nat) (cf : config) : bool :=
  match threads cf !! t with
  | None | Some (PcReturn _) => true
  | Some _ => false
  end.

(** No call is in progress on the file [u]: the kernel releases a file
    only then. *)
Definition quiet (u : addr) (cf : config) : bool :=
  forallb (fun tc => negb (in_flight_on u tc.2)) (map_to_list (threads cf)).

(** Entry of a call up to its first section boundary. *)
Definition start_call (c : call) (cf : config) : option (world * pc) :=
  let w := cworld cf in
  match c with
  | Open kz =>
    if fresh kz w then
      let '(ret, w) := dmapp_cdev_open kz w in Some (w, PcReturn ret)
    else None
  | Close u =>
    if quiet u cf then
      '(signal_fence, w) ← release_disconnect u w;
      Some (w, PcReleaseSignal signal_fence)
    else None
  | Ioctl u cmd env =>
    next ← ioctl_entry u cmd env w;
    Some (w, match next with
             | NextReturn ret => PcReturn ret
             | NextLock parity => PcLockWait u parity
             | NextUnlock parity => PcUnlockSignal u parity
             end)
  end.

(** The next section of a call.  [None]: the thread cannot run (it sleeps
    in the wait, or its call has returned). *)
Definition step_pc (env : ioctl_env) (w : world) (c : pc)
  : option (world * pc) :=
  match c with
  | PcLockWait u parity =>
    ret ← lock_wait parity env w;
    Some (w, if ret <? 0 then PcReturn ret else PcLockCommit u parity ret)
  | PcLockCommit u parity ret => Some (lock_commit u parity w, PcReturn ret)
  | PcUnlockSignal u parity =>
    let '(ret, w) := unlock_signal parity w in Some (w, PcUnlockClear u ret)
  | PcUnlockClear u ret => Some (unlock_clear u w, PcReturn ret)
  | PcReleaseSignal signal_fence =>
    match release_test signal_fence w with
    | Some k => Some (w, PcReleaseDoSignal k)
    | None => Some (w, PcReturn 0)
    end
  | PcReleaseDoSignal k =>
    let '(ret, w) := release_do_signal k w in Some (w, PcReturn ret)
  | PcReturn _ => None
  end.

Definition sched_step (s : sched) (cf : config) : option config :=
  match s with
  | Start t c =>
    if idle t cf then
      '(w, c') ← start_call c cf;
      Some {| cworld := w; threads := <[t := c']> (threads cf) |}
    else None
  | Step t env =>
    c ← threads cf !! t;
    '(w, c') ← step_pc env (cworld cf) c;
    Some {| cworld := w; threads := <[t := c']> (threads cf) |}
  end.

Fixpoint exec (ss : list sched) (cf : config) : option config :=
  match ss with
  | [] => Some cf
  | s :: ss => cf ← sched_step s cf; exec ss cf
  end.

(** ** A sample attach and sample schedules *)

Definition env_ok : probe_env :=
  {| kzalloc_dev_ok := true; alloc_chrdev_region_ret := 0;
     device_create_err := 0; fence_context := 7;
     kzalloc_fence0_ok := true; kzalloc_fence1_ok := true;
     kzalloc_buffer_ok := true; dma_alloc_coherent_ok := true;
     dma_buf_export_err := 0; cdev_add_ret := 0 |}.

(** The device after [env_ok]: [fence[0]] pending, [fence[1]] signaled. *)
Definition w_attach : world :=
  {| dev := {| user := Arr2 None None;
               fence := Arr2 (dma_fence_init 7 0)
                             {| signaled := true; context := 7; seqno := 1 |} |};
     mem := ∅ |}.

Definition awake : ioctl_env := {| signal_pending := false; dma_buf_fd := 3 |}.
Definition interrupted : ioctl_env :=
  {| signal_pending := true; dma_buf_fd := 3 |}.

(** Addresses of user structures and identities of threads. *)
Definition ua : addr := 1%nat.
Definition ub : addr := 2%nat.
Definition uc : addr := 3%nat.
Definition ta : nat := 1%nat.
Definition tb : nat := 2%nat.
Definition tc : nat := 3%nat.

(** Two participants: the file with structure [ua] gets parity 0, the
    file with structure [ub] gets parity 1. *)
Definition w_two : world :=
  (dmapp_cdev_open (Some ub) (dmapp_cdev_open (Some ua) w_attach).2).2.

Definition lock (u : addr) : call := Ioctl u DMAPP_IOCTL_BUFFER_LOCK awake.
Definition unlock (u : addr) : call := Ioctl u DMAPP_IOCTL_BUFFER_UNLOCK awake.

(** Thread [ta] uses file [ua] (parity 0), thread [tb] uses file [ub]
    (parity 1).  Parity 1 takes its turn; parity 0 calls lock and sleeps;
    parity 1 calls unlock and signals [fence[0]]. *)
Definition sched_handoff : list sched :=
  [ Start ta (Open (Some ua)); Start tb (Open (Some ub));
    Start tb (lock ub); Step tb awake; Step tb awake;
    Start ta (lock ua);
    Start tb (unlock ub); Step tb awake ].

(** ... then parity 0 wakes and completes its lock before parity 1 has
    cleared its flag. *)
Definition sched_overlap : list sched :=
  sched_handoff ++ [ Step ta awake; Step ta awake ].

(** Threads [tb] and [tc] share file [ub] (parity 1) and call unlock
    together. *)
Definition sched_double_unlock : list sched :=
  [ Start ta (Open (Some ua)); Start tb (Open (Some ub));
    Start tb (lock ub); Step tb awake; Step tb awake;
    Start tb (unlock ub); Start tc (unlock ub);
    Step tb awake; Step tc awake; Step tb awake; Step tc awake ].

(** Threads [tb] and [tc] share file [ub] and call lock together: both
    pass the wait before either re-arms the fence. *)
Definition sched_shared_lock : list sched :=
  [ Start ta (Open (Some ua)); Start tb (Open (Some ub));
    Start tb (lock ub); Start tc (lock ub);
    Step tb awake; Step tc awake ].

(** ... [tb] completes its lock and unlocks, parity 0 takes its turn, and
    then [tc] completes the lock it had begun. *)
Definition sched_shared_overlap : list sched :=
  sched_shared_lock ++
  [ Step tb awake;
    Start tb (unlock ub); Step tb awake; Step tb awake;
    Start ta (lock ua); Step ta awake; Step ta awake;
    Step tc awake ].

(** ** Well-formed registries *)

(** What the two handlers of the registry maintain: a slot points to an
    allocated structure, the two slots point to different structures, and
    every allocated structure is in a slot. *)
Record wf (w : world) : Prop := Wf {
  wf_alloc : forall p u,
    nth2 (user (dev w)) p = Some u -> is_Some (mem w !! u);
  wf_distinct : forall u,
    nth2 (user (dev w)) P0 = Some u -> nth2 (user (dev w)) P1 <> Some u;
  wf_registered : forall u,
    is_Some (mem w !! u) -> exists p, nth2 (user (dev w)) p = Some u
}.

(** The four booleans the turn protocol is about. *)
Definition view (w : world) : bool * bool * bool * bool :=
  (fence_signaled w P0, fence_signaled w P1, in_turn w P0, in_turn w P1).

(** Where the single turn token is: in a signaled fence, or with the
    participant of some parity. *)
Inductive turn : Type :=
| FenceReady (p : parity)
| Holding (p : parity).

Definition turn_view (ts : turn) : bool * bool * bool * bool :=
  match ts with
  | FenceReady P0 => (true, false, false, false)
  | FenceReady P1 => (false, true, false, false)
  | Holding P0 => (false, false, true, false)
  | Holding P1 => (false, false, false, true)
  end.

(** The parity of the next acquisition. *)
Definition next_acquirer (ts : turn) : parity :=
  match ts with
  | FenceReady p => p
  | Holding p => other p
  end.

(** ** Interleaved execution with one call per file *)

(** A schedule is polite when no thread enters a control call on a file
    on which another call is still in progress: every open file is used
    by one thread of control at a time. *)
Definition polite (s : sched) (cf : config) : bool :=
  match s with
  | Start _ (Ioctl u _ _) => quiet u cf
  | _ => true
  end.

(** The parity for which a scheduling decision takes the turn: the thread
    runs the section of a lock call that re-arms the fence and sets the
    flag. *)
Definition commits (s : sched) (cf : config) : option parity :=
  match s with
  | Step t _ =>
    match threads cf !! t with
    | Some (PcLockCommit _ p _) => Some p
    | _ => None
    end
  | Start _ _ => None
  end.

(** A polite schedule, with the parities of the acquisitions in order. *)
Fixpoint exec_polite (ss : list sched) (cf : config)
  : option (list parity * config) :=
  match ss with
  | [] => Some ([], cf)
  | s :: ss =>
    if polite s cf then
      cf1 ← sched_step s cf;
      '(log, cf2) ← exec_polite ss cf1;
      Some (option_list (commits s cf) ++ log, cf2)
    else None
  end.

(** Where the token is while calls interleave: in a signaled fence, with
    the participant of some parity, or in the hands of a thread that has
    disconnected a participant in its turn and has yet to signal. *)
Inductive iturn : Type :=
| IFence (p : parity)
| IHeld (p : parity)
| IAbandon (t : nat) (p : parity).

Definition inext_acquirer (loc : iturn) : parity :=
  match loc with
  | IFence p => p
  | IHeld p => other p
  | IAbandon _ p => p
  end.

(** The fence that a thread in a close has yet to signal on behalf of the
    participant it has disconnected. *)
Definition carries (c : pc) : option parity :=
  match c with
  | PcReleaseSignal (Some q) | PcReleaseDoSignal q => Some q
  | _ => None
  end.

(** What a thread in a call can rely on. *)
Definition thread_ok (w : world) (loc : iturn) (t : nat) (c : pc) : Prop :=
  match c with
  | PcLockWait u p =>
    nth2 (user (dev w)) p = Some u /\ locked_at w u = false
  | PcLockCommit u p ret =>
    nth2 (user (dev w)) p = Some u /\ locked_at w u = false /\
    loc = IFence p /\ ret = 0
  | PcUnlockSignal u p =>
    nth2 (user (dev w)) p = Some u /\ loc = IHeld p
  | PcUnlockClear u ret =>
    exists p, nth2 (user (dev w)) p = Some u /\ loc <> IHeld p
  | PcReleaseSignal (Some q) | PcReleaseDoSignal q => loc = IAbandon t q
  | PcReleaseSignal None => True
  | PcReturn _ => True
  end.

(** A flag that is still set although its owner has passed the token on:
    the owner is between the signal and the clearing of the flag in
    unlock. *)
Definition stale (cf : config) (q : parity) : Prop :=
  exists t u ret,
    threads cf !! t = Some (PcUnlockClear u ret) /\
    nth2 (user (dev (cworld cf))) q = Some u.

Record iinv (cf : config) (loc : iturn) : Prop := Iinv {
  ii_wf : wf (cworld cf);
  ii_fence : forall q,
    fence_signaled (cworld cf) q = true <-> loc = IFence q;
  ii_turn : forall q,
    in_turn (cworld cf) q = true <-> loc = IHeld q \/ stale cf q;
  ii_threads : forall t c,
    threads cf !! t = Some c -> thread_ok (cworld cf) loc t c;
  ii_abandon : forall t q,
    loc = IAbandon t q -> threads cf !! t ≫= carries = Some q;
  ii_single : forall t1 t2 c1 c2 u,
    threads cf !! t1 = Some c1 -> threads cf !! t2 = Some c2 ->
    in_flight_on u c1 = true -> in_flight_on u c2 = true -> t1 = t2
}.

(** A participant is in its turn when its flag is set and it has not yet
    passed the token on. *)
Definition holds_turn (cf : config) (q : parity) : Prop :=
  in_turn (cworld cf) q = true /\ ~ stale cf q.

(** The token counted where it is: a signaled fence, a participant in
    its turn, a thread that has disconnected a participant in its turn and
    has yet to signal. *)
Definition token_at (cf : config) (loc : iturn) : Prop :=
  match loc with
  | IFence q => fence_signaled (cworld cf) q = true
  | IHeld q => holds_turn cf q
  | IAbandon t q => threads cf !! t ≫= carries = Some q
  end.

(** A thread between the two sections of a hand-over: an unlock that has
    signaled and not yet cleared the flag, a close that has disconnected
    a participant in its turn and not yet signaled. *)
Definition handing_over (c : pc) : bool :=
  match c with
  | PcUnlockClear _ _ | PcReleaseSignal (Some _) | PcReleaseDoSignal _ => true
  | _ => false
  end.

(** How a scheduling decision moves the token: an acquisition by [p]
    takes it out of [fence[p]]; any other decision leaves it in place,
    passes it from the participant of parity [p] to [fence[1-p]] (the
    signal of an unlock), hands it to the thread of a close, or puts it
    from there into the fence. *)
Definition iturn_step (loc : iturn) (a : option parity) (loc' : iturn)
  : Prop :=
  match a with
  | Some p => loc = IFence p /\ loc' = IHeld p
  | None =>
    loc' = loc \/
    (exists p, loc = IHeld p /\ loc' = IFence (other p)) \/
    (exists t p, loc = IHeld p /\ loc' = IAbandon t (other p)) \/
    (exists t q, loc = IAbandon t q /\ loc' = IFence q)
  end.

(** The configuration right after the sample attach, and the one at the
    end of [sched_overlap]. *)
Definition cf_attach : config := {| cworld := w_attach; threads := ∅ |}.
Definition cf_overlap : config := default cf_attach (exec sched_overlap cf_attach).

(** How a call moves the token: an acquisition by [p] takes it out of
    [fence[p]]; any other call leaves the parity of the next acquisition
    as it was. *)
Definition turn_step (ts : turn) (a : option parity) (ts' : turn) : Prop :=
  match a with
  | Some p => ts = FenceReady p /\ ts' = Holding p
  | None => next_acquirer ts' = next_acquirer ts
  end.

(** ** Lifetimes of kernel objects *)

(** What the probe functions, [dmapp_buf_map] and the module entry points
    obtain from the kernel and have to give back:
    - [RDevStruct]: the device structure from [kzalloc];
    - [RChrdevRegion]: the device number from [alloc_chrdev_region];
    - [RDeviceNode]: the device from [device_create];
    - [RFence p]: [fence[p]], from [kzalloc] and [dma_fence_init], which
      leaves one reference to it;
    - [RBuffer]: the [struct dmapp_buffer];
    - [RCoherent]: the memory from [dma_alloc_coherent];
    - [RDmaBuf]: the reference to the exported buffer that
      [dma_buf_export] returns;
    - [RCdev]: the character device made live by [cdev_add];
    - [RSgt], [RSgTable], [RSgMapping]: the [struct sg_table] of
      [dmapp_buf_map], its scatterlist and its DMA mapping;
    - [RPlatformDevice], [RClass], [RPlatformDriver]: the registrations
      of the module entry point. *)
Inductive resource : Type :=
| RDevStruct
| RChrdevRegion
| RDeviceNode
| RFence (p : parity)
| RBuffer
| RCoherent
| RDmaBuf
| RCdev
| RSgt
| RSgTable
| RSgMapping
| RPlatformDevice
| RClass
| RPlatformDriver.

#[global] Instance resource_eq_dec : EqDecision resource.
Proof. solve_decision. Defined.

(** A call that obtains an object, or one that gives it back. *)
Inductive event : Type :=
| Acquire (r : resource)
| Release (r : resource).

(** The objects held after a sequence of events, most recent first,
    starting with [held].  [None]: the sequence gives back an object
    that is not the most recent one still held (so also one that is not
    held at all, or one given back twice). *)
Fixpoint unwind (held : list resource) (evs : list event)
  : option (list resource) :=
  match evs with
  | [] => Some held
  | Acquire r :: evs => unwind (r :: held) evs
  | Release r :: evs =>
    match held with
    | r' :: held => if decide (r = r') then unwind held evs else None
    | [] => None
    end
  end.

(** ** The exported buffer: [dmapp_dmabuf_ops] *)

(** [struct dmapp_buffer], without the [dev] pointer. *)
Record dmapp_buffer : Type := Buffer {
  vaddr : Z;
  paddr : Z;
  buffer_size : Z
}.

(** One entry of a scatterlist, as [sg_set_page] fills it; the page is
    given by the address passed to [virt_to_page]. *)
Record scatterlist : Type := Scatterlist {
  sg_page_of : Z;
  sg_length : Z;
  sg_offset : Z
}.

(** [struct sg_table]: the entries of [sgl]. *)
Record sg_table : Type := SgTable {
  sgl : list scatterlist
}.

(** Results of the kernel services that [dmapp_buf_map] calls:
    [sg_alloc_table] returns 0 or an error, [dma_map_sg] the number of
    entries it has mapped, 0 for a failure. *)
Record map_env : Type := MapEnv {
  kzalloc_sgt_ok : bool;
  sg_alloc_table_ret : Z;
  dma_map_sg_ret : Z
}.

(** The labels of [dmapp_buf_map]; each falls through to the next. *)
Definition err_sg_alloc_table : list event := [Release RSgt].
Definition err_dma_map_sg : list event := Release RSgTable :: err_sg_alloc_table.

(** [dmapp_buf_map]: the table it returns or the error of its [ERR_PTR],
    with what it has obtained and given back, in program order. *)
Definition dmapp_buf_map (buffer : dmapp_buffer) (env : map_env)
  : (Z + sg_table) * list event :=
  if negb (kzalloc_sgt_ok env) then (inl (- ENOMEM), [])
  else
    let tr := [Acquire RSgt] in
    if negb (sg_alloc_table_ret env =? 0)
    then (inl (- ENOMEM), tr ++ err_sg_alloc_table)
    else
      let tr := tr ++ [Acquire RSgTable] in
      let sgt :=
        {| sgl := [ {| sg_page_of := vaddr buffer;
                       sg_length := buffer_size buffer;
                       sg_offset := 0 |} ] |} in
      if dma_map_sg_ret env =? 0
      then (inl (- ENOMEM), tr ++ err_dma_map_sg)
      else (inr sgt, tr ++ [Acquire RSgMapping]).

(** [dmapp_buf_unmap]: [dma_unmap_sg], [sg_free_table], [kfree]. *)
Definition dmapp_buf_unmap : list event :=
  [Release RSgMapping; Release RSgTable; Release RSgt].

(** [dmapp_buf_release]: [dma_free_coherent], [kfree(buffer)]. *)
Definition dmapp_buf_release : list event :=
  [Release RCoherent; Release RBuffer].

(** Modelled from the spec: [dma_buf_put] belongs to the kernel
    (<linux/dma-buf.h>).  It drops one reference to the exported buffer;
    when that was the last one, the [release] operation of the buffer
    runs.  [others] is the number of references held elsewhere. *)
Definition dma_buf_put (others : nat) : list event :=
  match others with
  | O => Release RDmaBuf :: dmapp_buf_release
  | S _ => [Release RDmaBuf]
  end.

(** ** Attach and detach with their objects *)

(** The labels at the end of [dmapp_platform_driver_probe]; each falls
    through to the next.  [err_cdev_add] is reached right after the
    export, when the probe holds the only reference to the buffer. *)
Definition err_alloc_chrdev : list event := [Release RDevStruct].
Definition err_device_create : list event :=
  Release RChrdevRegion :: err_alloc_chrdev.
Definition err_fence_0_alloc : list event :=
  Release RDeviceNode :: err_device_create.
Definition err_fence_1_alloc : list event :=
  Release (RFence P0) :: err_fence_0_alloc.
Definition err_fence_signal : list event :=
  Release (RFence P1) :: err_fence_1_alloc.
Definition err_alloc_buffer : list event := err_fence_signal.
Definition err_alloc_coherent : list event := err_alloc_buffer.
Definition err_dma_buf_export : list event := err_alloc_coherent.
Definition err_cdev_add : list event := dma_buf_put 0 ++ err_dma_buf_export.

(** [size_t buf_size = DMAPP_BUFFER_SIZE * sizeof(int)], the size in
    bytes of the buffer that the probe allocates and exports. *)
Definition sizeof_int : Z := 4.
Definition buf_size : Z := DMAPP_BUFFER_SIZE * sizeof_int.

(** [dmapp_platform_driver_probe] once more, this time with what it
    obtains and gives back, in program order. *)
Definition probe_events (env : probe_env) : Z * list event :=
  if negb (kzalloc_dev_ok env) then (- ENOMEM, [])
  else
    let tr := [Acquire RDevStruct] in
    if alloc_chrdev_region_ret env <? 0
    then (alloc_chrdev_region_ret env, tr ++ err_alloc_chrdev)
    else
      let tr := tr ++ [Acquire RChrdevRegion] in
      if device_create_err env <? 0
      then (device_create_err env, tr ++ err_device_create)
      else
        let tr := tr ++ [Acquire RDeviceNode] in
        (* Create and initialize DMA fences *)
        if negb (kzalloc_fence0_ok env)
        then (- ENOMEM, tr ++ err_fence_0_alloc)
        else
          let tr := tr ++ [Acquire (RFence P0)] in
          if negb (kzalloc_fence1_ok env)
          then (- ENOMEM, tr ++ err_fence_1_alloc)
          else
            let tr := tr ++ [Acquire (RFence P1)] in
            let '(ret, _) :=
              dma_fence_signal (dma_fence_init (fence_context env) 1) in
            if ret <? 0 then (ret, tr ++ err_fence_signal)
            (* Allocate and initialize buffer *)
            else if negb (kzalloc_buffer_ok env)
            then (- ENOMEM, tr ++ err_alloc_buffer)
            else
              let tr := tr ++ [Acquire RBuffer] in
              if negb (dma_alloc_coherent_ok env)
              then (- ENOMEM, tr ++ [Release RBuffer] ++ err_alloc_coherent)
              else
                let tr := tr ++ [Acquire RCoherent] in
                (* Export DMA buffer *)
                if dma_buf_export_err env <? 0
                then (dma_buf_export_err env,
                      tr ++ [Release RCoherent; Release RBuffer]
                         ++ err_dma_buf_export)
                else
                  let tr := tr ++ [Acquire RDmaBuf] in
                  if cdev_add_ret env <? 0
                  then (cdev_add_ret env, tr ++ err_cdev_add)
                  else (0, tr ++ [Acquire RCdev]).

(** [dmapp_platform_driver_remove], with [others] references to the
    exported buffer held elsewhere. *)
Definition dmapp_platform_driver_remove (others : nat) : Z * list event :=
  (0,
   [Release RCdev] ++ dma_buf_put others ++
   [Release (RFence P1); Release (RFence P0); Release RDeviceNode;
    Release RChrdevRegion; Release RDevStruct]).

(** What a successful probe holds, most recent first. *)
Definition probe_holds : list resource :=
  [RCdev; RDmaBuf; RCoherent; RBuffer; RFence P1; RFence P0; RDeviceNode;
   RChrdevRegion; RDevStruct].

(** ** Module entry points: [dmapp_module_init] and [dmapp_module_exit] *)

(** Results of the kernel services of [dmapp_module_init]; a
    pointer-returning service is represented by its error code, as in
    [probe_env]. *)
Record init_env : Type := InitEnv {
  platform_device_register_simple_err : Z;
  class_create_err : Z;
  platform_driver_register_ret : Z
}.

Definition err_class_create : list event := [Release RPlatformDevice].
Definition err_platform_driver_register : list event :=
  Release RClass :: err_class_create.

Definition dmapp_module_init (env : init_env) : Z * list event :=
  if platform_device_register_simple_err env <? 0
  then (platform_device_register_simple_err env, [])
  else
    let tr := [Acquire RPlatformDevice] in
    if class_create_err env <? 0
    then (class_create_err env, tr ++ err_class_create)
    else
      let tr := tr ++ [Acquire RClass] in
      if platform_driver_register_ret env <? 0
      then (platform_driver_register_ret env,
            tr ++ err_platform_driver_register)
      else (0, tr ++ [Acquire RPlatformDriver]).

Definition dmapp_module_exit : list event :=
  [Release RPlatformDriver; Release RClass; Release RPlatformDevice].

(** ** Schedules that keep a file open *)

(** The scheduling decision closes the file of [u]. *)
Definition closes (u : addr) (s : sched) : bool :=
  match s with
  | Start _ (Close v) => bool_decide (v = u)
  | _ => false
  end.

(** ** The user program of the driver (dmapp/user/dmapp.c) *)

(** Modelled from the spec: [ioctl] of the C library, which is not part
    of this repository.  A result of the handler that is not negative is
    returned as it is; for a negative one the program gets -1 (and the
    code in [errno]). *)
Definition sys_ioctl (ret : Z) : Z := if ret <? 0 then -1 else ret.

(** A control call as the program sees it; [None] as a value: the
    program is still asleep in the call. *)
Definition user_ioctl (u : addr) (cmd : Z) (env : ioctl_env) (w : world)
  : option (option Z * world) :=
  '(o, w) ← dmapp_cdev_ioctl u cmd env w;
  Some (match o with
        | Returned ret => Some (sys_ioctl ret)
        | Blocked => None
        end, w).

(** Where [main] stands when it has made its three queries: at one of
    its failure labels, or ready to map [size_bytes] bytes of the buffer
    behind [dma_buf_fd]. *)
Inductive main_state : Type :=
| fail_size
| fail_parity
| fail_dma_buf_fd
| Ready (size_bytes parity dma_buf_fd : Z).

(** [main] from the first [ioctl] to the call of [mmap], on the open
    file of [u].  [None] as a state: asleep in a call. *)
Definition main_setup (u : addr) (env : ioctl_env) (w : world)
  : option (option main_state * world) :=
  '(size, w) ← user_ioctl u DMAPP_IOCTL_GET_BUFFER_SIZE env w;
  match size with
  | None => Some (None, w)
  | Some size =>
    if size <=? 0 then Some (Some fail_size, w)
    else
      let size_bytes := size * sizeof_int in
      '(parity, w) ← user_ioctl u DMAPP_IOCTL_GET_BUFFER_PARITY env w;
      match parity with
      | None => Some (None, w)
      | Some parity =>
        if (parity <? 0) || (parity >? 1) then Some (Some fail_parity, w)
        else
          (* Get the DMA buffer file descriptor *)
          '(fd, w) ← user_ioctl u DMAPP_IOCTL_GET_BUFFER_FD env w;
          match fd with
          | None => Some (None, w)
          | Some fd =>
            if fd <? 0 then Some (Some fail_dma_buf_fd, w)
            else Some (Some (Ready size_bytes parity fd), w)
          end
      end
  end.

(** One pass of the loop of [main]: asleep in the lock call; a failed
    lock call ("retry on lock failures"); or the work on the buffer, in
    the world [during], followed by the unlock call, whose result the
    program only reports. *)
Inductive main_pass_result : Type :=
| PassAsleep
| PassRetry
| PassWork (during : world) (unlock_ret : Z).

Definition main_pass (u : addr) (env : ioctl_env) (w : world)
  : option (main_pass_result * world) :=
  (* lock buffer *)
  '(ret, w) ← user_ioctl u DMAPP_IOCTL_BUFFER_LOCK env w;
  match ret with
  | None => Some (PassAsleep, w)
  | Some ret =>
    if ret =? -1 then Some (PassRetry, w)
    else
      let during := w in
      (* unlock buffer *)
      '(ret, w) ← user_ioctl u DMAPP_IOCTL_BUFFER_UNLOCK env w;
      match ret with
      | None => Some (PassAsleep, w)
      | Some ret => Some (PassWork during ret, w)
      end
  end.

(** ** The echo module (ekm) *)

Definition EFAULT : Z := 14.

(** [_IOC(dir, type, nr, size)] of <asm-generic/ioctl.h>, with the
    direction in bits 30..31 and the size in bits 16..29. *)
Definition _IOC (dir type nr size : Z) : Z :=
  Z.lor (Z.lor (Z.lor (Z.shiftl dir 30) (Z.shiftl type 8)) (Z.shiftl nr 0))
        (Z.shiftl size 16).

Definition _IOC_WRITE : Z := 1.
Definition _IOC_READ : Z := 2.
Definition _IOR (type nr size : Z) : Z := _IOC _IOC_READ type nr size.
Definition _IOW (type nr size : Z) : Z := _IOC _IOC_WRITE type nr size.

(** [struct ekm_data]; [sizeof(struct ekm_data)] is [sizeof(int)]. *)
Record ekm_data : Type := EkmData {
  value : Z
}.

(** ['k'] *)
Definition EKM_IOC_MAGIC : Z := 107.
Definition EKM_IOCTL_GET_DATA : Z := _IOR EKM_IOC_MAGIC 1 sizeof_int.
Definition EKM_IOCTL_SET_DATA : Z := _IOW EKM_IOC_MAGIC 2 sizeof_int.

(** [struct ekm_device], reduced to [data]. *)
Record ekm_device : Type := EkmDevice {
  data : ekm_data
}.

(** The user memory that [arg] points to: [None] when it cannot be
    accessed, so that [copy_to_user] and [copy_from_user] fail. *)
Definition user_arg : Type := option ekm_data.

(** [ekm_cdev_ioctl] (the same code is [ekm_ioctl] in the second
    variant of the module): the result, the device and the user
    memory. *)
Definition ekm_cdev_ioctl (cmd : Z) (arg : user_arg) (d : ekm_device)
  : Z * ekm_device * user_arg :=
  if cmd =? EKM_IOCTL_GET_DATA then
    let temp := data d in
    match arg with
    | None => (- EFAULT, d, arg)
    | Some _ => (0, d, Some temp)
    end
  else if cmd =? EKM_IOCTL_SET_DATA then
    match arg with
    | None => (- EFAULT, d, arg)
    | Some temp => (0, {| data := temp |}, arg)
    end
  else (- ENOTTY, d, arg).

(** A sequence of control calls on the echo device, each given by its
    command and the user memory behind [arg]; the result is the device
    after the last call. *)
Fixpoint ekm_calls (cs : list (Z * user_arg)) (d : ekm_device) : ekm_device :=
  match cs with
  | [] => d
  | (cmd, arg) :: cs => ekm_calls cs (ekm_cdev_ioctl cmd arg d).1.2
  end.

(** What a call stores in the device when it succeeds: the contents of
    the user memory, for the command [EKM_IOCTL_SET_DATA]. *)
Definition ekm_sets (c : Z * user_arg) : option ekm_data :=
  if c.1 =? EKM_IOCTL_SET_DATA then c.2 else None.

(** Results of the kernel services of [ekm_platform_driver_probe]. *)
Record ekm_probe_env : Type := EkmProbeEnv {
  ekm_kzalloc_ok : bool;
  ekm_alloc_chrdev_region_ret : Z;
  ekm_cdev_add_ret : Z;
  ekm_device_create_err : Z
}.

(** The labels of [ekm_platform_driver_probe]. *)
Definition ekm_err_alloc_chrdev : list event := [Release RDevStruct].
Definition ekm_err_cdev_add : list event :=
  Release RChrdevRegion :: ekm_err_alloc_chrdev.
Definition ekm_err_device_create : list event :=
  Release RCdev :: ekm_err_cdev_add.

(** [ekm_platform_driver_probe] ([ekm_probe] in the second variant):
    the status, the device on success, and what the probe has obtained
    and given back. *)
Definition ekm_platform_driver_probe (env : ekm_probe_env)
  : Z * option ekm_device * list event :=
  if negb (ekm_kzalloc_ok env) then (- ENOMEM, None, [])
  else
    let tr := [Acquire RDevStruct] in
    if ekm_alloc_chrdev_region_ret env <? 0
    then (ekm_alloc_chrdev_region_ret env, None, tr ++ ekm_err_alloc_chrdev)
    else
      let tr := tr ++ [Acquire RChrdevRegion] in
      if ekm_cdev_add_ret env <? 0
      then (ekm_cdev_add_ret env, None, tr ++ ekm_err_cdev_add)
      else
        let tr := tr ++ [Acquire RCdev] in
        if ekm_device_create_err env <? 0
        then (ekm_device_create_err env, None, tr ++ ekm_err_device_create)
        else
          (0, Some {| data := {| value := 42 |} |},
           tr ++ [Acquire RDeviceNode]).

(** [ekm_platform_driver_remove] ([ekm_remove]). *)
Definition ekm_platform_driver_remove : Z * list event :=
  (0, [Release RDeviceNode; Release RCdev; Release RChrdevRegion;
       Release RDevStruct]).

(** [ekm_module_init] and [ekm_module_exit] ([ekm_init] and [ekm_exit]
    in the second variant), with their labels. *)
Definition ekm_err_class_create : list event := [Release RPlatformDevice].
Definition ekm_err_platform_driver_register : list event :=
  Release RClass :: ekm_err_class_create.

Definition ekm_module_init (env : init_env) : Z * list event :=
  if platform_device_register_simple_err env <? 0
  then (platform_device_register_simple_err env, [])
  else
    let tr := [Acquire RPlatformDevice] in
    if class_create_err env <? 0
    then (class_create_err env, tr ++ ekm_err_class_create)
    else
      let tr := tr ++ [Acquire RClass] in
      if platform_driver_register_ret env <? 0
      then (platform_driver_register_ret env,
            tr ++ ekm_err_platform_driver_register)
      else (0, tr ++ [Acquire RPlatformDriver]).

Definition ekm_module_exit : list event :=
  [Release RPlatformDriver; Release RClass; Release RPlatformDevice].

(** *** The user program of the echo module (user/ekm.c) *)

(** Conversions of C between [long], [uint32_t] and a 32-bit [int]. *)
Definition to_uint32 (z : Z) : Z := z mod 2 ^ 32.
Definition to_int (z : Z) : Z := (z + 2 ^ 31) mod 2 ^ 32 - 2 ^ 31.

Definition EXIT_SUCCESS : Z := 0.
Definition EXIT_FAILURE : Z := 1.

(** [data.value] of the program, read through [arg]. *)
Definition arg_value (arg : user_arg) : Z := from_option value 0 arg.

(** The lines [main] prints. *)
Inductive ekm_line : Type :=
| LineUsage
| LineOpenFailed
| LineWriteFailed
| LineWrite (v : Z)
| LineReadFailed
| LineRead (v : Z).

(** [main] of user/ekm.c: [argc], whether [open] succeeds, and what
    [strtol] returns for [argv[2]]; the result is the exit status, the
    lines printed and the device.  [data] lives on the stack of [main],
    so [arg] is accessible. *)
Definition ekm_main (argc : Z) (open_ok : bool) (strtol_ret : Z)
    (d : ekm_device) : Z * list ekm_line * ekm_device :=
  if negb (argc =? 3) then (EXIT_FAILURE, [LineUsage], d)
  else
    let value := to_uint32 strtol_ret in
    if negb open_ok then (EXIT_FAILURE, [LineOpenFailed], d)
    else
      let data : user_arg := Some {| value := to_int value |} in
      let '(ret, d, data) := ekm_cdev_ioctl EKM_IOCTL_SET_DATA data d in
      let line1 :=
        if sys_ioctl ret =? -1 then LineWriteFailed
        else LineWrite (arg_value data) in
      let '(ret, d, data) := ekm_cdev_ioctl EKM_IOCTL_GET_DATA data d in
      let line2 :=
        if sys_ioctl ret =? -1 then LineReadFailed
        else LineRead (arg_value data) in
      (EXIT_SUCCESS, [line1; line2], d).

(** * Properties *)

(** ** Arrays, fences and primitive updates *)

Lemma other_neq p : other p <> p.
Proof. by destruct p. Qed.

Lemma nth2_upd2_eq {A} (a : arr2 A) p x : nth2 (upd2 a p x) p = x.
Proof. by destruct p. Qed.

Lemma nth2_upd2_other {A} (a : arr2 A) p x :
  nth2 (upd2 a p x) (other p) = nth2 a (other p).
Proof. by destruct p. Qed.

Lemma nth2_upd2_ne {A} (a : arr2 A) p q x :
  p <> q -> nth2 (upd2 a p x) q = nth2 a q.
Proof. by destruct p, q. Qed.

Lemma dma_fence_signal_signaled f : signaled (dma_fence_signal f).2 = true.
Proof. unfold dma_fence_signal. by destruct (signaled f) eqn:E. Qed.

Lemma dma_fence_signal_pending f :
  signaled f = false ->
  dma_fence_signal f =
  (0, {| signaled := true; context := context f; seqno := seqno f |}).
Proof. unfold dma_fence_signal. by intros ->. Qed.

Lemma dma_fence_signal_duplicate f :
  signaled f = true -> dma_fence_signal f = (- EINVAL, f).
Proof. unfold dma_fence_signal. by intros ->. Qed.

(** The probe succeeds only with the fences in their initial states. *)
Lemma probe_success env d :
  dmapp_platform_driver_probe env = (0, Some d) ->
  d = {| user := Arr2 None None;
         fence := Arr2 (dma_fence_init (fence_context env) 0)
                       {| signaled := true; context := fence_context env;
                          seqno := 1 |} |}.
Proof.
  unfold dmapp_platform_driver_probe.
  repeat (case_match; try discriminate).
  intros [= <-].
  match goal with H : dma_fence_signal _ = _ |- _ =>
    rewrite dma_fence_signal_pending in H by done; by inversion H end.
Qed.

Lemma attached_w_attach : attached w_attach.
Proof. exists env_ok, (dev w_attach). split; reflexivity. Defined.

Lemma fence_signaled_set_fence_eq p f w :
  fence_signaled (set_fence p f w) p = signaled f.
Proof. unfold fence_signaled; simpl. by rewrite nth2_upd2_eq. Qed.

Lemma fence_signaled_set_fence_ne p q f w :
  p <> q -> fence_signaled (set_fence p f w) q = fence_signaled w q.
Proof. intros. unfold fence_signaled; simpl. by rewrite nth2_upd2_ne. Qed.

Lemma locked_at_set_is_locked_eq u b w :
  is_Some (mem w !! u) -> locked_at (set_is_locked u b w) u = b.
Proof.
  intros [usr Hu]. unfold locked_at, set_is_locked; simpl.
  by rewrite lookup_alter_eq, Hu.
Qed.

Lemma locked_at_set_is_locked_ne u v b w :
  u <> v -> locked_at (set_is_locked u b w) v = locked_at w v.
Proof.
  intros. unfold locked_at, set_is_locked; simpl.
  by rewrite lookup_alter_ne.
Qed.

Lemma in_turn_set_is_locked_eq u b w q :
  nth2 (user (dev w)) q = Some u -> is_Some (mem w !! u) ->
  in_turn (set_is_locked u b w) q = b.
Proof.
  intros Hq Hu. unfold in_turn. simpl. rewrite Hq.
  by apply locked_at_set_is_locked_eq.
Qed.

Lemma in_turn_set_is_locked_ne u b w q :
  nth2 (user (dev w)) q <> Some u ->
  in_turn (set_is_locked u b w) q = in_turn w q.
Proof.
  intros Hq. unfold in_turn. simpl.
  destruct (nth2 (user (dev w)) q) as [v|]; [|done].
  apply locked_at_set_is_locked_ne. congruence.
Qed.

Lemma in_turn_set_user_eq p x w :
  in_turn (set_user p x w) p =
  match x with Some u => locked_at w u | None => false end.
Proof. unfold in_turn; simpl. by rewrite nth2_upd2_eq. Qed.

Lemma in_turn_set_user_ne p q x w :
  p <> q -> in_turn (set_user p x w) q = in_turn w q.
Proof. intros. unfold in_turn; simpl. by rewrite nth2_upd2_ne. Qed.

Lemma in_turn_kfree_user u w q :
  nth2 (user (dev w)) q <> Some u ->
  in_turn (kfree_user u w) q = in_turn w q.
Proof.
  intros Hq. unfold in_turn, locked_at; simpl.
  destruct (nth2 (user (dev w)) q) as [v|]; [|done].
  rewrite lookup_delete_ne; [done|congruence].
Qed.

Lemma in_turn_kzalloc_user u w q :
  nth2 (user (dev w)) q <> Some u ->
  in_turn (kzalloc_user u w) q = in_turn w q.
Proof.
  intros Hq. unfold in_turn, locked_at; simpl.
  destruct (nth2 (user (dev w)) q) as [v|]; [|done].
  rewrite lookup_insert_ne; [done|congruence].
Qed.

(** ** The registry stays well formed *)

Lemma wf_attached w : attached w -> wf w.
Proof.
  intros (env & d & Hp & ->). apply probe_success in Hp as ->.
  split; simpl.
  - by intros [] u.
  - done.
  - intros u [usr Hu]. by rewrite lookup_empty in Hu.
Qed.

Lemma wf_slot_fresh w p u :
  wf w -> mem w !! u = None -> nth2 (user (dev w)) p <> Some u.
Proof.
  intros Hwf Hu Hp. apply (wf_alloc _ Hwf) in Hp as [usr Hp]. congruence.
Qed.

Lemma wf_set_fence p f w : wf w -> wf (set_fence p f w).
Proof. intros [H1 H2 H3]. by split. Qed.

Lemma wf_set_is_locked u b w : wf w -> wf (set_is_locked u b w).
Proof.
  intros [H1 H2 H3]. split; simpl.
  - intros p v Hv. destruct (H1 p v Hv) as [usr Hu].
    destruct (decide (u = v)) as [->|Hne].
    + rewrite lookup_alter_eq, Hu. by eexists.
    + rewrite lookup_alter_ne by done. by eexists.
  - done.
  - intros v [usr Hv]. apply H3.
    destruct (decide (u = v)) as [->|Hne].
    + rewrite lookup_alter_eq in Hv.
      destruct (mem w !! v); [by eexists|done].
    + rewrite lookup_alter_ne in Hv by done. by eexists.
Qed.

(** Under a well-formed registry the validation of the control call finds
    the slot of the caller. *)
Lemma validate_user_slot w u p :
  wf w -> (validate_user u w = Some p <-> nth2 (user (dev w)) p = Some u).
Proof.
  intros Hwf. unfold validate_user, slot_is.
  repeat case_bool_decide; split; intros Hp; simplify_eq; try done.
  - destruct p; [done|]. by destruct (wf_distinct _ Hwf u).
  - destruct p; simpl in *; congruence.
  - destruct p; simpl in *; congruence.
Qed.

Lemma wf_validate w u :
  wf w -> is_Some (mem w !! u) -> exists p, validate_user u w = Some p.
Proof.
  intros Hwf Hu. destruct (wf_registered _ Hwf u Hu) as [p Hp].
  exists p. by apply validate_user_slot.
Qed.

Lemma wf_other_slot w u p :
  wf w -> nth2 (user (dev w)) p = Some u ->
  nth2 (user (dev w)) (other p) <> Some u.
Proof.
  intros Hwf Hp Hq. destruct p; simpl in *.
  - by destruct (wf_distinct _ Hwf u).
  - by destruct (wf_distinct _ Hwf u).
Qed.

(** ** What each handler does *)

Lemma kfree_kzalloc_fresh u w :
  mem w !! u = None -> kfree_user u (kzalloc_user u w) = w.
Proof.
  intros Hu. destruct w as [d m]. unfold kfree_user, kzalloc_user; simpl in *.
  f_equal. by apply delete_insert_id.
Qed.

Lemma open_slot0 w u :
  nth2 (user (dev w)) P0 = None ->
  dmapp_cdev_open (Some u) w = (0, set_user P0 (Some u) (kzalloc_user u w)).
Proof.
  intros H0. unfold dmapp_cdev_open, slot_free. simpl in *.
  by rewrite bool_decide_eq_true_2.
Qed.

Lemma open_slot1 w u :
  nth2 (user (dev w)) P0 <> None -> nth2 (user (dev w)) P1 = None ->
  dmapp_cdev_open (Some u) w = (0, set_user P1 (Some u) (kzalloc_user u w)).
Proof.
  intros H0 H1. unfold dmapp_cdev_open, slot_free. simpl in *.
  rewrite bool_decide_eq_false_2 by done.
  by rewrite bool_decide_eq_true_2.
Qed.

Lemma open_full w u :
  nth2 (user (dev w)) P0 <> None -> nth2 (user (dev w)) P1 <> None ->
  mem w !! u = None ->
  dmapp_cdev_open (Some u) w = (- EINVAL, w).
Proof.
  intros H0 H1 Hu. unfold dmapp_cdev_open, slot_free. simpl in *.
  rewrite !bool_decide_eq_false_2 by done.
  by rewrite kfree_kzalloc_fresh.
Qed.

Lemma release_slot w u p usr :
  wf w -> nth2 (user (dev w)) p = Some u -> mem w !! u = Some usr ->
  dmapp_cdev_release u w =
  Some (release_signal (if is_locked usr then Some (other p) else None)
                       (kfree_user u (set_user p None w))).
Proof.
  intros Hwf Hp Hu. unfold dmapp_cdev_release, release_disconnect, slot_is.
  rewrite Hu; simpl. destruct p; simpl in *.
  - by rewrite bool_decide_eq_true_2.
  - rewrite bool_decide_eq_false_2.
    + by rewrite bool_decide_eq_true_2.
    + intros H0. by destruct (wf_distinct _ Hwf u).
Qed.

Lemma ioctl_lock_held w u p env :
  validate_user u w = Some p -> locked_at w u = true ->
  dmapp_cdev_ioctl u DMAPP_IOCTL_BUFFER_LOCK env w = Some (Returned 0, w).
Proof.
  unfold locked_at, dmapp_cdev_ioctl, ioctl_entry. intros Hv Hl.
  destruct (mem w !! u) as [usr|]; [|done]. simpl. by rewrite Hv, Hl.
Qed.

Lemma ioctl_lock_free w u p env :
  validate_user u w = Some p -> is_Some (mem w !! u) ->
  locked_at w u = false ->
  dmapp_cdev_ioctl u DMAPP_IOCTL_BUFFER_LOCK env w =
  match lock_wait p env w with
  | None => Some (Blocked, w)
  | Some ret =>
    if ret <? 0 then Some (Returned ret, w)
    else Some (Returned ret, lock_commit u p w)
  end.
Proof.
  unfold locked_at, dmapp_cdev_ioctl, ioctl_entry. intros Hv [usr Hu] Hl.
  rewrite Hu in *. simpl. by rewrite Hv, Hl.
Qed.

Lemma ioctl_unlock_held w u p env :
  validate_user u w = Some p -> locked_at w u = true ->
  dmapp_cdev_ioctl u DMAPP_IOCTL_BUFFER_UNLOCK env w =
  Some (Returned (unlock_signal p w).1, unlock_clear u (unlock_signal p w).2).
Proof.
  unfold locked_at, dmapp_cdev_ioctl, ioctl_entry. intros Hv Hl.
  destruct (mem w !! u) as [usr|]; [|done]. simpl. rewrite Hv, Hl. simpl.
  by destruct (unlock_signal p w).
Qed.

Lemma ioctl_unlock_free w u p env :
  validate_user u w = Some p -> is_Some (mem w !! u) ->
  locked_at w u = false ->
  dmapp_cdev_ioctl u DMAPP_IOCTL_BUFFER_UNLOCK env w = Some (Returned 0, w).
Proof.
  unfold locked_at, dmapp_cdev_ioctl, ioctl_entry. intros Hv [usr Hu] Hl.
  rewrite Hu in *. simpl. by rewrite Hv, Hl.
Qed.

(** A call that is neither a lock nor an unlock only reads the state. *)
Lemma ioctl_other w u cmd env o w' :
  cmd <> DMAPP_IOCTL_BUFFER_LOCK -> cmd <> DMAPP_IOCTL_BUFFER_UNLOCK ->
  dmapp_cdev_ioctl u cmd env w = Some (o, w') ->
  w' = w /\ exists ret, o = Returned ret.
Proof.
  intros Hl Hu. unfold dmapp_cdev_ioctl, ioctl_entry.
  apply Z.eqb_neq in Hl, Hu. rewrite Hl, Hu. simpl.
  destruct (mem w !! u) as [usr|]; [simpl|done].
  destruct (validate_user u w);
    repeat case_match; intros; simplify_eq/=; eauto.
Qed.

(** A caller that is in no slot is turned away. *)
Lemma ioctl_invalid w u cmd env :
  is_Some (mem w !! u) -> validate_user u w = None ->
  dmapp_cdev_ioctl u cmd env w = Some (Returned (- EINVAL), w).
Proof.
  intros [usr Hu] Hv. unfold dmapp_cdev_ioctl, ioctl_entry.
  by rewrite Hu; simpl; rewrite Hv.
Qed.

Lemma ioctl_allocated w u cmd env o w' :
  dmapp_cdev_ioctl u cmd env w = Some (o, w') -> is_Some (mem w !! u).
Proof.
  unfold dmapp_cdev_ioctl, ioctl_entry.
  destruct (mem w !! u); [by eexists|done].
Qed.

(** ** Effect of the handlers on fences and flags *)

Lemma in_turn_slot w p u :
  nth2 (user (dev w)) p = Some u -> in_turn w p = locked_at w u.
Proof. unfold in_turn. by intros ->. Qed.

Lemma lock_commit_effect w u p :
  wf w -> nth2 (user (dev w)) p = Some u ->
  wf (lock_commit u p w) /\
  fence_signaled (lock_commit u p w) p = false /\
  fence_signaled (lock_commit u p w) (other p) = fence_signaled w (other p) /\
  in_turn (lock_commit u p w) p = true /\
  in_turn (lock_commit u p w) (other p) = in_turn w (other p).
Proof.
  intros Hwf Hp. unfold lock_commit, wait_fence_of.
  pose proof (wf_other_slot _ _ _ Hwf Hp) as Hq.
  pose proof (wf_alloc _ Hwf _ _ Hp) as Hu.
  split; [by apply wf_set_is_locked, wf_set_fence|].
  split; [apply fence_signaled_set_fence_eq|].
  split; [apply fence_signaled_set_fence_ne; by destruct p|].
  split.
  - by apply in_turn_set_is_locked_eq.
  - by rewrite in_turn_set_is_locked_ne.
Qed.

Lemma unlock_signal_ret w p :
  (unlock_signal p w).1 = if fence_signaled w (other p) then - EINVAL else 0.
Proof.
  unfold unlock_signal, signal_fence_of, fence_signaled, dma_fence_signal.
  by destruct (signaled _).
Qed.

Lemma unlock_effect w u p :
  wf w -> nth2 (user (dev w)) p = Some u ->
  let w' := unlock_clear u (unlock_signal p w).2 in
  wf w' /\
  fence_signaled w' p = fence_signaled w p /\
  fence_signaled w' (other p) = true /\
  in_turn w' p = false /\
  in_turn w' (other p) = in_turn w (other p).
Proof.
  intros Hwf Hp. unfold unlock_clear, unlock_signal, signal_fence_of.
  pose proof (wf_other_slot _ _ _ Hwf Hp) as Hq.
  pose proof (wf_alloc _ Hwf _ _ Hp) as Hu.
  pose proof (dma_fence_signal_signaled (nth2 (fence (dev w)) (other p))) as Hs.
  destruct (dma_fence_signal _) as [ret f]; simpl in *.
  split; [by apply wf_set_is_locked, wf_set_fence|].
  split; [apply fence_signaled_set_fence_ne, other_neq|].
  split; [by rewrite <- Hs; apply fence_signaled_set_fence_eq|].
  split.
  - by apply in_turn_set_is_locked_eq.
  - by rewrite in_turn_set_is_locked_ne.
Qed.

Lemma wf_disconnect w u p :
  wf w -> nth2 (user (dev w)) p = Some u ->
  wf (kfree_user u (set_user p None w)).
Proof.
  intros Hwf Hp. pose proof (wf_other_slot _ _ _ Hwf Hp) as Hq.
  split; simpl.
  - intros q v Hv. destruct (decide (q = p)) as [->|Hne].
    + by rewrite nth2_upd2_eq in Hv.
    + rewrite nth2_upd2_ne in Hv by done.
      rewrite lookup_delete_ne; [by apply (wf_alloc _ Hwf q)|].
      intros ->. destruct p, q; simpl in *; congruence.
  - intros v. by destruct p.
  - intros v [usr Hv]. destruct (decide (u = v)) as [->|Hne].
    + by rewrite lookup_delete_eq in Hv.
    + rewrite lookup_delete_ne in Hv by done.
      destruct (wf_registered _ Hwf v) as [q Hq']; [by eexists|].
      exists q. rewrite nth2_upd2_ne; [done|].
      intros ->. congruence.
Qed.

Lemma release_effect w u p usr :
  wf w -> nth2 (user (dev w)) p = Some u -> mem w !! u = Some usr ->
  let r := release_signal (if is_locked usr then Some (other p) else None)
                          (kfree_user u (set_user p None w)) in
  r.1 = 0 /\
  wf r.2 /\
  nth2 (user (dev r.2)) p = None /\
  nth2 (user (dev r.2)) (other p) = nth2 (user (dev w)) (other p) /\
  fence_signaled r.2 p = fence_signaled w p /\
  fence_signaled r.2 (other p) =
    fence_signaled w (other p) || is_locked usr /\
  in_turn r.2 p = false /\
  in_turn r.2 (other p) = in_turn w (other p).
Proof.
  intros Hwf Hp Hu.
  pose proof (wf_other_slot _ _ _ Hwf Hp) as Hq.
  pose proof (wf_disconnect _ _ _ Hwf Hp) as Hwf'.
  assert (in_turn (kfree_user u (set_user p None w)) p = false) as Hp'.
  { unfold in_turn; simpl. by rewrite nth2_upd2_eq. }
  assert (in_turn (kfree_user u (set_user p None w)) (other p)
          = in_turn w (other p)) as Hq'.
  { rewrite in_turn_kfree_user; simpl.
    - unfold in_turn; simpl. by rewrite nth2_upd2_other.
    - by rewrite nth2_upd2_other. }
  unfold release_signal, release_test, release_do_signal,
    dma_fence_is_signaled, dma_fence_signal, fence_signaled; simpl.
  destruct (is_locked usr);
    [destruct (signaled (nth2 (fence (dev w)) (other p))) eqn:Hs|]; simpl;
    rewrite ?nth2_upd2_eq, ?nth2_upd2_other, ?Hs, ?orb_false_r;
    split_and!; try done.
  all: rewrite ?Hs; simpl; rewrite ?nth2_upd2_eq, ?nth2_upd2_other; try done.
  - by apply wf_set_fence.
  - by rewrite nth2_upd2_ne by apply other_neq.
Qed.

Lemma wf_register w u p :
  wf w -> mem w !! u = None -> nth2 (user (dev w)) p = None ->
  wf (set_user p (Some u) (kzalloc_user u w)).
Proof.
  intros Hwf Hu Hp. split; simpl.
  - intros q v Hv. destruct (decide (u = v)) as [->|Hne].
    + rewrite lookup_insert_eq. by eexists.
    + rewrite lookup_insert_ne by done. apply (wf_alloc _ Hwf q).
      destruct (decide (p = q)) as [->|Hpq].
      * rewrite nth2_upd2_eq in Hv. congruence.
      * by rewrite nth2_upd2_ne in Hv.
  - intros v. destruct p; simpl in *.
    + intros [= <-]. exact (wf_slot_fresh w P1 u Hwf Hu).
    + intros Hv [= <-]. exact (wf_slot_fresh w P0 u Hwf Hu Hv).
  - intros v [usr Hv]. destruct (decide (u = v)) as [->|Hne].
    + exists p. by rewrite nth2_upd2_eq.
    + rewrite lookup_insert_ne in Hv by done.
      destruct (wf_registered _ Hwf v) as [q Hq]; [by eexists|].
      exists q. rewrite nth2_upd2_ne; [done|]. intros ->. congruence.
Qed.

Lemma register_view w u p :
  wf w -> mem w !! u = None -> nth2 (user (dev w)) p = None ->
  view (set_user p (Some u) (kzalloc_user u w)) = view w.
Proof.
  intros Hwf Hu Hp.
  assert (in_turn w p = false) as Hp0 by (unfold in_turn; by rewrite Hp).
  assert (in_turn (set_user p (Some u) (kzalloc_user u w)) p = false) as Hp1.
  { rewrite in_turn_set_user_eq. unfold locked_at; simpl.
    by rewrite lookup_insert_eq. }
  assert (in_turn (set_user p (Some u) (kzalloc_user u w)) (other p)
          = in_turn w (other p)) as Hq1.
  { rewrite in_turn_set_user_ne by (by destruct p).
    apply in_turn_kzalloc_user. by apply wf_slot_fresh. }
  unfold view, fence_signaled; simpl.
  destruct p; simpl in *; by rewrite ?Hp0, ?Hp1, ?Hq1.
Qed.

Lemma open_effect w kz r w' :
  wf w -> fresh kz w = true -> dmapp_cdev_open kz w = (r, w') ->
  wf w' /\ view w' = view w.
Proof.
  intros Hwf Hf Ho. destruct kz as [u|]; [|by simplify_eq/=].
  simpl in Hf. apply bool_decide_eq_true in Hf.
  destruct (nth2 (user (dev w)) P0) as [a|] eqn:H0.
  - destruct (nth2 (user (dev w)) P1) as [b|] eqn:H1.
    + rewrite open_full in Ho by (done || congruence). by simplify_eq.
    + rewrite open_slot1 in Ho by (done || congruence). simplify_eq.
      split; [by apply wf_register|by apply register_view].
  - rewrite open_slot0 in Ho by done. simplify_eq.
    split; [by apply wf_register|by apply register_view].
Qed.

(** ** One token, handed round *)

Lemma view_turn_in_turn w ts p :
  view w = turn_view ts -> in_turn w p = true -> ts = Holding p.
Proof.
  unfold view. intros Hv Hp.
  destruct ts as [[]|[]], p; simpl in *; simplify_eq; congruence.
Qed.

Lemma view_turn_fence w ts p :
  view w = turn_view ts -> fence_signaled w p = true -> ts = FenceReady p.
Proof.
  unfold view. intros Hv Hp.
  destruct ts as [[]|[]], p; simpl in *; simplify_eq; congruence.
Qed.

Lemma view_holding w p :
  view w = turn_view (Holding p) ->
  in_turn w p = true /\ in_turn w (other p) = false /\
  fence_signaled w p = false /\ fence_signaled w (other p) = false.
Proof. unfold view. destruct p; simpl; intros; by simplify_eq. Qed.

Lemma view_fence_ready w p :
  view w = turn_view (FenceReady p) ->
  in_turn w p = false /\ in_turn w (other p) = false /\
  fence_signaled w p = true /\ fence_signaled w (other p) = false.
Proof. unfold view. destruct p; simpl; intros; by simplify_eq. Qed.

Lemma view_intro w p (b1 b2 b3 b4 : bool) :
  fence_signaled w p = b1 -> fence_signaled w (other p) = b2 ->
  in_turn w p = b3 -> in_turn w (other p) = b4 ->
  view w = match p with
           | P0 => (b1, b2, b3, b4)
           | P1 => (b2, b1, b4, b3)
           end.
Proof. unfold view. destruct p; simpl; by intros -> -> -> ->. Qed.

Lemma view_is_intro w ts p b1 b2 b3 b4 :
  fence_signaled w p = b1 -> fence_signaled w (other p) = b2 ->
  in_turn w p = b3 -> in_turn w (other p) = b4 ->
  match p with
  | P0 => (b1, b2, b3, b4)
  | P1 => (b2, b1, b4, b3)
  end = turn_view ts ->
  view w = turn_view ts.
Proof. intros. by rewrite (view_intro w p b1 b2 b3 b4). Qed.

Lemma ioctl_step w u cmd env o w' ts :
  wf w -> view w = turn_view ts ->
  dmapp_cdev_ioctl u cmd env w = Some (o, w') ->
  wf w' /\ exists ts',
    view w' = turn_view ts' /\ turn_step ts (acquires (Ioctl u cmd env) w) ts'.
Proof.
  intros Hwf Hview Hcall.
  pose proof (ioctl_allocated _ _ _ _ _ _ Hcall) as Hu.
  destruct (wf_validate _ _ Hwf Hu) as [p Hv].
  pose proof (proj1 (validate_user_slot _ _ _ Hwf) Hv) as Hp.
  pose proof (in_turn_slot _ _ _ Hp) as Hturn.
  destruct (decide (cmd = DMAPP_IOCTL_BUFFER_LOCK)) as [->|Hnl].
  - (* lock *)
    destruct (locked_at w u) eqn:Hl.
    + rewrite (ioctl_lock_held _ _ _ _ Hv Hl) in Hcall. simplify_eq.
      split; [done|]. exists ts. split; [done|].
      unfold acquires. by rewrite Hl.
    + unfold acquires. rewrite Hl. simpl.
      rewrite (ioctl_lock_free _ _ _ _ Hv Hu Hl) in Hcall |- *.
      unfold lock_wait, dma_fence_wait, wait_fence_of in *.
      fold (fence_signaled w p) in *.
      destruct (fence_signaled w p) eqn:Hs; simpl in *.
      * simplify_eq. rewrite Hv.
        pose proof (view_turn_fence _ _ _ Hview Hs) as ->.
        destruct (view_fence_ready _ _ Hview) as (_ & Hq & _ & Hf).
        destruct (lock_commit_effect _ _ _ Hwf Hp)
          as (Hwf' & H1 & H2 & H3 & H4).
        split; [done|]. exists (Holding p). split; [|done].
        eapply (view_is_intro _ _ p); eauto.
        rewrite Hf, Hq. by destruct p.
      * destruct (signal_pending env); simplify_eq/=;
          (split; [done|]); by exists ts.
  - destruct (decide (cmd = DMAPP_IOCTL_BUFFER_UNLOCK)) as [->|Hnu].
    + (* unlock *)
      replace (acquires _ w) with (@None parity) by done.
      destruct (locked_at w u) eqn:Hl.
      * rewrite (ioctl_unlock_held _ _ _ _ Hv Hl) in Hcall. simplify_eq.
        pose proof (view_turn_in_turn _ _ _ Hview Hturn) as ->.
        destruct (view_holding _ _ Hview) as (_ & Hq & Hf & _).
        destruct (unlock_effect _ _ _ Hwf Hp) as (Hwf' & H1 & H2 & H3 & H4).
        split; [done|]. exists (FenceReady (other p)). split; [|done].
        eapply (view_is_intro _ _ p); eauto.
        rewrite Hf, Hq. by destruct p.
      * rewrite (ioctl_unlock_free _ _ _ _ Hv Hu Hl) in Hcall. simplify_eq.
        split; [done|]. by exists ts.
    + (* the other commands *)
      destruct (ioctl_other _ _ _ _ _ _ Hnl Hnu Hcall) as [-> _].
      split; [done|]. exists ts. split; [done|].
      unfold acquires. apply Z.eqb_neq in Hnl. by rewrite Hnl.
Qed.

Lemma release_step w u r w' ts :
  wf w -> view w = turn_view ts ->
  dmapp_cdev_release u w = Some (r, w') ->
  r = 0 /\ wf w' /\ exists ts',
    view w' = turn_view ts' /\ next_acquirer ts' = next_acquirer ts.
Proof.
  intros Hwf Hview Hcall.
  assert (is_Some (mem w !! u)) as [usr Hu].
  { unfold dmapp_cdev_release, release_disconnect in Hcall.
    destruct (mem w !! u); [by eexists|done]. }
  destruct (wf_registered _ Hwf u) as [p Hp]; [by eexists|].
  rewrite (release_slot _ _ _ _ Hwf Hp Hu) in Hcall.
  destruct (release_effect _ _ _ _ Hwf Hp Hu)
    as (Hr & Hwf' & _ & _ & H1 & H2 & H3 & H4).
  destruct (release_signal _ _) as [r0 w0]. simplify_eq/=.
  split; [done|]. split; [done|].
  pose proof (in_turn_slot _ _ _ Hp) as Hturn.
  unfold locked_at in Hturn. rewrite Hu in Hturn.
  destruct (is_locked usr).
  - pose proof (view_turn_in_turn _ _ _ Hview Hturn) as ->.
    destruct (view_holding _ _ Hview) as (_ & Hq & Hf & Hg).
    exists (FenceReady (other p)). split; [|done].
    eapply (view_is_intro _ _ p); eauto.
    rewrite Hf, Hg, Hq. by destruct p.
  - exists ts. split; [|done]. rewrite <- Hview.
    rewrite orb_false_r in H2.
    unfold view. destruct p; simpl in *; congruence.
Qed.

Lemma call_step w c o w' ts :
  wf w -> view w = turn_view ts -> do_call c w = Some (o, w') ->
  wf w' /\ exists ts',
    view w' = turn_view ts' /\ turn_step ts (acquires c w) ts'.
Proof.
  intros Hwf Hview Hcall. destruct c as [kz|u|u cmd env]; simpl in Hcall.
  - destruct (fresh kz w) eqn:Hf; [|done].
    destruct (dmapp_cdev_open kz w) as [r w1] eqn:Ho. simplify_eq.
    destruct (open_effect _ _ _ _ Hwf Hf Ho) as [Hwf' Hv'].
    split; [done|]. exists ts. split; [congruence|done].
  - destruct (dmapp_cdev_release u w) as [[r w1]|] eqn:Hr; [|done].
    simplify_eq/=.
    destruct (release_step _ _ _ _ _ Hwf Hview Hr) as (_ & Hwf' & ts' & ? & ?).
    split; [done|]. by exists ts'.
  - by eapply ioctl_step.
Qed.

Lemma attached_view w : attached w -> view w = turn_view (FenceReady P1).
Proof.
  intros (env & d & Hp & ->). by apply probe_success in Hp as ->.
Qed.

(** Every world reached by whole calls has a well-formed registry and
    exactly one place where the token is. *)
Lemma reachable_turn w :
  reachable w -> wf w /\ exists ts, view w = turn_view ts.
Proof.
  induction 1 as [w Ha|w c o w' Hr [Hwf [ts Hv]] Hc].
  - split; [by apply wf_attached|].
    exists (FenceReady P1). by apply attached_view.
  - destruct (call_step _ _ _ _ _ Hwf Hv Hc) as (Hwf' & ts' & Hv' & _).
    split; [done|]. by exists ts'.
Qed.

Lemma run_alternating cs : forall w ts log w',
  wf w -> view w = turn_view ts -> run cs w = Some (log, w') ->
  alternating (next_acquirer ts) log = true.
Proof.
  induction cs as [|c cs IH]; intros w ts log w' Hwf Hv Hrun; simpl in Hrun.
  - by simplify_eq.
  - destruct (do_call c w) as [[o w1]|] eqn:Hc; [|done]. simpl in Hrun.
    destruct (run cs w1) as [[log1 w2]|] eqn:Hr; [|done]. simplify_eq/=.
    destruct (call_step _ _ _ _ _ Hwf Hv Hc) as (Hwf' & ts' & Hv' & Hstep).
    specialize (IH _ _ _ _ Hwf' Hv' Hr).
    destruct (acquires c w) as [p|]; simpl in *.
    + destruct Hstep as [-> ->]. simpl in *.
      by rewrite bool_decide_eq_true_2.
    + by rewrite <- Hstep.
Qed.

(** ** Whole calls are schedules without interruption *)

(** A control call that returns is the schedule in which its thread
    enters the call and then runs each of its sections in turn, nothing
    else being scheduled in between. *)
Lemma ioctl_uninterrupted cf t u cmd env ret w' :
  idle t cf = true ->
  dmapp_cdev_ioctl u cmd env (cworld cf) = Some (Returned ret, w') ->
  exists n,
    exec (Start t (Ioctl u cmd env) :: replicate n (Step t env)) cf =
    Some {| cworld := w'; threads := <[t := PcReturn ret]> (threads cf) |}.
Proof.
  intros Hidle Hcall. unfold dmapp_cdev_ioctl in Hcall.
  destruct (ioctl_entry u cmd env (cworld cf)) as [[r|p|p]|] eqn:He;
    simpl in Hcall; [| | |done].
  - simplify_eq. exists 0%nat. simpl. by rewrite Hidle, He.
  - destruct (lock_wait p env (cworld cf)) as [r|] eqn:Hw; [|done].
    destruct (r <? 0) eqn:Hr; simplify_eq.
    + exists 1%nat. simpl. rewrite Hidle, He. simpl.
      rewrite lookup_insert_eq. simpl. rewrite Hw. simpl. rewrite Hr.
      do 2 f_equal. apply insert_insert_eq.
    + exists 2%nat. simpl. rewrite Hidle, He. simpl.
      rewrite lookup_insert_eq. simpl. rewrite Hw. simpl. rewrite Hr.
      rewrite lookup_insert_eq. simpl.
      do 2 f_equal. by rewrite !insert_insert_eq.
  - destruct (unlock_signal p (cworld cf)) as [r w1] eqn:Hs. simplify_eq.
    exists 2%nat. simpl. rewrite Hidle, He. simpl.
    rewrite lookup_insert_eq. simpl. rewrite Hs. simpl.
    rewrite lookup_insert_eq. simpl.
    do 2 f_equal. by rewrite !insert_insert_eq.
Qed.

(** The same for a close. *)
Lemma release_uninterrupted cf t u env ret w' :
  idle t cf = true -> quiet u cf = true ->
  dmapp_cdev_release u (cworld cf) = Some (ret, w') ->
  exists n,
    exec (Start t (Close u) :: replicate n (Step t env)) cf =
    Some {| cworld := w'; threads := <[t := PcReturn ret]> (threads cf) |}.
Proof.
  intros Hidle Hquiet Hcall. unfold dmapp_cdev_release in Hcall.
  destruct (release_disconnect u (cworld cf)) as [[sf w1]|] eqn:Hd;
    simpl in Hcall; [|done].
  unfold release_signal in Hcall.
  destruct (release_test sf w1) as [k|] eqn:Ht.
  - destruct (release_do_signal k w1) as [r w2] eqn:Hs. simplify_eq.
    exists 2%nat. simpl. rewrite Hidle, Hquiet, Hd. simpl.
    rewrite lookup_insert_eq. simpl. rewrite Ht. simpl.
    rewrite lookup_insert_eq. simpl. rewrite Hs. simpl.
    do 2 f_equal. by rewrite !insert_insert_eq.
  - simplify_eq.
    exists 1%nat. simpl. rewrite Hidle, Hquiet, Hd. simpl.
    rewrite lookup_insert_eq. simpl. rewrite Ht. simpl.
    do 2 f_equal. by rewrite !insert_insert_eq.
Qed.

(** An open is a single scheduling decision. *)
Lemma open_uninterrupted cf t kz :
  idle t cf = true -> fresh kz (cworld cf) = true ->
  exec [Start t (Open kz)] cf =
  Some {| cworld := (dmapp_cdev_open kz (cworld cf)).2;
          threads := <[t := PcReturn (dmapp_cdev_open kz (cworld cf)).1]>
                       (threads cf) |}.
Proof.
  intros Hidle Hfresh. simpl. rewrite Hidle, Hfresh.
  by destruct (dmapp_cdev_open kz (cworld cf)).
Qed.

(** ** Which fence a participant waits on and which it signals *)

Lemma lock_wait_signaled w p env :
  fence_signaled w p = true -> lock_wait p env w = Some 0.
Proof.
  unfold lock_wait, dma_fence_wait, wait_fence_of, fence_signaled.
  by intros ->.
Qed.

Lemma lock_wait_pending w p env :
  fence_signaled w p = false ->
  lock_wait p env w =
  if signal_pending env then Some (- ERESTARTSYS) else None.
Proof.
  unfold lock_wait, dma_fence_wait, wait_fence_of, fence_signaled.
  by intros ->.
Qed.

Lemma locked_at_lock_commit w u p :
  is_Some (mem w !! u) -> locked_at (lock_commit u p w) u = true.
Proof. intros Hu. unfold lock_commit. by apply locked_at_set_is_locked_eq. Qed.

Lemma fence_signaled_unlock w u p :
  fence_signaled (unlock_clear u (unlock_signal p w).2) (other p) = true.
Proof.
  unfold unlock_clear, unlock_signal, signal_fence_of.
  pose proof (dma_fence_signal_signaled (nth2 (fence (dev w)) (other p))) as Hs.
  destruct (dma_fence_signal _) as [ret f]; simpl in *.
  unfold fence_signaled; simpl. by rewrite nth2_upd2_eq.
Qed.





(** C3, as the claim has it, fails on two participants right after the
    attach: [fence[1]] is signaled, which by the claim would let parity 0
    begin, yet the lock call of the parity-0 participant sleeps; and after
    parity 1 has locked and unlocked, [fence[1]] is pending and it is
    [fence[0]] that is signaled. *)
Lemma crossed_fences_refuted :
  validate_user ua w_two = Some P0 /\
  fence_signaled w_two (other P0) = true /\
  dmapp_cdev_ioctl ua DMAPP_IOCTL_BUFFER_LOCK awake w_two
    = Some (Blocked, w_two) /\
  validate_user ub w_two = Some P1 /\
  exists w1 w2,
    do_call (lock ub) w_two = Some (Returned 0, w1) /\
    do_call (unlock ub) w1 = Some (Returned 0, w2) /\
    fence_signaled w2 P1 = false /\
    fence_signaled w2 P0 = true.
Proof.
  split; [reflexivity|]. split; [reflexivity|]. split; [reflexivity|].
  split; [reflexivity|]. eexists _, _.
  split; [reflexivity|]. split; [reflexivity|]. split; reflexivity.
Qed.

(** C3 (amended): a registered participant of parity [p] that is not in
    its turn begins its turn by a lock call exactly when [fence[p]] is
    signaled, and an unlock call of a participant of parity [p] in its
    turn leaves [fence[1-p]] signaled. *)
Theorem turn_begins_iff_own_fence_signaled w u p env :
  validate_user u w = Some p -> is_Some (mem w !! u) ->
  (locked_at w u = false ->
   ((exists w',
       dmapp_cdev_ioctl u DMAPP_IOCTL_BUFFER_LOCK env w
         = Some (Returned 0, w') /\
       locked_at w' u = true)
    <-> fence_signaled w p = true)) /\
  (locked_at w u = true ->
   exists ret w',
     dmapp_cdev_ioctl u DMAPP_IOCTL_BUFFER_UNLOCK env w
       = Some (Returned ret, w') /\
     fence_signaled w' (other p) = true).
Proof.
  intros Hv Hu. split.
  - intros Hl. rewrite (ioctl_lock_free _ _ _ _ Hv Hu Hl). split.
    + intros (w' & Hcall & Hl').
      destruct (fence_signaled w p) eqn:Hs; [done|].
      rewrite (lock_wait_pending _ _ _ Hs) in Hcall.
      destruct (signal_pending env); simplify_eq/=.
    + intros Hs. rewrite (lock_wait_signaled _ _ _ Hs). simpl.
      eexists. split; [done|]. by apply locked_at_lock_commit.
  - intros Hl. rewrite (ioctl_unlock_held _ _ _ _ Hv Hl).
    eexists _, _. split; [done|]. apply fence_signaled_unlock.
Qed.

Lemma turn_begins_iff_own_fence_signaled_witness :
  validate_user ua w_two = Some P0 /\
  is_Some (mem w_two !! ua) /\
  locked_at w_two ua = false /\
  ~ (exists w',
       dmapp_cdev_ioctl ua DMAPP_IOCTL_BUFFER_LOCK awake w_two
         = Some (Returned 0, w') /\
       locked_at w' ua = true).
Proof.
  assert (validate_user ua w_two = Some P0) as Hv by reflexivity.
  assert (is_Some (mem w_two !! ua)) as Hu by (eexists; reflexivity).
  split; [exact Hv|]. split; [exact Hu|]. split; [reflexivity|].
  destruct (turn_begins_iff_own_fence_signaled w_two ua P0 awake Hv Hu)
    as (Hlock & _).
  intros Hex. apply (proj1 (Hlock eq_refl)) in Hex. discriminate Hex.
Defined.

(** C7: when the interruptible wait of a lock call is interrupted (the
    caller is registered and not in its turn, its fence is pending, and a
    process signal is pending), the call returns [-ERESTARTSYS], an error
    different from success and from the other errors of the driver, and
    the state is exactly what it was: the flag stays clear, the fence is
    not re-armed, and the call can be tried again as if it had not been
    made.  The thread leaves the wait with that error without touching
    the state. *)
Theorem interrupted_lock_leaves_state w u p env :
  validate_user u w = Some p -> is_Some (mem w !! u) ->
  locked_at w u = false -> fence_signaled w p = false ->
  signal_pending env = true ->
  dmapp_cdev_ioctl u DMAPP_IOCTL_BUFFER_LOCK env w
    = Some (Returned (- ERESTARTSYS), w) /\
  step_pc env w (PcLockWait u p) = Some (w, PcReturn (- ERESTARTSYS)) /\
  - ERESTARTSYS < 0 /\
  - ERESTARTSYS <> - EINVAL /\ - ERESTARTSYS <> - ENOTTY /\
  - ERESTARTSYS <> - ENOMEM.
Proof.
  intros Hv Hu Hl Hs Hi. split_and!; try done.
  - rewrite (ioctl_lock_free _ _ _ _ Hv Hu Hl).
    by rewrite (lock_wait_pending _ _ _ Hs), Hi.
  - simpl. by rewrite (lock_wait_pending _ _ _ Hs), Hi.
Qed.

Lemma interrupted_lock_leaves_state_witness :
  validate_user ua w_two = Some P0 /\
  is_Some (mem w_two !! ua) /\
  locked_at w_two ua = false /\
  fence_signaled w_two P0 = false /\
  signal_pending interrupted = true /\
  dmapp_cdev_ioctl ua DMAPP_IOCTL_BUFFER_LOCK interrupted w_two
    = Some (Returned (- ERESTARTSYS), w_two).
Proof.
  assert (validate_user ua w_two = Some P0) as Hv by reflexivity.
  assert (is_Some (mem w_two !! ua)) as Hu by (eexists; reflexivity).
  split; [exact Hv|]. split; [exact Hu|].
  split; [reflexivity|]. split; [reflexivity|]. split; [reflexivity|].
  exact (proj1 (interrupted_lock_leaves_state w_two ua P0 interrupted
                  Hv Hu eq_refl eq_refl eq_refl)).
Defined.

(** ** Taking and handing over the turn *)

Lemma lock_acquires w u p env :
  wf w -> nth2 (user (dev w)) p = Some u ->
  view w = turn_view (FenceReady p) ->
  dmapp_cdev_ioctl u DMAPP_IOCTL_BUFFER_LOCK env w
    = Some (Returned 0, lock_commit u p w) /\
  wf (lock_commit u p w) /\
  view (lock_commit u p w) = turn_view (Holding p).
Proof.
  intros Hwf Hp Hview.
  destruct (view_fence_ready _ _ Hview) as (Ht & Hq & Hs & Hf).
  destruct (lock_commit_effect _ _ _ Hwf Hp) as (Hwf' & H1 & H2 & H3 & H4).
  split_and!; [|done|].
  - rewrite (ioctl_lock_free w u p).
    + by rewrite (lock_wait_signaled _ _ _ Hs).
    + by apply validate_user_slot.
    + by apply (wf_alloc _ Hwf p).
    + by rewrite <- (in_turn_slot _ _ _ Hp).
  - eapply (view_is_intro _ _ p); eauto. rewrite Hf, Hq. by destruct p.
Qed.

Lemma lock_blocks w u p env :
  wf w -> nth2 (user (dev w)) p = Some u ->
  fence_signaled w p = false -> in_turn w p = false ->
  signal_pending env = false ->
  dmapp_cdev_ioctl u DMAPP_IOCTL_BUFFER_LOCK env w = Some (Blocked, w).
Proof.
  intros Hwf Hp Hs Ht Hi. rewrite (ioctl_lock_free w u p).
  - by rewrite (lock_wait_pending _ _ _ Hs), Hi.
  - by apply validate_user_slot.
  - by apply (wf_alloc _ Hwf p).
  - by rewrite <- (in_turn_slot _ _ _ Hp).
Qed.

Lemma unlock_releases w u p env :
  wf w -> nth2 (user (dev w)) p = Some u ->
  view w = turn_view (Holding p) ->
  dmapp_cdev_ioctl u DMAPP_IOCTL_BUFFER_UNLOCK env w
    = Some (Returned 0, unlock_clear u (unlock_signal p w).2) /\
  wf (unlock_clear u (unlock_signal p w).2) /\
  view (unlock_clear u (unlock_signal p w).2)
    = turn_view (FenceReady (other p)).
Proof.
  intros Hwf Hp Hview.
  destruct (view_holding _ _ Hview) as (Ht & Hq & Hs & Hf).
  destruct (unlock_effect _ _ _ Hwf Hp) as (Hwf' & H1 & H2 & H3 & H4).
  split_and!; [|done|].
  - rewrite (ioctl_unlock_held w u p).
    + by rewrite unlock_signal_ret, Hf.
    + by apply validate_user_slot.
    + by rewrite <- (in_turn_slot _ _ _ Hp).
  - eapply (view_is_intro _ _ p); eauto. rewrite Hs, Hq. by destruct p.
Qed.

(** Two opens on a freshly attached device. *)
Lemma two_opens w a b :
  attached w -> a <> b ->
  let w1 := set_user P0 (Some a) (kzalloc_user a w) in
  let w2 := set_user P1 (Some b) (kzalloc_user b w1) in
  dmapp_cdev_open (Some a) w = (0, w1) /\
  dmapp_cdev_open (Some b) w1 = (0, w2) /\
  wf w2 /\ view w2 = turn_view (FenceReady P1) /\
  nth2 (user (dev w2)) P0 = Some a /\ nth2 (user (dev w2)) P1 = Some b.
Proof.
  intros Ha Hab w1 w2.
  pose proof (wf_attached _ Ha) as Hwf.
  pose proof (attached_view _ Ha) as Hview.
  destruct Ha as (env & d & Hp & ->). apply probe_success in Hp as ->.
  assert (wf w1) as Hwf1 by (by apply wf_register).
  assert (mem w1 !! b = None) as Hb.
  { subst w1; simpl. by rewrite lookup_insert_ne. }
  split; [by apply open_slot0|]. split; [by apply open_slot1|].
  split; [by apply wf_register|].
  split; [|done].
  subst w2. rewrite register_view by done.
  subst w1. by rewrite register_view.
Qed.

(** C5, as the claim has it, fails: with a participant of each parity on
    a freshly attached device, the first lock call of the parity-0
    participant sleeps, and the one of the parity-1 participant returns 0
    at once. *)
Lemma even_pass_first_refuted :
  attached w_attach /\
  dmapp_cdev_ioctl ua DMAPP_IOCTL_GET_BUFFER_PARITY awake w_two
    = Some (Returned 0, w_two) /\
  dmapp_cdev_ioctl ua DMAPP_IOCTL_BUFFER_LOCK awake w_two
    = Some (Blocked, w_two) /\
  dmapp_cdev_ioctl ub DMAPP_IOCTL_GET_BUFFER_PARITY awake w_two
    = Some (Returned 1, w_two) /\
  dmapp_cdev_ioctl ub DMAPP_IOCTL_BUFFER_LOCK awake w_two
    = Some (Returned 0, lock_commit ub P1 w_two).
Proof.
  split; [apply attached_w_attach|].
  split; [reflexivity|]. split; [reflexivity|]. split; reflexivity.
Qed.

(** C5 (amended): right after the attach [fence[1]] is signaled and
    [fence[0]] is pending; consequently the first lock call of the
    parity-1 participant returns 0 at once, while the lock call of the
    parity-0 participant sleeps, before and during the turn of parity 1,
    until parity 1 unlocks, after which it returns 0 with the turn
    taken. *)
Theorem odd_pass_goes_first w a b env :
  attached w -> a <> b -> signal_pending env = false ->
  fence_signaled w P1 = true /\ fence_signaled w P0 = false /\
  exists w1 w2 w3 w4 w5,
    dmapp_cdev_open (Some a) w = (0, w1) /\
    dmapp_cdev_open (Some b) w1 = (0, w2) /\
    validate_user a w2 = Some P0 /\ validate_user b w2 = Some P1 /\
    dmapp_cdev_ioctl a DMAPP_IOCTL_BUFFER_LOCK env w2 = Some (Blocked, w2) /\
    dmapp_cdev_ioctl b DMAPP_IOCTL_BUFFER_LOCK env w2
      = Some (Returned 0, w3) /\
    in_turn w3 P1 = true /\
    dmapp_cdev_ioctl a DMAPP_IOCTL_BUFFER_LOCK env w3 = Some (Blocked, w3) /\
    dmapp_cdev_ioctl b DMAPP_IOCTL_BUFFER_UNLOCK env w3
      = Some (Returned 0, w4) /\
    dmapp_cdev_ioctl a DMAPP_IOCTL_BUFFER_LOCK env w4
      = Some (Returned 0, w5) /\
    in_turn w5 P0 = true.
Proof.
  intros Ha Hab Hi.
  destruct (view_fence_ready _ _ (attached_view _ Ha)) as (_ & _ & Hs1 & Hs0).
  split; [done|]. split; [done|].
  destruct (two_opens w a b Ha Hab) as (Ho1 & Ho2 & Hwf2 & Hv2 & Hsa & Hsb).
  set (w2 := set_user P1 (Some b) _) in *.
  destruct (view_fence_ready _ _ Hv2) as (Ht1 & Ht0 & _ & Hf0).
  destruct (lock_acquires w2 b P1 env Hwf2 Hsb Hv2) as (Hl3 & Hwf3 & Hv3).
  set (w3 := lock_commit b P1 w2) in *.
  destruct (view_holding _ _ Hv3) as (Ht3 & Hq3 & _ & Hf3).
  assert (nth2 (user (dev w3)) P0 = Some a) as Hsa3 by done.
  assert (nth2 (user (dev w3)) P1 = Some b) as Hsb3 by done.
  destruct (unlock_releases w3 b P1 env Hwf3 Hsb3 Hv3) as (Hl4 & Hwf4 & Hv4).
  set (w4 := unlock_clear b _) in *.
  assert (nth2 (user (dev w4)) P0 = Some a) as Hsa4.
  { subst w4. unfold unlock_clear, unlock_signal.
    by destruct (dma_fence_signal _). }
  destruct (lock_acquires w4 a P0 env Hwf4 Hsa4 Hv4) as (Hl5 & Hwf5 & Hv5).
  destruct (view_holding _ _ Hv5) as (Ht5 & _).
  eexists _, w2, w3, w4, _.
  split_and!; try done.
  - by apply validate_user_slot.
  - by apply validate_user_slot.
  - by apply (lock_blocks w2 a P0).
  - by apply (lock_blocks w3 a P0).
Qed.

Lemma odd_pass_goes_first_witness :
  attached w_attach /\ ua <> ub /\ signal_pending awake = false /\
  fence_signaled w_attach P1 = true /\ fence_signaled w_attach P0 = false.
Proof.
  assert (ua <> ub) as Hab by discriminate.
  split; [exact attached_w_attach|]. split; [exact Hab|].
  split; [reflexivity|].
  destruct (odd_pass_goes_first w_attach ua ub awake
              attached_w_attach Hab eq_refl) as (H1 & H0 & _).
  exact (conj H1 H0).
Defined.

Lemma release_abandons w u p :
  wf w -> nth2 (user (dev w)) p = Some u ->
  view w = turn_view (Holding p) ->
  exists w',
    dmapp_cdev_release u w = Some (0, w') /\ wf w' /\
    view w' = turn_view (FenceReady (other p)).
Proof.
  intros Hwf Hp Hview.
  destruct (view_holding _ _ Hview) as (Ht & Hq & Hs & Hf).
  destruct (wf_alloc _ Hwf _ _ Hp) as [usr Hu].
  rewrite (release_slot _ _ _ _ Hwf Hp Hu).
  destruct (release_effect _ _ _ _ Hwf Hp Hu)
    as (Hr & Hwf' & _ & _ & H1 & H2 & H3 & H4).
  rewrite (in_turn_slot _ _ _ Hp) in Ht. unfold locked_at in Ht.
  rewrite Hu in Ht. rewrite Ht in *.
  destruct (release_signal _ _) as [r w'].
  simpl in Hr, Hwf', H1, H2, H3, H4. subst r.
  rewrite orb_true_r in H2.
  exists w'. split_and!; try done.
  eapply (view_is_intro _ _ p); eauto.
  rewrite Hs, Hq. by destruct p.
Qed.

Lemma acquires_moves w c o w' ts p :
  wf w -> view w = turn_view ts -> do_call c w = Some (o, w') ->
  acquires c w = Some p ->
  view w = turn_view (FenceReady p) /\ view w' = turn_view (Holding p).
Proof.
  intros Hwf Hview Hcall Hacq.
  destruct (call_step _ _ _ _ _ Hwf Hview Hcall) as (_ & ts' & Hv' & Hstep).
  rewrite Hacq in Hstep. destruct Hstep as [-> ->]. done.
Qed.

Lemma tokens_turn w ts : view w = turn_view ts -> tokens w = 1%nat.
Proof.
  unfold view, tokens. intros Hv.
  destruct ts as [[]|[]]; simpl in Hv; simplify_eq; by rewrite H, H0, H1, H2.
Qed.

(** ** Order of the acquisitions *)

(** C1, as the claim has it, fails: on a freshly attached device with a
    participant of each parity, the lock call of parity 0 sleeps and the
    first acquisition is the one of parity 1.  And when two threads share
    the file of one participant, both can pass the wait before either
    re-arms the fence, and two acquisitions of the same parity follow
    each other. *)
Lemma first_acquire_parity0_refuted :
  attached w_attach /\
  do_call (lock ua) w_two = Some (Blocked, w_two) /\
  run [Open (Some ua); Open (Some ub); lock ua; lock ub] w_attach
    = Some ([P1], lock_commit ub P1 w_two) /\
  alternating P0 [P1] = false /\
  exec_polite sched_shared_lock cf_attach = None /\
  exists cf1 cf2 cf3,
    exec sched_shared_lock cf_attach = Some cf1 /\
    commits (Step tb awake) cf1 = Some P1 /\
    sched_step (Step tb awake) cf1 = Some cf2 /\
    commits (Step tc awake) cf2 = Some P1 /\
    sched_step (Step tc awake) cf2 = Some cf3.
Proof.
  split; [apply attached_w_attach|].
  split; [reflexivity|]. split; [reflexivity|]. split; [reflexivity|].
  split; [reflexivity|]. eexists _, _, _.
  split; [reflexivity|]. split; [reflexivity|]. split; [reflexivity|].
  split; reflexivity.
Qed.

(** Calls run one at a time: the parities of the acquisitions (lock calls
    that return 0 to a participant that was not in its turn) alternate,
    beginning with parity 1. *)
Lemma run_acquisitions_alternate w cs log w' :
  attached w -> run cs w = Some (log, w') ->
  alternating P1 log = true.
Proof.
  intros Ha Hrun.
  exact (run_alternating cs w (FenceReady P1) log w'
           (wf_attached _ Ha) (attached_view _ Ha) Hrun).
Qed.

(** ** Mutual exclusion of the turns *)

(** C2, as the claim has it, fails once calls interleave: unlock signals
    the other fence before it clears the flag, so the sleeping lock call
    of the other parity can complete in between, and both flags are
    true.  And when two threads share the file of one participant, the
    lock call of the second can complete after the turn has gone to the
    other parity: both flags are true with no call in progress. *)
Lemma both_flags_true_during_unlock :
  attached w_attach /\
  exec_polite sched_overlap cf_attach = Some ([P1; P0], cf_overlap) /\
  threads cf_overlap !! tb = Some (PcUnlockClear ub 0) /\
  in_turn (cworld cf_overlap) P0 = true /\
  in_turn (cworld cf_overlap) P1 = true /\
  exists cf,
    exec sched_shared_overlap cf_attach = Some cf /\
    threads cf !! ta = Some (PcReturn 0) /\
    threads cf !! tb = Some (PcReturn 0) /\
    threads cf !! tc = Some (PcReturn 0) /\
    in_turn (cworld cf) P0 = true /\ in_turn (cworld cf) P1 = true.
Proof.
  split; [apply attached_w_attach|].
  split; [reflexivity|]. split; [reflexivity|]. split; [reflexivity|].
  split; [reflexivity|]. eexists.
  split; [reflexivity|]. split; [reflexivity|]. split; [reflexivity|].
  split; [reflexivity|]. split; reflexivity.
Qed.

(** Calls run one at a time: the flags of the two participants are never
    both true, and an acquisition by one parity finds the flag of the
    other parity clear and leaves it clear. *)
Lemma reachable_flags_exclusive w :
  reachable w ->
  ~ (in_turn w P0 = true /\ in_turn w P1 = true) /\
  forall c o w' p,
    do_call c w = Some (o, w') -> acquires c w = Some p ->
    in_turn w (other p) = false /\
    in_turn w' p = true /\ in_turn w' (other p) = false.
Proof.
  intros Hr. destruct (reachable_turn _ Hr) as (Hwf & ts & Hview). split.
  - intros [H0 H1].
    pose proof (view_turn_in_turn _ _ _ Hview H0).
    pose proof (view_turn_in_turn _ _ _ Hview H1). congruence.
  - intros c o w' p Hcall Hacq.
    destruct (acquires_moves _ _ _ _ _ _ Hwf Hview Hcall Hacq) as [Hv Hv'].
    destruct (view_fence_ready _ _ Hv) as (_ & Hq & _).
    destruct (view_holding _ _ Hv') as (Ht' & Hq' & _).
    done.
Qed.

(** ** Conservation of the token *)

(** C10, as the claim has it, fails once calls interleave: between the
    signal of an unlock and the clearing of its flag there are two tokens,
    the signaled fence and the flag that is still set.  And when two
    threads share the file of one participant, two flags can be set with
    no call in progress. *)
Lemma two_tokens_during_unlock :
  attached w_attach /\
  (exists cf,
     exec_polite sched_handoff cf_attach = Some ([P1], cf) /\
     threads cf !! tb = Some (PcUnlockClear ub 0) /\
     fence_signaled (cworld cf) P0 = true /\
     in_turn (cworld cf) P1 = true /\
     tokens (cworld cf) = 2%nat) /\
  (exists cf,
     exec sched_shared_overlap cf_attach = Some cf /\
     threads cf !! ta = Some (PcReturn 0) /\
     threads cf !! tb = Some (PcReturn 0) /\
     threads cf !! tc = Some (PcReturn 0) /\
     tokens (cworld cf) = 2%nat).
Proof.
  split; [apply attached_w_attach|]. split.
  - eexists. split; [reflexivity|]. split; [reflexivity|].
    split; [reflexivity|]. split; reflexivity.
  - eexists. split; [reflexivity|]. split; [reflexivity|].
    split; [reflexivity|]. split; reflexivity.
Qed.

(** Calls run one at a time: the signaled fences and the registered
    participants with a set flag number one in all.  An acquisition by
    parity [p] moves the token from [fence[p]], which it re-arms, to the
    flag of the caller; an unlock and a close by the participant in its
    turn move it from the flag to [fence[1-p]]. *)
Lemma reachable_one_token w :
  reachable w ->
  tokens w = 1%nat /\
  (forall c o w' p,
     do_call c w = Some (o, w') -> acquires c w = Some p ->
     view w = turn_view (FenceReady p) /\
     view w' = turn_view (Holding p) /\ tokens w' = 1%nat) /\
  (forall u p,
     nth2 (user (dev w)) p = Some u -> in_turn w p = true ->
     (forall env, exists w',
        do_call (Ioctl u DMAPP_IOCTL_BUFFER_UNLOCK env) w
          = Some (Returned 0, w') /\
        view w' = turn_view (FenceReady (other p)) /\ tokens w' = 1%nat) /\
     (exists w',
        do_call (Close u) w = Some (Returned 0, w') /\
        view w' = turn_view (FenceReady (other p)) /\ tokens w' = 1%nat)).
Proof.
  intros Hr. destruct (reachable_turn _ Hr) as (Hwf & ts & Hview).
  split; [by apply (tokens_turn _ ts)|]. split.
  - intros c o w' p Hcall Hacq.
    destruct (acquires_moves _ _ _ _ _ _ Hwf Hview Hcall Hacq) as [Hv Hv'].
    split; [done|]. split; [done|]. by apply (tokens_turn _ (Holding p)).
  - intros u p Hp Ht.
    pose proof (view_turn_in_turn _ _ _ Hview Ht) as ->. split.
    + intros env.
      destruct (unlock_releases w u p env Hwf Hp Hview) as (Hc & _ & Hv').
      eexists. split; [exact Hc|]. split; [done|].
      by apply (tokens_turn _ (FenceReady (other p))).
    + destruct (release_abandons w u p Hwf Hp Hview) as (w' & Hc & _ & Hv').
      exists w'. simpl. rewrite Hc. split; [done|]. split; [done|].
      by apply (tokens_turn _ (FenceReady (other p))).
Qed.

(** ** Release, abandonment and duplicate signals *)

Lemma upd2_nth2 {A} (a : arr2 A) p : upd2 a p (nth2 a p) = a.
Proof. by destruct a, p. Qed.

Lemma validate_user_eq w u p :
  validate_user u w = Some p -> nth2 (user (dev w)) p = Some u.
Proof.
  unfold validate_user, slot_is.
  repeat case_bool_decide; intros; by simplify_eq.
Qed.

Lemma release_validated w u p usr :
  validate_user u w = Some p -> mem w !! u = Some usr ->
  dmapp_cdev_release u w =
  Some (release_signal (if is_locked usr then Some (other p) else None)
                       (kfree_user u (set_user p None w))).
Proof.
  intros Hv Hu. unfold dmapp_cdev_release, release_disconnect.
  rewrite Hu; simpl. unfold validate_user in Hv.
  destruct (slot_is w P0 u); [by simplify_eq|].
  destruct (slot_is w P1 u); by simplify_eq.
Qed.

Lemma release_signal_frame sf w :
  user (dev (release_signal sf w).2) = user (dev w) /\
  mem (release_signal sf w).2 = mem w.
Proof.
  unfold release_signal, release_test, release_do_signal.
  destruct sf as [k|]; [|done].
  destruct (negb _); [|done]. by destruct (dma_fence_signal _).
Qed.

Lemma release_signal_fences k w :
  (release_signal (Some k) w).1 = 0 /\
  fence (dev (release_signal (Some k) w).2) =
    upd2 (fence (dev w)) k (dma_fence_signal (nth2 (fence (dev w)) k)).2 /\
  fence_signaled (release_signal (Some k) w).2 k = true.
Proof.
  unfold release_signal, release_test, release_do_signal,
    dma_fence_is_signaled, fence_signaled.
  destruct (signaled (nth2 (fence (dev w)) k)) eqn:Hs; simpl.
  - rewrite (dma_fence_signal_duplicate _ Hs). simpl.
    by rewrite upd2_nth2.
  - rewrite (dma_fence_signal_pending _ Hs). simpl.
    by rewrite nth2_upd2_eq.
Qed.



(** C6, as the claim has it, fails: when two threads of the participant
    in its turn call unlock on the same file together, the second signal
    finds the fence already signaled, and that call returns [-EINVAL] to
    its caller instead of success. *)
Lemma duplicate_signal_error_reaches_caller :
  attached w_attach /\
  exists cf,
    exec sched_double_unlock cf_attach = Some cf /\
    threads cf !! tb = Some (PcReturn 0) /\
    threads cf !! tc = Some (PcReturn (- EINVAL)) /\
    locked_at (cworld cf) ub = false /\
    - EINVAL < 0.
Proof.
  split; [apply attached_w_attach|]. eexists.
  split; [reflexivity|]. split; [reflexivity|].
  split; [reflexivity|]. split; reflexivity.
Qed.

(** C6 (amended): an unlock call of a participant in its turn that finds
    the other fence already signaled clears the caller's flag and changes
    nothing else (the resulting state is the one before with that flag
    cleared: the device, so both slots and both fences, is as it was, and
    so is every other user structure), and returns the failure of the
    signal, [-EINVAL], to its caller; a close by a participant in its
    turn that finds the other fence already signaled skips the signal and
    returns 0, and the resulting state is the one before with the
    caller's slot cleared and its structure freed: the fences, the other
    slot and every other user structure are as they were. *)
Theorem duplicate_signal_unlock_fails_release_succeeds w u p env :
  validate_user u w = Some p -> locked_at w u = true ->
  fence_signaled w (other p) = true ->
  (exists w',
     dmapp_cdev_ioctl u DMAPP_IOCTL_BUFFER_UNLOCK env w
       = Some (Returned (- EINVAL), w') /\
     locked_at w' u = false /\ dev w' = dev w /\
     w' = set_is_locked u false w /\
     (forall v, v <> u -> mem w' !! v = mem w !! v)) /\
  (exists w',
     dmapp_cdev_release u w = Some (0, w') /\
     fence (dev w') = fence (dev w) /\ mem w' !! u = None /\
     w' = kfree_user u (set_user p None w) /\
     nth2 (user (dev w')) p = None /\
     nth2 (user (dev w')) (other p) = nth2 (user (dev w)) (other p) /\
     (forall v, v <> u -> mem w' !! v = mem w !! v)).
Proof.
  intros Hv Hl Hs. split.
  - rewrite (ioctl_unlock_held _ _ _ _ Hv Hl).
    rewrite unlock_signal_ret, Hs.
    eexists. split; [done|].
    unfold unlock_signal, signal_fence_of.
    unfold fence_signaled in Hs.
    rewrite (dma_fence_signal_duplicate _ Hs). simpl.
    unfold locked_at in Hl. destruct (mem w !! u) as [usr|] eqn:Hu; [|done].
    assert (set_fence (other p) (nth2 (fence (dev w)) (other p)) w = w)
      as Hsame.
    { unfold set_fence. rewrite upd2_nth2. by destruct w as [[us fs] m]. }
    split_and!.
    + unfold unlock_clear. apply locked_at_set_is_locked_eq. simpl.
      by rewrite Hu.
    + simpl. rewrite upd2_nth2. by destruct (dev w).
    + unfold unlock_clear. by rewrite Hsame.
    + intros v Hne. simpl. by rewrite lookup_alter_ne.
  - unfold locked_at in Hl. destruct (mem w !! u) as [usr|] eqn:Hu; [|done].
    rewrite (release_validated _ _ _ _ Hv Hu), Hl.
    unfold release_signal, release_test, dma_fence_is_signaled. simpl.
    unfold fence_signaled in Hs. rewrite Hs. simpl.
    eexists. split; [done|]. split_and!; [done| |done| | |]; simpl.
    + apply lookup_delete_eq.
    + apply nth2_upd2_eq.
    + apply nth2_upd2_other.
    + intros v Hne. by rewrite lookup_delete_ne.
Qed.

(** The world in the middle of [sched_double_unlock]: the participant of
    parity 1 is in its turn and a first unlock has signaled [fence[0]]. *)
Lemma duplicate_signal_unlock_fails_release_succeeds_witness :
  validate_user ub (unlock_signal P1 (lock_commit ub P1 w_two)).2 = Some P1 /\
  locked_at (unlock_signal P1 (lock_commit ub P1 w_two)).2 ub = true /\
  fence_signaled (unlock_signal P1 (lock_commit ub P1 w_two)).2 (other P1)
    = true /\
  exists w',
    dmapp_cdev_ioctl ub DMAPP_IOCTL_BUFFER_UNLOCK awake
      (unlock_signal P1 (lock_commit ub P1 w_two)).2
    = Some (Returned (- EINVAL), w').
Proof.
  split; [reflexivity|]. split; [reflexivity|]. split; [reflexivity|].
  destruct (duplicate_signal_unlock_fails_release_succeeds
              (unlock_signal P1 (lock_commit ub P1 w_two)).2 ub P1 awake
              eq_refl eq_refl eq_refl) as [(w' & Hcall & _) _].
  exists w'. exact Hcall.
Defined.



(** ** Capacity of the registry *)

Lemma open_registers w u p :
  mem w !! u = None -> nth2 (user (dev w)) p = None ->
  (p = P1 -> exists a, nth2 (user (dev w)) P0 = Some a /\ is_Some (mem w !! a)) ->
  dmapp_cdev_open (Some u) w = (0, set_user p (Some u) (kzalloc_user u w)) /\
  validate_user u (set_user p (Some u) (kzalloc_user u w)) = Some p /\
  nth2 (user (dev (set_user p (Some u) (kzalloc_user u w)))) (other p)
    = nth2 (user (dev w)) (other p).
Proof.
  intros Hu Hp H0. destruct p; simpl in *.
  - split; [by apply open_slot0|]. split; [|done].
    unfold validate_user, slot_is; simpl. by rewrite bool_decide_eq_true_2.
  - destruct (H0 eq_refl) as (a & Ha & [asr Hm]).
    split; [apply open_slot1; [simpl; congruence|done]|]. split; [|done].
    unfold validate_user, slot_is; simpl.
    rewrite bool_decide_eq_false_2 by (rewrite Ha; congruence).
    by rewrite bool_decide_eq_true_2.
Qed.

(** C9: while two participants are registered, a further open is turned
    away with [-EINVAL] and leaves the state, both registrations
    included, as it was; after either of the two has closed its file, an
    open returns 0 and is given the parity of the slot that was freed,
    the other registration staying in place.  The scan takes slot 0
    before slot 1: with slot 0 free an open is given parity 0. *)
Theorem third_open_rejected_freed_slot_reused w a b :
  nth2 (user (dev w)) P0 = Some a -> nth2 (user (dev w)) P1 = Some b ->
  a <> b -> is_Some (mem w !! a) -> is_Some (mem w !! b) ->
  (forall u, mem w !! u = None ->
     dmapp_cdev_open (Some u) w = (- EINVAL, w)) /\
  (forall p x, nth2 (user (dev w)) p = Some x ->
     exists w1,
       dmapp_cdev_release x w = Some (0, w1) /\
       forall u, mem w1 !! u = None ->
         exists w2,
           dmapp_cdev_open (Some u) w1 = (0, w2) /\
           validate_user u w2 = Some p /\
           nth2 (user (dev w2)) (other p) = nth2 (user (dev w)) (other p)) /\
  (forall w0 u, nth2 (user (dev w0)) P0 = None ->
     exists w2,
       dmapp_cdev_open (Some u) w0 = (0, w2) /\
       validate_user u w2 = Some P0).
Proof.
  intros Ha Hb Hab Hma Hmb. split_and!.
  - intros u Hu. apply open_full; [congruence|congruence|done].
  - intros p x Hx.
    assert (validate_user x w = Some p) as Hv.
    { unfold validate_user, slot_is. rewrite Ha, Hb.
      destruct p; simpl in *; simplify_eq;
        repeat case_bool_decide; by simplify_eq. }
    assert (is_Some (mem w !! x)) as [xsr Hmx].
    { destruct p; simpl in *; by simplify_eq. }
    rewrite (release_validated _ _ _ _ Hv Hmx).
    set (sf := if is_locked xsr then _ else _).
    destruct (release_signal_frame sf (kfree_user x (set_user p None w)))
      as [Hus Hm].
    assert ((release_signal sf (kfree_user x (set_user p None w))).1 = 0)
      as Hr.
    { subst sf. destruct (is_locked xsr); [|done].
      apply release_signal_fences. }
    destruct (release_signal sf _) as [r w1]. simpl in Hus, Hm, Hr. subst r.
    exists w1. split; [done|]. intros u Hu.
    destruct (open_registers w1 u p Hu) as (Ho & Hv2 & Hs2).
    + rewrite Hus. apply nth2_upd2_eq.
    + intros ->. exists a.
      assert (x = b) as -> by (simpl in Hx, Hb; congruence).
      rewrite Hus; simpl. split; [done|].
      rewrite Hm. by rewrite lookup_delete_ne.
    + eexists. split; [exact Ho|]. split; [exact Hv2|].
      rewrite Hs2, Hus. apply nth2_upd2_other.
  - intros w0 u H0. eexists. split; [by apply open_slot0|].
    unfold validate_user, slot_is; simpl. by rewrite bool_decide_eq_true_2.
Qed.

Lemma third_open_rejected_freed_slot_reused_witness :
  nth2 (user (dev w_two)) P0 = Some ua /\
  nth2 (user (dev w_two)) P1 = Some ub /\
  ua <> ub /\ is_Some (mem w_two !! ua) /\ is_Some (mem w_two !! ub) /\
  dmapp_cdev_open (Some uc) w_two = (- EINVAL, w_two).
Proof.
  assert (ua <> ub) as Hab by discriminate.
  assert (is_Some (mem w_two !! ua)) as Ha by (eexists; reflexivity).
  assert (is_Some (mem w_two !! ub)) as Hb by (eexists; reflexivity).
  split; [reflexivity|]. split; [reflexivity|].
  split; [exact Hab|]. split; [exact Ha|]. split; [exact Hb|].
  exact (proj1 (third_open_rejected_freed_slot_reused w_two ua ub
                  eq_refl eq_refl Hab Ha Hb) uc eq_refl).
Defined.

(** ** Interleaved calls, one call per file *)

(** [Hnf] says that a thread other than the current one is in no call on
    the file [u]; a thread shown to be in a call on [u] is a
    contradiction. *)
Ltac same_file Hnf :=
  simpl in Hnf; by rewrite bool_decide_eq_true_2 in Hnf.

(** A thread in a call on the file [v] shows that [v] is not the file
    being closed, by [H : ... -> in_flight_on v c = true -> v <> u]. *)
Ltac other_file H :=
  apply H; simpl; by apply bool_decide_eq_true_2.

Lemma quiet_spec u cf :
  quiet u cf = true <->
  forall t c, threads cf !! t = Some c -> in_flight_on u c = false.
Proof.
  unfold quiet. rewrite forallb_forall. split.
  - intros H t c Htc. specialize (H (t, c)). simpl in H.
    apply negb_true_iff, H, list_elem_of_In, elem_of_map_to_list, Htc.
  - intros H [t c] Hin. simpl.
    apply list_elem_of_In, elem_of_map_to_list in Hin.
    apply negb_true_iff. by apply (H t).
Qed.

Lemma idle_spec t cf :
  idle t cf = true ->
  threads cf !! t = None \/ exists ret, threads cf !! t = Some (PcReturn ret).
Proof.
  unfold idle. destruct (threads cf !! t) as [[]|]; try done; eauto.
Qed.

(** A thread moves on without touching the world or the token. *)
Lemma iinv_pc_only cf loc t c' :
  iinv cf loc ->
  (forall u ret, threads cf !! t <> Some (PcUnlockClear u ret)) ->
  (forall q, loc = IAbandon t q -> carries c' = Some q) ->
  (forall u ret, c' <> PcUnlockClear u ret) ->
  thread_ok (cworld cf) loc t c' ->
  (forall u t2 c2,
     in_flight_on u c' = true -> t2 <> t ->
     threads cf !! t2 = Some c2 -> in_flight_on u c2 = false) ->
  iinv {| cworld := cworld cf; threads := <[t := c']> (threads cf) |} loc.
Proof.
  intros [Hwf Hf Ht Hth Hab Hs] Hold1 Hold2 Hnew Hok Hfl.
  split; simpl; try done.
  - intros q. rewrite Ht. unfold stale; simpl. split.
    + intros [?|(t0 & u & ret & Hl & Hq)]; [by left|right].
      exists t0, u, ret. split; [|done].
      rewrite lookup_insert_ne; [done|]. intros ->. by eapply Hold1.
    + intros [?|(t0 & u & ret & Hl & Hq)]; [by left|right].
      apply lookup_insert_Some in Hl as [[-> ->]|[Hne Hl]].
      * by destruct (Hnew u ret).
      * by exists t0, u, ret.
  - intros t0 c Hl.
    apply lookup_insert_Some in Hl as [[-> ->]|[Hne Hl]]; [done|].
    by apply Hth.
  - intros t0 q Hloc. destruct (decide (t0 = t)) as [->|Hne].
    + rewrite lookup_insert_eq. simpl. by apply Hold2.
    + rewrite lookup_insert_ne by done. by apply Hab.
  - intros t1 t2 c1 c2 u H1 H2 F1 F2.
    apply lookup_insert_Some in H1 as [[-> ->]|[Hne1 H1]];
      apply lookup_insert_Some in H2 as [[-> ->]|[Hne2 H2]]; try done.
    + rewrite (Hfl u t2 c2) in F2; done.
    + rewrite (Hfl u t1 c1) in F1; done.
    + by eapply Hs.
Qed.

Lemma ioctl_entry_next w u cmd env next :
  ioctl_entry u cmd env w = Some next ->
  match next with
  | NextReturn _ => True
  | NextLock p => validate_user u w = Some p /\ locked_at w u = false
  | NextUnlock p => validate_user u w = Some p /\ locked_at w u = true
  end.
Proof.
  unfold ioctl_entry, locked_at.
  destruct (mem w !! u) as [usr|]; [simpl|done].
  destruct (validate_user u w) as [p|]; [|by intros [= <-]].
  destruct (is_locked usr); simpl;
    repeat case_match; intros [= <-]; done.
Qed.

Lemma iinv_start_ioctl cf loc t u cmd env w' c' :
  iinv cf loc -> idle t cf = true -> quiet u cf = true ->
  start_call (Ioctl u cmd env) cf = Some (w', c') ->
  iinv {| cworld := w'; threads := <[t := c']> (threads cf) |} loc.
Proof.
  intros Hinv Hidle Hquiet Hstart. simpl in Hstart.
  destruct (ioctl_entry u cmd env (cworld cf)) as [next|] eqn:He; [|done].
  simpl in Hstart. simplify_eq.
  apply ioctl_entry_next in He.
  pose proof (proj1 (quiet_spec _ _) Hquiet) as Hq.
  apply idle_spec in Hidle.
  apply iinv_pc_only.
  - done.
  - intros v ret Hl. destruct Hidle as [?|[? ?]]; congruence.
  - intros q Hab. apply (ii_abandon _ _ Hinv) in Hab.
    destruct Hidle as [Hl|[? Hl]]; by rewrite Hl in Hab.
  - by destruct next.
  - destruct next as [ret|p|p]; simpl; [done| |].
    + destruct He as [Hv Hl]. split; [by apply validate_user_eq|done].
    + destruct He as [Hv Hl]. apply validate_user_eq in Hv.
      split; [done|].
      assert (in_turn (cworld cf) p = true) as Ht
        by (by rewrite (in_turn_slot _ _ _ Hv)).
      apply (ii_turn _ _ Hinv) in Ht as [?|(t0 & u0 & ret & Hl0 & Hu0)];
        [done|].
      assert (u0 = u) as -> by congruence.
      specialize (Hq _ _ Hl0). simpl in Hq.
      by rewrite bool_decide_eq_true_2 in Hq.
  - intros v t2 c2 Hfl _ Hl2.
    assert (v = u) as ->.
    { destruct next; simpl in Hfl; try done;
        by apply bool_decide_eq_true in Hfl. }
    by apply (Hq t2).
Qed.

Lemma iinv_step_lock_wait cf loc t u p env w' c' :
  iinv cf loc -> threads cf !! t = Some (PcLockWait u p) ->
  step_pc env (cworld cf) (PcLockWait u p) = Some (w', c') ->
  iinv {| cworld := w'; threads := <[t := c']> (threads cf) |} loc.
Proof.
  intros Hinv Hl Hstep. simpl in Hstep.
  destruct (ii_threads _ _ Hinv _ _ Hl) as [Hslot Hlocked].
  unfold lock_wait, dma_fence_wait, wait_fence_of in Hstep.
  fold (fence_signaled (cworld cf) p) in Hstep.
  assert (forall v t2 c2,
             bool_decide (u = v) = true -> t2 <> t ->
             threads cf !! t2 = Some c2 -> in_flight_on v c2 = false) as Hfl.
  { intros v t2 c2 ->%bool_decide_eq_true Hne Hl2.
    destruct (in_flight_on v c2) eqn:Hf; [|done].
    destruct Hne. apply (ii_single _ _ Hinv t2 t _ _ v Hl2 Hl); [done|].
    simpl. by apply bool_decide_eq_true_2. }
  assert (forall q, loc <> IAbandon t q) as Hnab.
  { intros q Hab. apply (ii_abandon _ _ Hinv) in Hab. by rewrite Hl in Hab. }
  destruct (fence_signaled (cworld cf) p) eqn:Hs; simpl in Hstep.
  - simplify_eq. apply iinv_pc_only.
    + done.
    + congruence.
    + intros q Hab. by destruct (Hnab q).
    + done.
    + simpl. split_and!; try done. by apply (ii_fence _ _ Hinv).
    + done.
  - destruct (signal_pending env); simpl in Hstep; [|done]. simplify_eq.
    apply iinv_pc_only.
    + done.
    + congruence.
    + intros q Hab. by destruct (Hnab q).
    + done.
    + done.
    + done.
Qed.

Lemma iinv_step_release_none cf loc t :
  iinv cf loc -> threads cf !! t = Some (PcReleaseSignal None) ->
  iinv {| cworld := cworld cf;
          threads := <[t := PcReturn 0]> (threads cf) |} loc.
Proof.
  intros Hinv Hl. apply iinv_pc_only.
  - done.
  - congruence.
  - intros q Hab. apply (ii_abandon _ _ Hinv) in Hab. by rewrite Hl in Hab.
  - done.
  - done.
  - done.
Qed.

Lemma abandon_insert cf loc t c' :
  iinv cf loc -> threads cf !! t ≫= carries = None ->
  forall t0 q,
    loc = IAbandon t0 q ->
    <[t := c']> (threads cf) !! t0 ≫= carries = Some q.
Proof.
  intros Hinv Hl t0 q Hab. apply (ii_abandon _ _ Hinv) in Hab.
  destruct (decide (t0 = t)) as [->|Hne]; [congruence|].
  by rewrite lookup_insert_ne.
Qed.

Lemma single_insert (th : gmap nat pc) t c' :
  (forall t1 t2 c1 c2 u,
     th !! t1 = Some c1 -> th !! t2 = Some c2 ->
     in_flight_on u c1 = true -> in_flight_on u c2 = true -> t1 = t2) ->
  (forall u t2 c2,
     in_flight_on u c' = true -> t2 <> t ->
     th !! t2 = Some c2 -> in_flight_on u c2 = false) ->
  forall t1 t2 c1 c2 u,
    <[t := c']> th !! t1 = Some c1 -> <[t := c']> th !! t2 = Some c2 ->
    in_flight_on u c1 = true -> in_flight_on u c2 = true -> t1 = t2.
Proof.
  intros Hs Hfl t1 t2 c1 c2 u H1 H2 F1 F2.
  apply lookup_insert_Some in H1 as [[-> ->]|[Hne1 H1]];
    apply lookup_insert_Some in H2 as [[-> ->]|[Hne2 H2]]; try done.
  - rewrite (Hfl u t2 c2) in F2; done.
  - rewrite (Hfl u t1 c1) in F1; done.
  - by eapply Hs.
Qed.

Lemma single_same_file cf loc t c u :
  iinv cf loc -> threads cf !! t = Some c -> in_flight_on u c = true ->
  forall t2 c2,
    t2 <> t -> threads cf !! t2 = Some c2 -> in_flight_on u c2 = false.
Proof.
  intros Hinv Hl Hf t2 c2 Hne Hl2.
  destruct (in_flight_on u c2) eqn:Hf2; [|done].
  destruct Hne. by apply (ii_single _ _ Hinv t2 t c2 c u).
Qed.

Lemma stale_insert cf t c' w' q :
  user (dev w') = user (dev (cworld cf)) ->
  (forall u ret, threads cf !! t <> Some (PcUnlockClear u ret)) ->
  (forall u ret, c' <> PcUnlockClear u ret) ->
  stale {| cworld := w'; threads := <[t := c']> (threads cf) |} q
  <-> stale cf q.
Proof.
  intros Hus Hold Hnew. unfold stale; simpl. rewrite Hus. split.
  - intros (t0 & u & ret & Hl & Hq).
    apply lookup_insert_Some in Hl as [[-> ->]|[Hne Hl]].
    + by destruct (Hnew u ret).
    + by exists t0, u, ret.
  - intros (t0 & u & ret & Hl & Hq).
    exists t0, u, ret. split; [|done].
    rewrite lookup_insert_ne; [done|]. intros ->. by eapply Hold.
Qed.

Lemma locked_at_lock_commit_ne w u v p :
  u <> v -> locked_at (lock_commit u p w) v = locked_at w v.
Proof. intros. unfold lock_commit. by rewrite locked_at_set_is_locked_ne. Qed.

Lemma iinv_step_lock_commit cf loc t u p ret :
  iinv cf loc -> threads cf !! t = Some (PcLockCommit u p ret) ->
  loc = IFence p /\
  iinv {| cworld := lock_commit u p (cworld cf);
          threads := <[t := PcReturn ret]> (threads cf) |} (IHeld p).
Proof.
  intros Hinv Hl.
  destruct (ii_threads _ _ Hinv _ _ Hl) as (Hslot & Hlocked & -> & ->).
  split; [done|].
  pose proof (ii_wf _ _ Hinv) as Hwf.
  destruct (lock_commit_effect _ _ _ Hwf Hslot) as (Hwf' & H1 & H2 & H3 & H4).
  assert (forall t2 c2, t2 <> t -> threads cf !! t2 = Some c2 ->
                        in_flight_on u c2 = false) as Hothers.
  { apply (single_same_file cf (IFence p) t _ u Hinv Hl).
    simpl. by apply bool_decide_eq_true_2. }
  assert (forall q, fence_signaled (lock_commit u p (cworld cf)) q = false)
    as Hnone.
  { intros q. destruct (decide (q = p)) as [->|Hne]; [done|].
    assert (q = other p) as -> by (by destruct p, q).
    rewrite H2. destruct (fence_signaled (cworld cf) (other p)) eqn:Hs;
      [|done].
    apply (ii_fence _ _ Hinv) in Hs. by destruct p. }
  split; simpl.
  - done.
  - intros q. rewrite Hnone. by split.
  - intros q. rewrite stale_insert; [|done|congruence|congruence].
    destruct (decide (q = p)) as [->|Hne].
    + rewrite H3. split; [by left|done].
    + assert (q = other p) as -> by (by destruct p, q).
      rewrite H4, (ii_turn _ _ Hinv). split.
      * intros [?|?]; [done|by right].
      * intros [[= Hp]|?]; [by destruct p|by right].
  - intros t0 c Hl0.
    apply lookup_insert_Some in Hl0 as [[-> <-]|[Hne Hl0]]; [done|].
    pose proof (ii_threads _ _ Hinv _ _ Hl0) as Hok.
    pose proof (Hothers _ _ (not_eq_sym Hne) Hl0) as Hnf.
    destruct c as [v q|v q r|v q|v r|[q|]|q|r]; simpl in *; try done.
    + destruct Hok as [Hq Hlv]. split; [done|].
      rewrite locked_at_lock_commit_ne; [done|].
      intros ->. same_file Hnf.
    + destruct Hok as (Hq & _ & [= ->] & _).
      assert (v = u) as -> by congruence.
      same_file Hnf.
    + by destruct Hok as [_ ?].
    + destruct Hok as (q & Hq & _). exists q. split; [done|].
      intros [= ->]. assert (v = u) as -> by congruence.
      same_file Hnf.
  - done.
  - apply single_insert; [apply (ii_single _ _ Hinv)|done].
Qed.

Lemma parity_cases (p q : parity) : q = p \/ q = other p.
Proof. destruct p, q; auto. Qed.

Lemma iinv_step_unlock_signal cf loc t u p :
  iinv cf loc -> threads cf !! t = Some (PcUnlockSignal u p) ->
  loc = IHeld p /\ (unlock_signal p (cworld cf)).1 = 0 /\
  iinv {| cworld := (unlock_signal p (cworld cf)).2;
          threads := <[t := PcUnlockClear u 0]> (threads cf) |}
       (IFence (other p)).
Proof.
  intros Hinv Hl.
  destruct (ii_threads _ _ Hinv _ _ Hl) as (Hslot & ->).
  split; [done|].
  pose proof (ii_wf _ _ Hinv) as Hwf.
  assert (forall q, fence_signaled (cworld cf) q = false) as Hpending.
  { intros q. destruct (fence_signaled (cworld cf) q) eqn:Hs; [|done].
    by apply (ii_fence _ _ Hinv) in Hs. }
  assert (forall t2 c2, t2 <> t -> threads cf !! t2 = Some c2 ->
                        in_flight_on u c2 = false) as Hothers.
  { apply (single_same_file cf (IHeld p) t _ u Hinv Hl).
    simpl. by apply bool_decide_eq_true_2. }
  rewrite unlock_signal_ret, Hpending. split; [done|].
  unfold unlock_signal, signal_fence_of.
  pose proof (Hpending (other p)) as Hp'. unfold fence_signaled in Hp'.
  rewrite (dma_fence_signal_pending _ Hp'). simpl.
  set (f := {| signaled := true |}).
  split; simpl.
  - by apply wf_set_fence.
  - intros q. destruct (parity_cases p q) as [->| ->].
    + rewrite fence_signaled_set_fence_ne by apply other_neq.
      rewrite Hpending. split; [done|]. intros [= Hp]. by destruct p.
    + by rewrite fence_signaled_set_fence_eq.
  - intros q. change (in_turn (set_fence (other p) f (cworld cf)) q)
      with (in_turn (cworld cf) q).
    rewrite (ii_turn _ _ Hinv). unfold stale; simpl. split.
    + intros [[= ->]|(t0 & v & r & Hl0 & Hq)]; right.
      * exists t, u, 0. by rewrite lookup_insert_eq.
      * exists t0, v, r. split; [|done].
        rewrite lookup_insert_ne; [done|]. intros ->. congruence.
    + intros [?|(t0 & v & r & Hl0 & Hq)]; [done|].
      apply lookup_insert_Some in Hl0 as [[-> [= <- <-]]|[Hne Hl0]].
      * left. f_equal.
        destruct (parity_cases p q) as [->| ->]; [done|].
        by destruct (wf_other_slot _ _ _ Hwf Hslot).
      * right. by exists t0, v, r.
  - intros t0 c Hl0.
    apply lookup_insert_Some in Hl0 as [[-> <-]|[Hne Hl0]].
    { simpl. exists p. by split. }
    pose proof (ii_threads _ _ Hinv _ _ Hl0) as Hok.
    pose proof (Hothers _ _ (not_eq_sym Hne) Hl0) as Hnf.
    destruct c as [v q|v q r|v q|v r|[q|]|q|r]; simpl in *; try done.
    + by destruct Hok as (_ & _ & ? & _).
    + destruct Hok as (Hq & [= ->]).
      assert (v = u) as -> by congruence.
      same_file Hnf.
    + destruct Hok as (q & Hq & _). by exists q.
  - done.
  - apply single_insert; [apply (ii_single _ _ Hinv)|].
    intros v t2 c2 ->%bool_decide_eq_true Hne Hl2. by apply (Hothers t2).
Qed.

Lemma iinv_step_unlock_clear cf loc t u ret :
  iinv cf loc -> threads cf !! t = Some (PcUnlockClear u ret) ->
  iinv {| cworld := unlock_clear u (cworld cf);
          threads := <[t := PcReturn ret]> (threads cf) |} loc.
Proof.
  intros Hinv Hl.
  destruct (ii_threads _ _ Hinv _ _ Hl) as (p & Hslot & Hloc).
  pose proof (ii_wf _ _ Hinv) as Hwf.
  pose proof (wf_other_slot _ _ _ Hwf Hslot) as Hq.
  pose proof (wf_alloc _ Hwf _ _ Hslot) as Hu.
  assert (forall t2 c2, t2 <> t -> threads cf !! t2 = Some c2 ->
                        in_flight_on u c2 = false) as Hothers.
  { apply (single_same_file cf loc t _ u Hinv Hl).
    simpl. by apply bool_decide_eq_true_2. }
  unfold unlock_clear. split; simpl.
  - by apply wf_set_is_locked.
  - apply (ii_fence _ _ Hinv).
  - intros q. unfold stale; simpl. destruct (parity_cases p q) as [->| ->].
    + rewrite in_turn_set_is_locked_eq by done. split; [done|].
      intros [?|(t0 & v & r & Hl0 & Hv)]; [done|].
      apply lookup_insert_Some in Hl0 as [[-> [=]]|[Hne Hl0]].
      assert (v = u) as -> by congruence.
      pose proof (Hothers _ _ (not_eq_sym Hne) Hl0) as Hnf. simpl in Hnf.
      same_file Hnf.
    + rewrite in_turn_set_is_locked_ne by done.
      rewrite (ii_turn _ _ Hinv). unfold stale. split.
      * intros [?|(t0 & v & r & Hl0 & Hv)]; [by left|right].
        exists t0, v, r. split; [|done].
        rewrite lookup_insert_ne; [done|]. intros ->. congruence.
      * intros [?|(t0 & v & r & Hl0 & Hv)]; [by left|right].
        apply lookup_insert_Some in Hl0 as [[-> [=]]|[Hne Hl0]].
        by exists t0, v, r.
  - intros t0 c Hl0.
    apply lookup_insert_Some in Hl0 as [[-> <-]|[Hne Hl0]]; [done|].
    pose proof (ii_threads _ _ Hinv _ _ Hl0) as Hok.
    pose proof (Hothers _ _ (not_eq_sym Hne) Hl0) as Hnf.
    destruct c as [v q|v q r|v q|v r|[q|]|q|r]; simpl in *; try done.
    + destruct Hok as [Hv Hlv]. split; [done|].
      rewrite locked_at_set_is_locked_ne; [done|].
      intros ->. same_file Hnf.
    + destruct Hok as (Hv & Hlv & Hrest). split; [done|]. split; [|done].
      rewrite locked_at_set_is_locked_ne; [done|].
      intros ->. same_file Hnf.
  - apply (abandon_insert cf loc); [done|by rewrite Hl].
  - apply single_insert; [apply (ii_single _ _ Hinv)|done].
Qed.

Lemma iinv_step_release_test cf loc t q :
  iinv cf loc -> threads cf !! t = Some (PcReleaseSignal (Some q)) ->
  release_test (Some q) (cworld cf) = Some q /\
  iinv {| cworld := cworld cf;
          threads := <[t := PcReleaseDoSignal q]> (threads cf) |} loc.
Proof.
  intros Hinv Hl.
  pose proof (ii_threads _ _ Hinv _ _ Hl) as Hloc. simpl in Hloc. subst loc.
  split.
  - unfold release_test, dma_fence_is_signaled.
    fold (fence_signaled (cworld cf) q).
    destruct (fence_signaled (cworld cf) q) eqn:Hs; [|done].
    by apply (ii_fence _ _ Hinv) in Hs.
  - apply iinv_pc_only.
    + done.
    + congruence.
    + by intros q0 [= ->].
    + done.
    + done.
    + done.
Qed.

Lemma iinv_step_release_do cf loc t q :
  iinv cf loc -> threads cf !! t = Some (PcReleaseDoSignal q) ->
  loc = IAbandon t q /\
  (release_do_signal q (cworld cf)).1 = 0 /\
  iinv {| cworld := (release_do_signal q (cworld cf)).2;
          threads := <[t := PcReturn 0]> (threads cf) |} (IFence q).
Proof.
  intros Hinv Hl.
  pose proof (ii_threads _ _ Hinv _ _ Hl) as Hloc. simpl in Hloc. subst loc.
  split; [done|].
  pose proof (ii_wf _ _ Hinv) as Hwf.
  assert (forall q', fence_signaled (cworld cf) q' = false) as Hpending.
  { intros q'. destruct (fence_signaled (cworld cf) q') eqn:Hs; [|done].
    by apply (ii_fence _ _ Hinv) in Hs. }
  pose proof (Hpending q) as Hp'. unfold fence_signaled in Hp'.
  unfold release_do_signal.
  rewrite (dma_fence_signal_pending _ Hp'). simpl. split; [done|].
  set (f := {| signaled := true |}).
  split; simpl.
  - by apply wf_set_fence.
  - intros q'. destruct (decide (q' = q)) as [->|Hne].
    + by rewrite fence_signaled_set_fence_eq.
    + rewrite fence_signaled_set_fence_ne by done.
      rewrite Hpending. split; [done|]. by intros [= ->].
  - intros q'. change (in_turn (set_fence q f (cworld cf)) q')
      with (in_turn (cworld cf) q').
    rewrite (ii_turn _ _ Hinv).
    rewrite (stale_insert cf t (PcReturn 0) _ q');
      [|done|congruence|congruence].
    split; (intros [?|?]; [done|by right]).
  - intros t0 c Hl0.
    apply lookup_insert_Some in Hl0 as [[-> <-]|[Hne Hl0]]; [done|].
    pose proof (ii_threads _ _ Hinv _ _ Hl0) as Hok.
    destruct c as [v q'|v q' r|v q'|v r|[q'|]|q'|r]; simpl in *; try done.
    + by destruct Hok as (_ & _ & ? & _).
    + by destruct Hok as (_ & ?).
    + destruct Hok as (q' & Hq & _). by exists q'.
    + by simplify_eq.
    + by simplify_eq.
  - done.
  - apply single_insert; [apply (ii_single _ _ Hinv)|done].
Qed.

Lemma view_eq_inv w w' :
  view w' = view w ->
  forall q, fence_signaled w' q = fence_signaled w q /\
            in_turn w' q = in_turn w q.
Proof. unfold view. intros [= ? ? ? ?] []; by split. Qed.

Lemma open_frame w kz r w' :
  wf w -> fresh kz w = true -> dmapp_cdev_open kz w = (r, w') ->
  forall q v,
    nth2 (user (dev w)) q = Some v ->
    nth2 (user (dev w')) q = Some v /\ locked_at w' v = locked_at w v.
Proof.
  intros Hwf Hf Ho q v Hq. destruct kz as [u|]; [|by simplify_eq/=].
  simpl in Hf. apply bool_decide_eq_true in Hf.
  assert (u <> v) as Huv.
  { intros ->. destruct (wf_alloc _ Hwf _ _ Hq) as [? ?]. congruence. }
  assert (forall p, nth2 (user (dev w)) p = None ->
     nth2 (user (dev (set_user p (Some u) (kzalloc_user u w)))) q = Some v /\
     locked_at (set_user p (Some u) (kzalloc_user u w)) v = locked_at w v)
    as Hreg.
  { intros p Hp. split.
    - simpl. rewrite nth2_upd2_ne; [done|]. intros ->. congruence.
    - unfold locked_at; simpl. by rewrite lookup_insert_ne. }
  destruct (nth2 (user (dev w)) P0) as [a|] eqn:H0.
  - destruct (nth2 (user (dev w)) P1) as [b|] eqn:H1.
    + rewrite open_full in Ho by (done || congruence). by simplify_eq.
    + rewrite open_slot1 in Ho by (done || congruence). simplify_eq.
      by apply Hreg.
  - rewrite open_slot0 in Ho by done. simplify_eq. by apply Hreg.
Qed.

Lemma iinv_start_open cf loc t kz w' c' :
  iinv cf loc -> idle t cf = true ->
  start_call (Open kz) cf = Some (w', c') ->
  iinv {| cworld := w'; threads := <[t := c']> (threads cf) |} loc.
Proof.
  intros Hinv Hidle Hstart. simpl in Hstart.
  destruct (fresh kz (cworld cf)) eqn:Hf; [|done].
  destruct (dmapp_cdev_open kz (cworld cf)) as [r w1] eqn:Ho. simplify_eq.
  pose proof (ii_wf _ _ Hinv) as Hwf.
  destruct (open_effect _ _ _ _ Hwf Hf Ho) as [Hwf' Hview].
  pose proof (view_eq_inv _ _ Hview) as Hsame.
  pose proof (open_frame _ _ _ _ Hwf Hf Ho) as Hframe.
  apply idle_spec in Hidle.
  assert (forall v r0, threads cf !! t <> Some (PcUnlockClear v r0)) as Hnot.
  { intros v r0 Hl. destruct Hidle as [?|[? ?]]; congruence. }
  split; simpl.
  - done.
  - intros q. rewrite (proj1 (Hsame q)). apply (ii_fence _ _ Hinv).
  - intros q. rewrite (proj2 (Hsame q)), (ii_turn _ _ Hinv).
    unfold stale; simpl. split.
    + intros [?|(t0 & v & r0 & Hl0 & Hv)]; [by left|right].
      exists t0, v, r0. split; [|by apply Hframe].
      rewrite lookup_insert_ne; [done|]. intros ->. by eapply Hnot.
    + intros [?|(t0 & v & r0 & Hl0 & Hv)]; [by left|right].
      apply lookup_insert_Some in Hl0 as [[-> [=]]|[Hne Hl0]].
      exists t0, v, r0. split; [done|].
      destruct (ii_threads _ _ Hinv _ _ Hl0) as (q0 & Hq0 & _).
      destruct (parity_cases q q0) as [->| ->]; [done|].
      apply Hframe in Hq0 as [Hq0 _].
      by destruct (wf_other_slot _ _ _ Hwf' Hv).
  - intros t0 c Hl0.
    apply lookup_insert_Some in Hl0 as [[-> <-]|[Hne Hl0]]; [done|].
    pose proof (ii_threads _ _ Hinv _ _ Hl0) as Hok.
    destruct c as [v q|v q r0|v q|v r0|[q|]|q|r0]; simpl in *; try done.
    + destruct Hok as [Hv Hlv]. destruct (Hframe _ _ Hv) as [? Hl'].
      by rewrite Hl'.
    + destruct Hok as (Hv & Hlv & ?). destruct (Hframe _ _ Hv) as [? Hl'].
      by rewrite Hl'.
    + destruct Hok as (Hv & ?). by destruct (Hframe _ _ Hv).
    + destruct Hok as (q & Hv & ?). exists q. by destruct (Hframe _ _ Hv).
  - apply (abandon_insert cf loc); [done|].
    by destruct Hidle as [Hl|[? Hl]]; rewrite Hl.
  - apply single_insert; [apply (ii_single _ _ Hinv)|done].
Qed.

Lemma disconnect_effect w u p :
  wf w -> nth2 (user (dev w)) p = Some u ->
  let w' := kfree_user u (set_user p None w) in
  wf w' /\
  (forall q, fence_signaled w' q = fence_signaled w q) /\
  nth2 (user (dev w')) p = None /\
  nth2 (user (dev w')) (other p) = nth2 (user (dev w)) (other p) /\
  in_turn w' p = false /\
  in_turn w' (other p) = in_turn w (other p) /\
  (forall v, v <> u -> locked_at w' v = locked_at w v).
Proof.
  intros Hwf Hp w'.
  pose proof (wf_other_slot _ _ _ Hwf Hp) as Hq.
  split; [by apply wf_disconnect|]. split; [done|].
  split; [apply nth2_upd2_eq|]. split; [apply nth2_upd2_other|].
  split; [|split].
  - unfold in_turn; simpl. by rewrite nth2_upd2_eq.
  - subst w'. rewrite in_turn_kfree_user; simpl.
    + unfold in_turn; simpl. by rewrite nth2_upd2_other.
    + by rewrite nth2_upd2_other.
  - intros v Hv. unfold locked_at; simpl. by rewrite lookup_delete_ne.
Qed.

Lemma release_disconnect_validated w u p usr :
  validate_user u w = Some p -> mem w !! u = Some usr ->
  release_disconnect u w =
  Some (if is_locked usr then Some (other p) else None,
        kfree_user u (set_user p None w)).
Proof.
  intros Hv Hu. unfold release_disconnect.
  rewrite Hu; simpl. unfold validate_user in Hv.
  destruct (slot_is w P0 u); [by simplify_eq|].
  destruct (slot_is w P1 u); by simplify_eq.
Qed.

Lemma iinv_start_close cf loc t u w' c' :
  iinv cf loc -> idle t cf = true ->
  start_call (Close u) cf = Some (w', c') ->
  exists loc',
    iinv {| cworld := w'; threads := <[t := c']> (threads cf) |} loc' /\
    (loc' = loc \/ exists p, loc = IHeld p /\ loc' = IAbandon t (other p)).
Proof.
  intros Hinv Hidle Hstart. simpl in Hstart.
  destruct (quiet u cf) eqn:Hquiet; [|done].
  pose proof (proj1 (quiet_spec _ _) Hquiet) as Hq.
  pose proof (ii_wf _ _ Hinv) as Hwf.
  destruct (mem (cworld cf) !! u) as [usr|] eqn:Hu;
    [|by unfold release_disconnect in Hstart; rewrite Hu in Hstart].
  destruct (wf_validate _ u Hwf) as [p Hv]; [by eexists|].
  rewrite (release_disconnect_validated _ _ _ _ Hv Hu) in Hstart.
  simpl in Hstart. simplify_eq.
  apply validate_user_eq in Hv.
  destruct (disconnect_effect _ _ _ Hwf Hv)
    as (Hwf' & Hfences & Hp' & Hother & Ht' & Hto & Hlocked).
  set (w' := kfree_user u (set_user p None (cworld cf))) in *.
  apply idle_spec in Hidle.
  assert (in_turn (cworld cf) p = is_locked usr) as Hturn.
  { rewrite (in_turn_slot _ _ _ Hv). unfold locked_at. by rewrite Hu. }
  assert (forall q v, v <> u -> nth2 (user (dev (cworld cf))) q = Some v ->
                      nth2 (user (dev w')) q = Some v) as Hslots.
  { intros q v Hne Hqv. destruct (parity_cases p q) as [->| ->].
    - congruence.
    - by rewrite Hother. }
  assert (forall t0 c v, threads cf !! t0 = Some c ->
                         in_flight_on v c = true -> v <> u) as Hne_u.
  { intros t0 c v Hl0 Hf ->. by rewrite (Hq _ _ Hl0) in Hf. }
  assert (~ stale cf p) as Hnostale.
  { intros (t0 & v & r & Hl0 & Hpv). assert (v = u) as -> by congruence.
    apply (Hne_u _ _ u Hl0); [|done]. simpl. by apply bool_decide_eq_true_2. }
  assert (forall sf q,
            stale {| cworld := w';
                     threads := <[t := PcReleaseSignal sf]> (threads cf) |} q
            <-> stale cf q) as Hstale.
  { intros sf q. unfold stale; cbn [cworld threads]. split.
    - intros (t0 & v & r & Hl0 & Hqv).
      apply lookup_insert_Some in Hl0 as [[-> [=]]|[Hne Hl0]].
      destruct (parity_cases p q) as [->| ->]; [congruence|].
      exists t0, v, r. split; [done|]. by rewrite <- Hother.
    - intros (t0 & v & r & Hl0 & Hqv).
      exists t0, v, r. split.
      + rewrite lookup_insert_ne; [done|]. intros ->.
        destruct Hidle as [?|[? ?]]; congruence.
      + apply Hslots; [|done].
        other_file (Hne_u _ _ v Hl0). }
  assert (forall loc' t0 c,
            t <> t0 -> threads cf !! t0 = Some c ->
            (forall q, loc = IHeld q -> loc' = IHeld q) ->
            (forall q, loc = IFence q -> loc' = IFence q) ->
            (forall t1 q, loc = IAbandon t1 q -> loc' = IAbandon t1 q) ->
            (forall q, loc' = IHeld q -> loc = IHeld q) ->
            thread_ok w' loc' t0 c) as Hframe.
  { intros loc' t0 c Hne Hl0 Hh Hf Ha Hh'.
    pose proof (ii_threads _ _ Hinv _ _ Hl0) as Hok.
    destruct c as [v q|v q r0|v q|v r0|[q|]|q|r0]; simpl in *; try done.
    - destruct Hok as [Hqv Hlv].
      assert (v <> u) as Hvu.
      { other_file (Hne_u _ _ v Hl0). }
      split; [by apply Hslots|]. by rewrite Hlocked.
    - destruct Hok as (Hqv & Hlv & Hloc & ?).
      assert (v <> u) as Hvu.
      { other_file (Hne_u _ _ v Hl0). }
      split; [by apply Hslots|]. split; [by rewrite Hlocked|]. by auto.
    - destruct Hok as (Hqv & Hloc).
      assert (v <> u) as Hvu.
      { other_file (Hne_u _ _ v Hl0). }
      split; [by apply Hslots|]. by auto.
    - destruct Hok as (q & Hqv & Hloc).
      assert (v <> u) as Hvu.
      { other_file (Hne_u _ _ v Hl0). }
      exists q. split; [by apply Hslots|]. intros ?. by apply Hloc, Hh'.
    - by auto.
    - by auto. }
  destruct (is_locked usr) eqn:Hlk.
  - (* the participant was in its turn: the thread carries the token *)
    assert (loc = IHeld p) as ->.
    { apply (ii_turn _ _ Hinv) in Hturn as [?|?]; done. }
    exists (IAbandon t (other p)). split; [|right; by exists p].
    split; simpl.
    + done.
    + intros q. rewrite Hfences. split; [|done].
      intros Hs. by apply (ii_fence _ _ Hinv) in Hs.
    + intros q. rewrite Hstale. destruct (parity_cases p q) as [->| ->].
      * rewrite Ht'. split; [done|]. by intros [?|?].
      * rewrite Hto, (ii_turn _ _ Hinv). split.
        -- intros [[= Hp]|?]; [by destruct p|by right].
        -- intros [?|?]; [done|by right].
    + intros t0 c Hl0.
      apply lookup_insert_Some in Hl0 as [[-> <-]|[Hne Hl0]]; [done|].
      pose proof (ii_threads _ _ Hinv _ _ Hl0) as Hok.
      assert (forall v, in_flight_on v c = true -> v <> u) as Hcu
        by (intros v; apply (Hne_u _ _ v Hl0)).
      destruct c as [v q|v q r0|v q|v r0|[q|]|q|r0]; simpl in *; try done.
      * destruct Hok as [Hqv Hlv].
        assert (v <> u) as Hvu by other_file Hcu.
        split; [by apply Hslots|]. by rewrite Hlocked.
      * by destruct Hok as (_ & _ & ? & _).
      * destruct Hok as (Hqv & [= ->]).
        assert (v = u) as -> by congruence.
        by destruct (Hcu u); [apply bool_decide_eq_true_2|].
      * destruct Hok as (q & Hqv & Hloc).
        assert (v <> u) as Hvu by other_file Hcu.
        exists q. split; [by apply Hslots|done].
    + intros t0 q [= <- <-]. by rewrite lookup_insert_eq.
    + apply single_insert; [apply (ii_single _ _ Hinv)|done].
  - (* the participant was not in its turn *)
    exists loc. split; [|by left].
    split; simpl.
    + done.
    + intros q. rewrite Hfences. apply (ii_fence _ _ Hinv).
    + intros q. rewrite Hstale. destruct (parity_cases p q) as [->| ->].
      * rewrite Ht'. split; [done|]. intros [->|?]; [|done].
        assert (in_turn (cworld cf) p = true) as Hcontra
          by (apply (ii_turn _ _ Hinv); by left).
        congruence.
      * rewrite Hto. apply (ii_turn _ _ Hinv).
    + intros t0 c Hl0.
      apply lookup_insert_Some in Hl0 as [[-> <-]|[Hne Hl0]]; [done|].
      by apply Hframe.
    + apply (abandon_insert cf loc); [done|].
      by destruct Hidle as [Hl|[? Hl]]; rewrite Hl.
    + apply single_insert; [apply (ii_single _ _ Hinv)|done].
Qed.

Lemma iinv_attached w :
  attached w -> iinv {| cworld := w; threads := ∅ |} (IFence P1).
Proof.
  intros Ha.
  destruct (view_fence_ready _ _ (attached_view _ Ha)) as (Ht1 & Ht0 & Hs1 & Hs0).
  assert (forall q, ~ stale {| cworld := w; threads := ∅ |} q) as Hnostale.
  { intros q (t & u & r & Hl & _). simpl in Hl. by rewrite lookup_empty in Hl. }
  simpl in *. split; simpl.
  - by apply wf_attached.
  - intros [|]; split; try done; congruence.
  - intros q. split; [|by intros [?|?%Hnostale]].
    destruct q; congruence.
  - intros t c Hl. by rewrite lookup_empty in Hl.
  - done.
  - intros t1 t2 c1 c2 u Hl. by rewrite lookup_empty in Hl.
Qed.

(** One scheduling decision of a polite schedule keeps the invariant, and
    moves the token as [iturn_step] says. *)
Lemma iinv_sched_step cf loc s cf' :
  iinv cf loc -> polite s cf = true -> sched_step s cf = Some cf' ->
  exists loc', iinv cf' loc' /\ iturn_step loc (commits s cf) loc'.
Proof.
  intros Hinv Hpol Hstep. destruct s as [t c|t env]; simpl in Hstep.
  - destruct (idle t cf) eqn:Hidle; [|done].
    destruct (start_call c cf) as [[w c']|] eqn:Hstart; [|done].
    simpl in Hstep. simplify_eq. destruct c as [kz|u|u cmd env].
    + exists loc. split; [|by left]. by eapply iinv_start_open.
    + destruct (iinv_start_close _ _ _ _ _ _ Hinv Hidle Hstart)
        as (loc' & Hinv' & [->|(p & -> & ->)]).
      * exists loc. split; [done|by left].
      * exists (IAbandon t (other p)). split; [done|].
        right; right; left. by exists t, p.
    + exists loc. split; [|by left]. by eapply iinv_start_ioctl.
  - destruct (threads cf !! t) as [c|] eqn:Hl; [|done]. simpl in Hstep.
    destruct (step_pc env (cworld cf) c) as [[w c']|] eqn:Hpc; [|done].
    simpl in Hstep. simplify_eq. unfold commits. rewrite Hl.
    destruct c as [u p|u p r|u p|u r|[q|]|q|r]; simpl.
    + exists loc. split; [|by left]. by eapply iinv_step_lock_wait.
    + simpl in Hpc. simplify_eq.
      destruct (iinv_step_lock_commit _ _ _ _ _ _ Hinv Hl) as [-> Hinv'].
      by exists (IHeld p).
    + cbn [step_pc] in Hpc.
      destruct (iinv_step_unlock_signal _ _ _ _ _ Hinv Hl)
        as (-> & Hr & Hinv').
      destruct (unlock_signal p (cworld cf)) as [r w1].
      simpl in Hr. simplify_eq. exists (IFence (other p)).
      split; [done|]. right; left. by exists p.
    + simpl in Hpc. simplify_eq. exists loc. split; [|by left].
      by apply iinv_step_unlock_clear.
    + cbn [step_pc] in Hpc.
      destruct (iinv_step_release_test _ _ _ _ Hinv Hl) as (Htest & Hinv').
      rewrite Htest in Hpc. simplify_eq. exists loc. by split; [|left].
    + simpl in Hpc. simplify_eq. exists loc. split; [|by left].
      by apply iinv_step_release_none.
    + cbn [step_pc] in Hpc.
      destruct (iinv_step_release_do _ _ _ _ Hinv Hl) as (-> & Hr & Hinv').
      destruct (release_do_signal q (cworld cf)) as [r w1].
      simpl in Hr. simplify_eq. exists (IFence q).
      split; [done|]. right; right; right. by exists t, q.
    + done.
Qed.

Lemma iturn_step_next loc loc' :
  iturn_step loc None loc' -> inext_acquirer loc' = inext_acquirer loc.
Proof.
  intros [->|[(p & -> & ->)|[(t & p & -> & ->)|(t & q & -> & ->)]]]; done.
Qed.

Lemma exec_polite_inv ss : forall cf loc log cf',
  iinv cf loc -> exec_polite ss cf = Some (log, cf') ->
  (exists loc', iinv cf' loc') /\
  alternating (inext_acquirer loc) log = true.
Proof.
  induction ss as [|s ss IH]; intros cf loc log cf' Hinv Hexec;
    simpl in Hexec.
  - simplify_eq. split; [by exists loc|done].
  - destruct (polite s cf) eqn:Hpol; [|done].
    destruct (sched_step s cf) as [cf1|] eqn:Hstep; [|done]. simpl in Hexec.
    destruct (exec_polite ss cf1) as [[log1 cf2]|] eqn:Hrest; [|done].
    simplify_eq/=.
    destruct (iinv_sched_step _ _ _ _ Hinv Hpol Hstep) as (loc1 & Hinv1 & Hmove).
    destruct (IH _ _ _ _ Hinv1 Hrest) as [Hex Halt]. split; [done|].
    destruct (commits s cf) as [p|]; simpl in *.
    + destruct Hmove as [-> ->]. simpl in *.
      by rewrite bool_decide_eq_true_2.
    + by rewrite <- (iturn_step_next _ _ Hmove).
Qed.

Lemma iinv_not_stale_held cf q :
  iinv cf (IHeld q) -> ~ stale cf q.
Proof.
  intros Hinv (t & u & r & Hl & Hq).
  destruct (ii_threads _ _ Hinv _ _ Hl) as (q' & Hq' & Hloc).
  destruct (parity_cases q q') as [->| ->]; [done|].
  by destruct (wf_other_slot _ _ _ (ii_wf _ _ Hinv) Hq).
Qed.

Lemma iinv_carries cf loc t q :
  iinv cf loc -> threads cf !! t ≫= carries = Some q -> loc = IAbandon t q.
Proof.
  intros Hinv Hc. destruct (threads cf !! t) as [c|] eqn:Hl; [|done].
  pose proof (ii_threads _ _ Hinv _ _ Hl) as Hok. simpl in Hc.
  destruct c as [v q'|v q' r|v q'|v r|[q'|]|q'|r]; simpl in *;
    by simplify_eq.
Qed.

Lemma iinv_token_at cf loc :
  iinv cf loc ->
  token_at cf loc /\ forall loc', token_at cf loc' -> loc' = loc.
Proof.
  intros Hinv. split.
  - destruct loc as [q|q|t q]; simpl.
    + by apply (ii_fence _ _ Hinv).
    + split; [apply (ii_turn _ _ Hinv); by left|].
      by apply iinv_not_stale_held.
    + by apply (ii_abandon _ _ Hinv).
  - intros [q|q|t q]; simpl.
    + intros Hs. by apply (ii_fence _ _ Hinv) in Hs.
    + unfold holds_turn. intros [Ht Hns].
      by destruct (proj1 (ii_turn _ _ Hinv q) Ht).
    + intros Hl. symmetry. by apply (iinv_carries _ _ _ _ Hinv).
Qed.

Lemma iinv_quiescent_tokens cf loc :
  iinv cf loc ->
  (forall t c, threads cf !! t = Some c -> handing_over c = false) ->
  tokens (cworld cf) = 1%nat.
Proof.
  intros Hinv Hq.
  assert (forall q, ~ stale cf q) as Hns.
  { intros q (t & u & r & Hl & _). by apply Hq in Hl. }
  assert (forall q, in_turn (cworld cf) q = true <-> loc = IHeld q) as Hturn.
  { intros q. rewrite (ii_turn _ _ Hinv). split; [|by left].
    by intros [?|?%Hns]. }
  pose proof (ii_fence _ _ Hinv) as Hfence.
  assert (forall b P, (b = true <-> P) -> ~ P -> b = false) as Hno.
  { intros [] P HP HnP; [|done]. exfalso. by apply HnP, HP. }
  assert (forall (b : bool) P, (b = true <-> P) -> P -> b = true) as Hyes.
  { intros b P HP HP'. by apply HP. }
  destruct loc as [q|q|t q].
  - apply (tokens_turn _ (FenceReady q)).
    apply (view_is_intro _ _ q true false false false).
    + by apply (Hyes _ _ (Hfence q)).
    + apply (Hno _ _ (Hfence (other q))). intros [= Hp]. by destruct q.
    + by apply (Hno _ _ (Hturn q)).
    + by apply (Hno _ _ (Hturn (other q))).
    + by destruct q.
  - apply (tokens_turn _ (Holding q)).
    apply (view_is_intro _ _ q false false true false).
    + by apply (Hno _ _ (Hfence q)).
    + by apply (Hno _ _ (Hfence (other q))).
    + by apply (Hyes _ _ (Hturn q)).
    + apply (Hno _ _ (Hturn (other q))). intros [= Hp]. by destruct q.
    + by destruct q.
  - pose proof (ii_abandon _ _ Hinv t q eq_refl) as Hl.
    destruct (threads cf !! t) as [c|] eqn:Hc; [|done].
    apply Hq in Hc. simpl in Hl.
    destruct c as [v q'|v q' r|v q'|v r|[q'|]|q'|r]; by simplify_eq/=.
Qed.

Lemma exec_polite_iinv w ss log cf :
  attached w ->
  exec_polite ss {| cworld := w; threads := ∅ |} = Some (log, cf) ->
  exists loc, iinv cf loc.
Proof.
  intros Ha Hexec.
  by destruct (exec_polite_inv ss _ _ _ _ (iinv_attached _ Ha) Hexec).
Qed.

(** [sched_overlap] is polite; its two acquisitions are the one of parity
    1 and then the one of parity 0. *)
Lemma exec_polite_cf_overlap :
  exec_polite sched_overlap cf_attach = Some ([P1; P0], cf_overlap).
Proof. reflexivity. Defined.

(** ** Order, exclusion and conservation while calls interleave *)

(** C1 (amended): provided every open file has at most one control call
    in progress at a time, the acquisitions (the lock calls that pass the
    wait, re-arm the fence and set the flag), taken in the order in which
    they happen from the attach on, alternate strictly in parity and
    begin with parity 1: the first acquisition is by the parity-1
    participant and no two consecutive acquisitions have the same
    parity. *)
Theorem acquisitions_alternate_from_parity1 w ss log cf :
  attached w ->
  exec_polite ss {| cworld := w; threads := ∅ |} = Some (log, cf) ->
  alternating P1 log = true.
Proof.
  intros Ha Hexec.
  by destruct (exec_polite_inv ss _ _ _ _ (iinv_attached _ Ha) Hexec).
Qed.

Lemma acquisitions_alternate_from_parity1_witness :
  attached w_attach /\
  exec_polite sched_overlap cf_attach = Some ([P1; P0], cf_overlap) /\
  alternating P1 [P1; P0] = true.
Proof.
  split; [exact attached_w_attach|].
  split; [exact exec_polite_cf_overlap|].
  exact (acquisitions_alternate_from_parity1 w_attach sched_overlap
           [P1; P0] cf_overlap attached_w_attach exec_polite_cf_overlap).
Defined.

(** C2 (amended): provided every open file has at most one control call
    in progress at a time, in every state reached from the attach the two
    participants are never in their turns together, a participant being
    in its turn from the moment its lock call sets the flag to the moment
    its unlock call signals the other fence; the two flags are both true
    only while the participant of one parity is inside an unlock call
    that has signaled and has not yet cleared its flag. *)
Theorem turns_never_overlap w ss log cf :
  attached w ->
  exec_polite ss {| cworld := w; threads := ∅ |} = Some (log, cf) ->
  ~ (holds_turn cf P0 /\ holds_turn cf P1) /\
  (in_turn (cworld cf) P0 = true -> in_turn (cworld cf) P1 = true ->
   stale cf P0 \/ stale cf P1).
Proof.
  intros Ha Hexec.
  destruct (exec_polite_iinv _ _ _ _ Ha Hexec) as [loc Hinv].
  destruct (iinv_token_at _ _ Hinv) as [_ Huniq]. split.
  - intros [H0 H1].
    pose proof (Huniq (IHeld P0) H0). pose proof (Huniq (IHeld P1) H1).
    congruence.
  - intros H0 H1.
    apply (ii_turn _ _ Hinv) in H0 as [H0|?]; [|by left].
    apply (ii_turn _ _ Hinv) in H1 as [H1|?]; [|by right].
    congruence.
Qed.

Lemma turns_never_overlap_witness :
  attached w_attach /\
  exec_polite sched_overlap cf_attach = Some ([P1; P0], cf_overlap) /\
  ~ (holds_turn cf_overlap P0 /\ holds_turn cf_overlap P1).
Proof.
  split; [exact attached_w_attach|].
  split; [exact exec_polite_cf_overlap|].
  exact (proj1 (turns_never_overlap w_attach sched_overlap [P1; P0]
                  cf_overlap attached_w_attach exec_polite_cf_overlap)).
Defined.

(** C10 (amended): provided every open file has at most one control call
    in progress at a time, in every state reached from the attach there
    is exactly one token, a token being a signaled fence, a participant
    in its turn (its flag set, its unlock not yet past the signal), or a
    close that has disconnected a participant in its turn and has yet to
    signal; when no unlock and no such close is between its two sections,
    the signaled fences and the set flags number one in all.  An
    acquisition by parity [p] moves the token from [fence[p]] to the
    participant; any other scheduling decision leaves it in place, moves
    it from the participant of parity [p] to [fence[1-p]] (unlock), or
    moves it there through the closing thread (abandonment). *)
Theorem one_token_handed_round w ss log cf :
  attached w ->
  exec_polite ss {| cworld := w; threads := ∅ |} = Some (log, cf) ->
  (exists loc, token_at cf loc /\ forall loc', token_at cf loc' -> loc' = loc) /\
  ((forall t c, threads cf !! t = Some c -> handing_over c = false) ->
   tokens (cworld cf) = 1%nat) /\
  (forall s cf' loc loc',
     polite s cf = true -> sched_step s cf = Some cf' ->
     token_at cf loc -> token_at cf' loc' ->
     iturn_step loc (commits s cf) loc').
Proof.
  intros Ha Hexec.
  destruct (exec_polite_iinv _ _ _ _ Ha Hexec) as [loc0 Hinv].
  destruct (iinv_token_at _ _ Hinv) as [Hat Huniq].
  split; [by exists loc0|]. split; [by apply (iinv_quiescent_tokens _ loc0)|].
  intros s cf' loc loc' Hpol Hstep Hloc Hloc'.
  apply Huniq in Hloc as ->.
  destruct (iinv_sched_step _ _ _ _ Hinv Hpol Hstep) as (loc1 & Hinv1 & Hmove).
  destruct (iinv_token_at _ _ Hinv1) as [_ Huniq1].
  by apply Huniq1 in Hloc' as ->.
Qed.

Lemma one_token_handed_round_witness :
  attached w_attach /\
  exec_polite sched_overlap cf_attach = Some ([P1; P0], cf_overlap) /\
  exists loc,
    token_at cf_overlap loc /\
    forall loc', token_at cf_overlap loc' -> loc' = loc.
Proof.
  split; [exact attached_w_attach|].
  split; [exact exec_polite_cf_overlap|].
  exact (proj1 (one_token_handed_round w_attach sched_overlap [P1; P0]
                  cf_overlap attached_w_attach exec_polite_cf_overlap)).
Defined.

(** * Further properties of the drivers and their user programs *)

(** ** Objects obtained and given back *)

Ltac probe_cases env :=
  destruct env as [dev_ok chr dc ctx f0 f1 bo co ex ca]; simpl;
  destruct dev_ok, f0, f1, bo, co; simpl;
  destruct (Z.ltb_spec chr 0), (Z.ltb_spec dc 0), (Z.ltb_spec ex 0),
           (Z.ltb_spec ca 0); simpl.

(** X1: [dmapp_platform_driver_probe] ends in one of two ways.  Either it
    fails, at whichever step: then its status is negative, every object it
    had obtained has been given back, once and in the reverse order of
    acquisition, so that nothing is held, and no device is left.  Or it
    returns 0: then it holds all nine objects of [probe_holds], the
    character device having been made live last, and the device is
    attached. *)
Theorem probe_gives_back_on_failure env :
  ((probe_events env).1 < 0 /\
   unwind [] (probe_events env).2 = Some [] /\
   dmapp_platform_driver_probe env = ((probe_events env).1, None)) \/
  ((probe_events env).1 = 0 /\
   unwind [] (probe_events env).2 = Some probe_holds /\
   last (probe_events env).2 = Some (Acquire RCdev) /\
   exists d, dmapp_platform_driver_probe env = (0, Some d)).
Proof.
  unfold probe_events, dmapp_platform_driver_probe.
  probe_cases env;
    try (left; split_and!; [unfold ENOMEM; lia|reflexivity|reflexivity]).
  right. split_and!; try reflexivity. by eexists.
Qed.

(** X2: after a successful probe, [dmapp_platform_driver_remove] returns 0
    and, when nobody else holds a reference to the exported buffer, gives
    back everything the probe holds, in the reverse order of acquisition:
    nothing stays held.  While another reference exists, the remove frees
    neither the coherent memory nor the buffer structure. *)
Theorem probe_then_remove_gives_all_back env :
  (probe_events env).1 = 0 ->
  (dmapp_platform_driver_remove 0).1 = 0 /\
  unwind [] ((probe_events env).2 ++ (dmapp_platform_driver_remove 0).2)
    = Some [] /\
  (dmapp_platform_driver_remove 0).2 = map Release probe_holds /\
  forall n r,
    Release r ∈ (dmapp_platform_driver_remove (S n)).2 ->
    r <> RCoherent /\ r <> RBuffer.
Proof.
  intros Hret. split; [done|]. split.
  - revert Hret. unfold probe_events.
    probe_cases env; intros Hret; try (exfalso; unfold ENOMEM in *; lia).
    reflexivity.
  - split; [reflexivity|]. intros n r. unfold dmapp_platform_driver_remove.
    simpl. intros Hin.
    repeat (apply elem_of_cons in Hin as [[= ->]|Hin]; [done|]).
    by apply elem_of_nil in Hin.
Qed.

Lemma probe_then_remove_gives_all_back_witness :
  (probe_events env_ok).1 = 0 /\
  unwind [] ((probe_events env_ok).2 ++ (dmapp_platform_driver_remove 0).2)
    = Some [].
Proof.
  split; [reflexivity|].
  exact (proj1 (proj2 (probe_then_remove_gives_all_back env_ok eq_refl))).
Defined.

(** X3: [dmapp_buf_map] either fails, and then its error is [-ENOMEM]
    whichever step failed (the allocation of the table, [sg_alloc_table]
    or [dma_map_sg]) and every partial allocation has been released; or it
    returns a table with a single entry that covers the whole buffer from
    offset 0, and a following [dmapp_buf_unmap] releases the mapping, the
    scatterlist and the table, in this order, leaving nothing. *)
Theorem buf_map_gives_back_on_failure buffer env :
  ((dmapp_buf_map buffer env).1 = inl (- ENOMEM) /\
   unwind [] (dmapp_buf_map buffer env).2 = Some []) \/
  ((dmapp_buf_map buffer env).1
     = inr {| sgl := [ {| sg_page_of := vaddr buffer;
                          sg_length := buffer_size buffer;
                          sg_offset := 0 |} ] |} /\
   kzalloc_sgt_ok env = true /\ sg_alloc_table_ret env = 0 /\
   dma_map_sg_ret env <> 0 /\
   unwind [] (dmapp_buf_map buffer env).2 = Some [RSgMapping; RSgTable; RSgt] /\
   unwind [] ((dmapp_buf_map buffer env).2 ++ dmapp_buf_unmap) = Some []).
Proof.
  unfold dmapp_buf_map. destruct env as [ok sa dm]; simpl.
  destruct ok; simpl; [|by left].
  destruct (Z.eqb_spec sa 0); simpl; [|by left].
  destruct (Z.eqb_spec dm 0); simpl; [by left|].
  right. by split_and!.
Qed.

(** X4: [dmapp_module_init] either fails with the negative code of the
    registration that failed, having undone the registrations made before
    it in reverse order, or returns 0 with the platform device, the class
    and the platform driver registered; [dmapp_module_exit] then undoes
    the three in reverse order. *)
Theorem module_init_gives_back_on_failure env :
  ((dmapp_module_init env).1 < 0 /\
   unwind [] (dmapp_module_init env).2 = Some []) \/
  ((dmapp_module_init env).1 = 0 /\
   unwind [] (dmapp_module_init env).2
     = Some [RPlatformDriver; RClass; RPlatformDevice] /\
   unwind [] ((dmapp_module_init env).2 ++ dmapp_module_exit) = Some []).
Proof.
  unfold dmapp_module_init. destruct env as [pd cc dr]; simpl.
  destruct (Z.ltb_spec pd 0), (Z.ltb_spec cc 0), (Z.ltb_spec dr 0); simpl;
    try (left; split; [lia|reflexivity]).
  right. by split_and!.
Qed.

(** ** Control calls run on their own *)

Lemma validate_user_frame u w w' :
  user (dev w') = user (dev w) -> validate_user u w' = validate_user u w.
Proof. intros Hu. unfold validate_user, slot_is. by rewrite Hu. Qed.

Lemma user_lock_commit u p w : user (dev (lock_commit u p w)) = user (dev w).
Proof. done. Qed.

Lemma user_unlock u p w :
  user (dev (unlock_clear u (unlock_signal p w).2)) = user (dev w).
Proof. unfold unlock_signal. by destruct (dma_fence_signal _). Qed.

Lemma mem_unlock_signal p w : mem (unlock_signal p w).2 = mem w.
Proof. unfold unlock_signal. by destruct (dma_fence_signal _). Qed.

Lemma locked_at_unlock u p w :
  is_Some (mem w !! u) ->
  locked_at (unlock_clear u (unlock_signal p w).2) u = false.
Proof.
  intros Ha. apply locked_at_set_is_locked_eq. by rewrite mem_unlock_signal.
Qed.

Lemma lock_cases w u p env :
  validate_user u w = Some p -> is_Some (mem w !! u) ->
  dmapp_cdev_ioctl u DMAPP_IOCTL_BUFFER_LOCK env w =
  Some (if locked_at w u then (Returned 0, w)
        else if fence_signaled w p then (Returned 0, lock_commit u p w)
        else if signal_pending env then (Returned (- ERESTARTSYS), w)
        else (Blocked, w)).
Proof.
  intros Hv Ha. destruct (locked_at w u) eqn:Hl.
  - by apply (ioctl_lock_held w u p).
  - rewrite (ioctl_lock_free w u p env Hv Ha Hl).
    destruct (fence_signaled w p) eqn:Hf.
    + by rewrite (lock_wait_signaled w p env Hf).
    + rewrite (lock_wait_pending w p env Hf). by destruct (signal_pending env).
Qed.

Lemma unlock_cases w u p env :
  validate_user u w = Some p -> is_Some (mem w !! u) ->
  dmapp_cdev_ioctl u DMAPP_IOCTL_BUFFER_UNLOCK env w =
  Some (if locked_at w u
        then (Returned (if fence_signaled w (other p) then - EINVAL else 0),
              unlock_clear u (unlock_signal p w).2)
        else (Returned 0, w)).
Proof.
  intros Hv Ha. destruct (locked_at w u) eqn:Hl.
  - rewrite (ioctl_unlock_held w u p env Hv Hl). by rewrite unlock_signal_ret.
  - by apply (ioctl_unlock_free w u p).
Qed.

Lemma alter_is_Some (m : gmap addr dmapp_user) f u v :
  is_Some (alter f u m !! v) <-> is_Some (m !! v).
Proof.
  destruct (decide (v = u)) as [->|Hne].
  - rewrite lookup_alter_eq. destruct (m !! u); simpl; naive_solver.
  - by rewrite lookup_alter_ne.
Qed.

(** X5: a lock call of a registered caller ends in exactly one of three
    ways.  It returns 0, and then the caller's flag is set on return:
    either it was set already and nothing changed, or the caller's own
    fence was signaled and has been re-armed, so that on return it is
    pending again, freshly initialised with context 0 and the caller's
    parity as sequence number, while the other fence is as it was.  It
    returns [-ERESTARTSYS] with the state unchanged: the fence was pending
    and a process signal was pending.  Or it stays asleep with the state
    unchanged: the fence was pending and no signal was. *)
Theorem lock_call_outcomes w u p env o w' :
  validate_user u w = Some p ->
  dmapp_cdev_ioctl u DMAPP_IOCTL_BUFFER_LOCK env w = Some (o, w') ->
  (o = Returned 0 /\ locked_at w' u = true /\
   (locked_at w u = true /\ w' = w \/
    locked_at w u = false /\ fence_signaled w p = true /\
    w' = lock_commit u p w /\
    fence_signaled w' p = false /\
    nth2 (fence (dev w')) p = dma_fence_init 0 (parity_Z p) /\
    nth2 (fence (dev w')) (other p) = nth2 (fence (dev w)) (other p))) \/
  (o = Returned (- ERESTARTSYS) /\ w' = w /\ locked_at w u = false /\
   fence_signaled w p = false /\ signal_pending env = true) \/
  (o = Blocked /\ w' = w /\ locked_at w u = false /\
   fence_signaled w p = false /\ signal_pending env = false).
Proof.
  intros Hv Hio. pose proof (ioctl_allocated _ _ _ _ _ _ Hio) as Ha.
  rewrite (lock_cases w u p env Hv Ha) in Hio.
  destruct (locked_at w u) eqn:Hl; [|destruct (fence_signaled w p) eqn:Hf;
    [|destruct (signal_pending env) eqn:Hs]]; simplify_eq.
  - left. split_and!; [done..|]. by left.
  - left. split_and!; [done|by apply locked_at_lock_commit|]. right.
    split_and!; [done..| | |].
    + unfold fence_signaled, lock_commit, wait_fence_of. simpl.
      by rewrite nth2_upd2_eq.
    + unfold lock_commit, wait_fence_of. simpl. apply nth2_upd2_eq.
    + unfold lock_commit, wait_fence_of. simpl. apply nth2_upd2_other.
  - right; left. by split_and!.
  - right; right. by split_and!.
Qed.

Lemma lock_call_outcomes_witness :
  validate_user ub w_two = Some P1 /\
  dmapp_cdev_ioctl ub DMAPP_IOCTL_BUFFER_LOCK awake w_two
    = Some (Returned 0, lock_commit ub P1 w_two) /\
  locked_at (lock_commit ub P1 w_two) ub = true.
Proof.
  split; [reflexivity|]. split; [reflexivity|].
  destruct (lock_call_outcomes w_two ub P1 awake (Returned 0)
              (lock_commit ub P1 w_two) eq_refl eq_refl)
    as [(_ & Hl & _)|[(Ho & _)|(Ho & _)]]; [exact Hl|discriminate..].
Defined.

(** X6: an unlock call of a registered caller never sleeps and always
    leaves the caller's flag clear.  It returns 0 without any change when
    the flag was clear; otherwise the other parity's fence is signaled on
    return, and the result is 0 when that fence was pending and [-EINVAL]
    when it was signaled already. *)
Theorem unlock_call_outcomes w u p env o w' :
  validate_user u w = Some p ->
  dmapp_cdev_ioctl u DMAPP_IOCTL_BUFFER_UNLOCK env w = Some (o, w') ->
  locked_at w' u = false /\
  (o = Returned 0 /\ locked_at w u = false /\ w' = w \/
   o = Returned 0 /\ locked_at w u = true /\
   fence_signaled w (other p) = false /\ fence_signaled w' (other p) = true \/
   o = Returned (- EINVAL) /\ locked_at w u = true /\
   fence_signaled w (other p) = true /\ fence_signaled w' (other p) = true).
Proof.
  intros Hv Hio. pose proof (ioctl_allocated _ _ _ _ _ _ Hio) as Ha.
  rewrite (unlock_cases w u p env Hv Ha) in Hio.
  destruct (locked_at w u) eqn:Hl; simplify_eq.
  - split; [by apply locked_at_unlock|]. rewrite fence_signaled_unlock.
    destruct (fence_signaled w (other p)); [right; right|right; left];
      by split_and!.
  - split; [done|]. by left.
Qed.

Lemma unlock_call_outcomes_witness :
  validate_user ub (lock_commit ub P1 w_two) = Some P1 /\
  dmapp_cdev_ioctl ub DMAPP_IOCTL_BUFFER_UNLOCK awake (lock_commit ub P1 w_two)
    = Some (Returned 0,
            unlock_clear ub (unlock_signal P1 (lock_commit ub P1 w_two)).2) /\
  locked_at (unlock_clear ub (unlock_signal P1 (lock_commit ub P1 w_two)).2) ub
    = false.
Proof.
  split; [reflexivity|]. split; [reflexivity|].
  exact (proj1 (unlock_call_outcomes (lock_commit ub P1 w_two) ub P1 awake
                  (Returned 0) _ eq_refl eq_refl)).
Defined.

(** X7: lock and unlock are idempotent.  Once a lock call has returned 0,
    every further lock call of the same file returns 0 at once and
    changes nothing, even with a process signal pending; once an unlock
    call has returned, with whatever result, every further unlock call of
    the same file returns 0 and changes nothing. *)
Theorem repeated_call_returns_at_once w u p :
  validate_user u w = Some p ->
  (forall env1 w1,
     dmapp_cdev_ioctl u DMAPP_IOCTL_BUFFER_LOCK env1 w = Some (Returned 0, w1) ->
     forall env2,
       dmapp_cdev_ioctl u DMAPP_IOCTL_BUFFER_LOCK env2 w1
         = Some (Returned 0, w1)) /\
  (forall env1 ret w1,
     dmapp_cdev_ioctl u DMAPP_IOCTL_BUFFER_UNLOCK env1 w
       = Some (Returned ret, w1) ->
     forall env2,
       dmapp_cdev_ioctl u DMAPP_IOCTL_BUFFER_UNLOCK env2 w1
         = Some (Returned 0, w1)).
Proof.
  intros Hv. split.
  - intros env1 w1 Hio env2.
    pose proof (ioctl_allocated _ _ _ _ _ _ Hio) as Ha.
    rewrite (lock_cases w u p env1 Hv Ha) in Hio.
    destruct (locked_at w u) eqn:Hl; [|destruct (fence_signaled w p);
      [|destruct (signal_pending env1)]]; simplify_eq.
    + by apply (ioctl_lock_held w1 u p).
    + apply (ioctl_lock_held _ u p); [|by apply locked_at_lock_commit].
      by rewrite (validate_user_frame u w _ (user_lock_commit u p w)).
  - intros env1 ret w1 Hio env2.
    pose proof (ioctl_allocated _ _ _ _ _ _ Hio) as Ha.
    rewrite (unlock_cases w u p env1 Hv Ha) in Hio.
    destruct (locked_at w u) eqn:Hl; simplify_eq.
    + apply (ioctl_unlock_free _ u p).
      * by rewrite (validate_user_frame u w _ (user_unlock u p w)).
      * simpl. rewrite mem_unlock_signal. by apply alter_is_Some.
      * by apply locked_at_unlock.
    + by apply (ioctl_unlock_free w1 u p).
Qed.

Lemma repeated_call_returns_at_once_witness :
  validate_user ub w_two = Some P1 /\
  dmapp_cdev_ioctl ub DMAPP_IOCTL_BUFFER_LOCK awake w_two
    = Some (Returned 0, lock_commit ub P1 w_two) /\
  dmapp_cdev_ioctl ub DMAPP_IOCTL_BUFFER_LOCK interrupted
      (lock_commit ub P1 w_two)
    = Some (Returned 0, lock_commit ub P1 w_two).
Proof.
  split; [reflexivity|]. split; [reflexivity|].
  exact (proj1 (repeated_call_returns_at_once w_two ub P1 eq_refl)
           awake (lock_commit ub P1 w_two) eq_refl interrupted).
Defined.

(** X8: a control call touches only what belongs to its caller.  Whatever
    the command and its result, the two slots are as before, no user
    structure is allocated or freed, and the structure of every other
    file is unchanged.  Of the fences, a call other than unlock leaves the
    other parity's fence as it was, and a call other than lock leaves the
    caller's own fence as it was.  A caller that is in no slot changes
    nothing at all. *)
Theorem ioctl_touches_only_caller w u cmd env o w' :
  dmapp_cdev_ioctl u cmd env w = Some (o, w') ->
  user (dev w') = user (dev w) /\
  (forall v, is_Some (mem w' !! v) <-> is_Some (mem w !! v)) /\
  (forall v, v <> u -> mem w' !! v = mem w !! v) /\
  (forall p, validate_user u w = Some p ->
     (cmd <> DMAPP_IOCTL_BUFFER_UNLOCK ->
      nth2 (fence (dev w')) (other p) = nth2 (fence (dev w)) (other p)) /\
     (cmd <> DMAPP_IOCTL_BUFFER_LOCK ->
      nth2 (fence (dev w')) p = nth2 (fence (dev w)) p)) /\
  (validate_user u w = None -> w' = w).
Proof.
  intros Hio. pose proof (ioctl_allocated _ _ _ _ _ _ Hio) as Ha.
  destruct (validate_user u w) as [p|] eqn:Hv; cycle 1.
  { rewrite (ioctl_invalid w u cmd env Ha Hv) in Hio. simplify_eq.
    by split_and!. }
  destruct (decide (cmd = DMAPP_IOCTL_BUFFER_LOCK)) as [->|Hnl].
  - rewrite (lock_cases w u p env Hv Ha) in Hio.
    destruct (locked_at w u); [|destruct (fence_signaled w p);
      [|destruct (signal_pending env)]]; simplify_eq;
      try (split_and!; [done..| |done]; intros q [= <-]; by split).
    split_and!; [done| | | |done].
    + intros v. apply alter_is_Some.
    + intros v Hne. simpl. by rewrite lookup_alter_ne.
    + intros q [= <-]. split; [|done]. intros _. simpl.
      unfold wait_fence_of. apply nth2_upd2_other.
  - destruct (decide (cmd = DMAPP_IOCTL_BUFFER_UNLOCK)) as [->|Hnu].
    + rewrite (unlock_cases w u p env Hv Ha) in Hio.
      destruct (locked_at w u); simplify_eq.
      * split_and!; [apply user_unlock| | | |done].
        -- intros v. simpl. rewrite mem_unlock_signal. apply alter_is_Some.
        -- intros v Hne. simpl. rewrite mem_unlock_signal.
           by rewrite lookup_alter_ne.
        -- intros q [= <-]. split; [done|]. intros _. simpl.
           unfold unlock_signal, signal_fence_of.
           destruct (dma_fence_signal _) as [r f]. simpl.
           rewrite nth2_upd2_ne; [done|apply other_neq].
      * split_and!; [done..| |done]. intros q [= <-]. by split.
    + destruct (ioctl_other _ _ _ _ _ _ Hnl Hnu Hio) as [-> _].
      split_and!; [done..| |done]. intros q [= <-]. by split.
Qed.

Lemma ioctl_touches_only_caller_witness :
  dmapp_cdev_ioctl ub DMAPP_IOCTL_BUFFER_LOCK awake w_two
    = Some (Returned 0, lock_commit ub P1 w_two) /\
  user (dev (lock_commit ub P1 w_two)) = user (dev w_two) /\
  mem (lock_commit ub P1 w_two) !! ua = mem w_two !! ua.
Proof.
  split; [reflexivity|].
  pose proof (ioctl_touches_only_caller w_two ub DMAPP_IOCTL_BUFFER_LOCK awake
                (Returned 0) (lock_commit ub P1 w_two) eq_refl)
    as (Hu & _ & Hm & _).
  split; [exact Hu|]. apply Hm. discriminate.
Defined.

(** ** The registry under any schedule *)

Lemma wf_frame w w' :
  user (dev w') = user (dev w) ->
  (forall v, is_Some (mem w' !! v) <-> is_Some (mem w !! v)) ->
  wf w -> wf w'.
Proof.
  intros Hu Hm [Ha Hd Hr]. split.
  - intros p u. rewrite Hu, Hm. apply Ha.
  - intros u. rewrite Hu. apply Hd.
  - intros u. rewrite Hu, Hm. apply Hr.
Qed.

Lemma step_pc_frame env w c w' c' :
  step_pc env w c = Some (w', c') ->
  user (dev w') = user (dev w) /\
  (forall v, is_Some (mem w' !! v) <-> is_Some (mem w !! v)).
Proof.
  destruct c as [u p|u p ret|u p|u ret|sf|k|ret]; simpl; intros Hs.
  - destruct (lock_wait p env w); simplify_eq/=. done.
  - simplify_eq. split; [done|]. intros v. unfold lock_commit. simpl.
    destruct (decide (v = u)) as [->|Hne].
    + rewrite lookup_alter_eq. destruct (mem w !! u); simpl; naive_solver.
    + by rewrite lookup_alter_ne.
  - unfold unlock_signal in Hs. destruct (dma_fence_signal _). by simplify_eq.
  - simplify_eq. split; [done|]. intros v. unfold unlock_clear. simpl.
    destruct (decide (v = u)) as [->|Hne].
    + rewrite lookup_alter_eq. destruct (mem w !! u); simpl; naive_solver.
    + by rewrite lookup_alter_ne.
  - destruct (release_test sf w); by simplify_eq.
  - unfold release_do_signal in Hs. destruct (dma_fence_signal _).
    by simplify_eq.
  - done.
Qed.

Lemma release_disconnect_wf w u sf w' :
  wf w -> release_disconnect u w = Some (sf, w') ->
  wf w' /\
  forall v p, v <> u -> nth2 (user (dev w)) p = Some v ->
    nth2 (user (dev w')) p = Some v.
Proof.
  intros Hwf Hr.
  destruct (mem w !! u) as [usr|] eqn:Hm;
    [|by unfold release_disconnect in Hr; rewrite Hm in Hr].
  destruct (wf_validate w u Hwf (mk_is_Some _ _ Hm)) as [p Hv].
  rewrite (release_disconnect_validated w u p usr Hv Hm) in Hr. simplify_eq.
  apply validate_user_eq in Hv.
  split; [by apply wf_disconnect|].
  intros v q Hne Hq. simpl. destruct (decide (p = q)) as [->|Hpq].
  - congruence.
  - by rewrite nth2_upd2_ne.
Qed.

Lemma sched_step_registry s cf cf' :
  wf (cworld cf) -> sched_step s cf = Some cf' ->
  wf (cworld cf') /\
  forall u p, closes u s = false ->
    validate_user u (cworld cf) = Some p ->
    validate_user u (cworld cf') = Some p.
Proof.
  intros Hwf Hs. destruct s as [t c|t env]; simpl in Hs.
  - destruct (idle t cf); [|done].
    destruct (start_call c cf) as [[w' c']|] eqn:Hc; simplify_eq/=.
    destruct c as [kz|v|v cmd env]; simpl in Hc.
    + destruct (fresh kz (cworld cf)) eqn:Hf; [|done].
      destruct (dmapp_cdev_open kz (cworld cf)) as [r w1] eqn:Ho. simplify_eq.
      destruct (open_effect _ _ _ _ Hwf Hf Ho) as [Hwf' _].
      split; [done|]. intros u p _ Hv.
      apply validate_user_slot; [done|].
      apply validate_user_eq in Hv.
      by destruct (open_frame _ _ _ _ Hwf Hf Ho p u Hv).
    + destruct (quiet v cf); [|done].
      destruct (release_disconnect v (cworld cf)) as [[sf w1]|] eqn:Hr;
        simplify_eq/=.
      destruct (release_disconnect_wf _ _ _ _ Hwf Hr) as [Hwf' Hkeep].
      split; [done|]. intros u p Hcl Hv.
      apply validate_user_slot; [done|].
      apply Hkeep; [|by apply validate_user_eq].
      intros ->. simpl in Hcl. by rewrite bool_decide_eq_true_2 in Hcl.
    + destruct (ioctl_entry v cmd env (cworld cf)); by simplify_eq/=.
  - destruct (threads cf !! t) as [c|]; [|done]. simpl in Hs.
    destruct (step_pc env (cworld cf) c) as [[w' c']|] eqn:Hc; simplify_eq/=.
    destruct (step_pc_frame _ _ _ _ _ Hc) as [Hu Hm].
    split; [by apply (wf_frame (cworld cf))|].
    intros u p _ Hv. by rewrite (validate_user_frame u _ _ Hu).
Qed.

Lemma exec_registry ss : forall cf cf',
  wf (cworld cf) -> exec ss cf = Some cf' ->
  wf (cworld cf') /\
  forall u p, forallb (fun s => negb (closes u s)) ss = true ->
    validate_user u (cworld cf) = Some p ->
    validate_user u (cworld cf') = Some p.
Proof.
  induction ss as [|s ss IH]; intros cf cf' Hwf He; simpl in He.
  - by simplify_eq.
  - destruct (sched_step s cf) as [cf1|] eqn:Hs; [|done]. simpl in He.
    destruct (sched_step_registry _ _ _ Hwf Hs) as [Hwf1 Hv1].
    destruct (IH _ _ Hwf1 He) as [Hwf' Hv'].
    split; [done|]. intros u p Hall Hv. simpl in Hall.
    apply andb_true_iff in Hall as [Hs1 Hall].
    apply Hv'; [done|]. apply Hv1; [|done]. by apply negb_true_iff.
Qed.

(** X9: the registry stays sound under every schedule, also when threads
    share a file and their calls interleave at will.  In every
    configuration reached from an attach, the allocated user structures
    are exactly those in a slot, so that at most two files are open (of
    any three open files two are the same), and no control call can take
    the invalid-user branch: its caller always has a parity. *)
Theorem registry_sound_under_any_schedule w ss cf :
  attached w -> exec ss {| cworld := w; threads := ∅ |} = Some cf ->
  (forall u, is_Some (mem (cworld cf) !! u) <->
             exists p, validate_user u (cworld cf) = Some p) /\
  (forall u1 u2 u3,
     is_Some (mem (cworld cf) !! u1) -> is_Some (mem (cworld cf) !! u2) ->
     is_Some (mem (cworld cf) !! u3) -> u1 = u2 \/ u1 = u3 \/ u2 = u3) /\
  (forall u cmd env o w',
     dmapp_cdev_ioctl u cmd env (cworld cf) = Some (o, w') ->
     exists p, validate_user u (cworld cf) = Some p).
Proof.
  intros Ha He.
  destruct (exec_registry ss {| cworld := w; threads := ∅ |} cf
              (wf_attached w Ha) He) as [Hwf _].
  assert (forall u, is_Some (mem (cworld cf) !! u) ->
                    exists p, validate_user u (cworld cf) = Some p) as Hval.
  { intros u. by apply wf_validate. }
  split_and!.
  - intros u. split; [apply Hval|]. intros [p Hv].
    apply (wf_alloc _ Hwf p). by apply validate_user_eq.
  - intros u1 u2 u3 H1 H2 H3.
    destruct (Hval u1 H1) as [p1 Hp1], (Hval u2 H2) as [p2 Hp2],
             (Hval u3 H3) as [p3 Hp3].
    apply validate_user_eq in Hp1, Hp2, Hp3.
    destruct p1, p2, p3; simpl in *; try (left; congruence);
      try (right; left; congruence); right; right; congruence.
  - intros u cmd env o w' Hio. apply Hval. by eapply ioctl_allocated.
Qed.

Lemma registry_sound_under_any_schedule_witness :
  attached w_attach /\
  exec [Start ta (Open (Some ua)); Start tb (Open (Some ub));
        Start tb (lock ub); Start tc (lock ub)] cf_attach
    = Some {| cworld := w_two;
              threads := {[ ta := PcReturn 0; tb := PcLockWait ub P1;
                            tc := PcLockWait ub P1 ]} |} /\
  exists p, validate_user ub w_two = Some p.
Proof.
  assert (exec [Start ta (Open (Some ua)); Start tb (Open (Some ub));
                Start tb (lock ub); Start tc (lock ub)] cf_attach
          = Some {| cworld := w_two;
                    threads := {[ ta := PcReturn 0; tb := PcLockWait ub P1;
                                  tc := PcLockWait ub P1 ]} |}) as He
    by (vm_compute; reflexivity).
  split; [exact attached_w_attach|]. split; [exact He|].
  apply (proj1 (registry_sound_under_any_schedule w_attach _ _
                  attached_w_attach He) ub).
  vm_compute. by eexists.
Defined.

Lemma ioctl_query w u p env cmd :
  validate_user u w = Some p -> is_Some (mem w !! u) ->
  cmd <> DMAPP_IOCTL_BUFFER_LOCK -> cmd <> DMAPP_IOCTL_BUFFER_UNLOCK ->
  dmapp_cdev_ioctl u cmd env w =
  Some (Returned
          (if cmd =? DMAPP_IOCTL_GET_BUFFER_SIZE then DMAPP_BUFFER_SIZE
           else if cmd =? DMAPP_IOCTL_GET_BUFFER_PARITY then parity_Z p
           else if cmd =? DMAPP_IOCTL_GET_BUFFER_FD then dma_buf_fd env
           else - ENOTTY), w).
Proof.
  intros Hv [usr Hm] Hnl Hnu. unfold dmapp_cdev_ioctl, ioctl_entry.
  rewrite Hm. simpl. rewrite Hv.
  apply Z.eqb_neq in Hnl, Hnu. rewrite Hnl, Hnu. simpl.
  by repeat case_match.
Qed.

(** X10: the parity of a file is fixed for as long as the file is open.
    Whatever the other calls between, and however they interleave, as
    long as the schedule does not close the file the caller stays in the
    slot it was given, and [DMAPP_IOCTL_GET_BUFFER_PARITY] returns that
    slot's index. *)
Theorem parity_fixed_while_open w ss1 cf1 ss2 cf2 u p :
  attached w -> exec ss1 {| cworld := w; threads := ∅ |} = Some cf1 ->
  validate_user u (cworld cf1) = Some p ->
  exec ss2 cf1 = Some cf2 ->
  forallb (fun s => negb (closes u s)) ss2 = true ->
  validate_user u (cworld cf2) = Some p /\
  forall env,
    dmapp_cdev_ioctl u DMAPP_IOCTL_GET_BUFFER_PARITY env (cworld cf2)
      = Some (Returned (parity_Z p), cworld cf2).
Proof.
  intros Ha He1 Hv He2 Hall.
  destruct (exec_registry ss1 {| cworld := w; threads := ∅ |} cf1
              (wf_attached w Ha) He1) as [Hwf1 _].
  destruct (exec_registry ss2 _ _ Hwf1 He2) as [Hwf2 Hkeep].
  pose proof (Hkeep u p Hall Hv) as Hv2.
  split; [done|]. intros env.
  rewrite (ioctl_query _ u p env DMAPP_IOCTL_GET_BUFFER_PARITY Hv2);
    [done| |done..].
  apply (wf_alloc _ Hwf2 p). by apply validate_user_eq.
Qed.

Lemma parity_fixed_while_open_witness :
  attached w_attach /\
  exec [Start ta (Open (Some ua)); Start tb (Open (Some ub))] cf_attach
    = Some {| cworld := w_two;
              threads := {[ ta := PcReturn 0; tb := PcReturn 0 ]} |} /\
  validate_user ub w_two = Some P1 /\
  exec [Start ta (Close ua); Start tc (Open (Some uc))]
       {| cworld := w_two;
          threads := {[ ta := PcReturn 0; tb := PcReturn 0 ]} |}
    = Some {| cworld :=
                (dmapp_cdev_open (Some uc)
                   (kfree_user ua (set_user P0 None w_two))).2;
              threads := {[ ta := PcReleaseSignal None; tb := PcReturn 0;
                            tc := PcReturn 0 ]} |} /\
  validate_user ub
    (dmapp_cdev_open (Some uc) (kfree_user ua (set_user P0 None w_two))).2
    = Some P1.
Proof.
  assert (exec [Start ta (Open (Some ua)); Start tb (Open (Some ub))] cf_attach
          = Some {| cworld := w_two;
                    threads := {[ ta := PcReturn 0; tb := PcReturn 0 ]} |})
    as He1 by (vm_compute; reflexivity).
  assert (exec [Start ta (Close ua); Start tc (Open (Some uc))]
               {| cworld := w_two;
                  threads := {[ ta := PcReturn 0; tb := PcReturn 0 ]} |}
          = Some {| cworld :=
                      (dmapp_cdev_open (Some uc)
                         (kfree_user ua (set_user P0 None w_two))).2;
                    threads := {[ ta := PcReleaseSignal None; tb := PcReturn 0;
                                  tc := PcReturn 0 ]} |})
    as He2 by (vm_compute; reflexivity).
  assert (validate_user ub w_two = Some P1) as Hv by (vm_compute; reflexivity).
  split; [exact attached_w_attach|]. split; [exact He1|]. split; [exact Hv|].
  split; [exact He2|].
  exact (proj1 (parity_fixed_while_open w_attach _ _ _ _ ub P1
                  attached_w_attach He1 Hv He2 eq_refl)).
Defined.

(** ** Open and close *)

(** X11: an open that finds a free slot, followed at once by the close of
    the same file, returns 0 both times and restores the state exactly:
    the slot is free again, the structure is freed, the fences and the
    other participant are as before. *)
Theorem open_then_close_restores w u :
  wf w -> mem w !! u = None ->
  nth2 (user (dev w)) P0 = None \/ nth2 (user (dev w)) P1 = None ->
  (dmapp_cdev_open (Some u) w).1 = 0 /\
  dmapp_cdev_release u (dmapp_cdev_open (Some u) w).2 = Some (0, w).
Proof.
  intros Hwf Hu Hfree.
  assert (exists p, nth2 (user (dev w)) p = None /\
            dmapp_cdev_open (Some u) w
              = (0, set_user p (Some u) (kzalloc_user u w))) as (p & Hp & Ho).
  { destruct (nth2 (user (dev w)) P0) as [a|] eqn:H0.
    - destruct Hfree as [|H1]; [done|]. exists P1. split; [done|].
      apply open_slot1; [by rewrite H0|done].
    - exists P0. split; [done|]. by apply open_slot0. }
  rewrite Ho. split; [done|]. simpl.
  pose proof (wf_register w u p Hwf Hu Hp) as Hwf'.
  rewrite (release_slot _ u p {| is_locked := false |} Hwf').
  - simpl. unfold release_signal. simpl. do 2 f_equal.
    destruct w as [[us fs] m]. unfold kfree_user, set_user, kzalloc_user.
    simpl in *. f_equal.
    + f_equal. destruct us as [a b], p; simpl in *; by subst.
    + by apply delete_insert_id.
  - simpl. apply nth2_upd2_eq.
  - simpl. by rewrite lookup_insert_eq.
Qed.

Lemma open_then_close_restores_witness :
  wf w_attach /\ mem w_attach !! ua = None /\
  dmapp_cdev_release ua (dmapp_cdev_open (Some ua) w_attach).2
    = Some (0, w_attach).
Proof.
  split; [exact (wf_attached w_attach attached_w_attach)|].
  split; [reflexivity|].
  exact (proj2 (open_then_close_restores w_attach ua
                  (wf_attached w_attach attached_w_attach) eq_refl
                  (or_introl eq_refl))).
Defined.

(** X12: an open registers all or nothing.  When it returns 0, the
    caller's new structure is in the lowest free slot, its flag clear, and
    nothing else has changed.  When it fails, the state is exactly as
    before: with [-ENOMEM] when [kzalloc] gave no structure, with
    [-EINVAL] when both slots are taken (the structure is freed
    again). *)
Theorem open_all_or_nothing w kz :
  wf w -> fresh kz w = true ->
  ((dmapp_cdev_open kz w).1 = 0 /\
   exists u p,
     kz = Some u /\
     nth2 (user (dev w)) p = None /\
     (p = P1 -> nth2 (user (dev w)) P0 <> None) /\
     (dmapp_cdev_open kz w).2 = set_user p (Some u) (kzalloc_user u w) /\
     validate_user u (dmapp_cdev_open kz w).2 = Some p /\
     locked_at (dmapp_cdev_open kz w).2 u = false) \/
  ((dmapp_cdev_open kz w).2 = w /\
   ((dmapp_cdev_open kz w).1 = - ENOMEM /\ kz = None \/
    (dmapp_cdev_open kz w).1 = - EINVAL /\ kz <> None /\
    nth2 (user (dev w)) P0 <> None /\ nth2 (user (dev w)) P1 <> None)).
Proof.
  intros Hwf Hf. destruct kz as [u|]; [|right; split; [done|by left]].
  simpl in Hf. apply bool_decide_eq_true in Hf.
  destruct (nth2 (user (dev w)) P0) as [a|] eqn:H0;
    [destruct (nth2 (user (dev w)) P1) as [b|] eqn:H1|].
  - right. rewrite (open_full w u) by congruence.
    split; [done|]. right. by split_and!.
  - left. rewrite (open_slot1 w u) by congruence.
    split; [done|]. exists u, P1. split_and!; try done.
    + apply validate_user_slot; [by apply wf_register|]. apply nth2_upd2_eq.
    + unfold locked_at. simpl. by rewrite lookup_insert_eq.
  - left. rewrite (open_slot0 w u) by done.
    split; [done|]. exists u, P0. split_and!; try done.
    + apply validate_user_slot; [by apply wf_register|]. apply nth2_upd2_eq.
    + unfold locked_at. simpl. by rewrite lookup_insert_eq.
Qed.

Lemma open_all_or_nothing_witness :
  wf w_two /\ fresh (Some uc) w_two = true /\
  (dmapp_cdev_open (Some uc) w_two).2 = w_two.
Proof.
  assert (wf w_two) as Hwf.
  { apply (wf_register _ ub P1); [|reflexivity..].
    apply (wf_register _ ua P0); [|reflexivity..].
    exact (wf_attached w_attach attached_w_attach). }
  split; [exact Hwf|]. split; [reflexivity|].
  destruct (open_all_or_nothing w_two (Some uc) Hwf eq_refl)
    as [[Hr _]|[Hw _]]; [discriminate Hr|exact Hw].
Defined.

(** X13: a close that runs on its own never fails and never takes a
    signal back.  In every state it returns 0, frees the caller's
    structure and clears the caller's slot only; a fence that was signaled
    stays signaled; when the caller's flag was clear the fences are
    untouched, and when it was set the other parity's fence is signaled
    on return while the caller's own fence is untouched. *)
Theorem close_always_succeeds w u r w' :
  dmapp_cdev_release u w = Some (r, w') ->
  r = 0 /\
  mem w' = delete u (mem w) /\
  (forall p, nth2 (user (dev w')) p
             = if decide (validate_user u w = Some p) then None
               else nth2 (user (dev w)) p) /\
  (forall q, fence_signaled w q = true -> fence_signaled w' q = true) /\
  (locked_at w u = false -> fence (dev w') = fence (dev w)) /\
  (forall p, validate_user u w = Some p -> locked_at w u = true ->
     fence_signaled w' (other p) = true /\
     nth2 (fence (dev w')) p = nth2 (fence (dev w)) p).
Proof.
  intros Hr. unfold dmapp_cdev_release in Hr.
  destruct (release_disconnect u w) as [[sf w1]|] eqn:Hd; [|done].
  simpl in Hr. simplify_eq.
  unfold release_disconnect in Hd.
  destruct (mem w !! u) as [usr|] eqn:Hm; [|done]. simpl in Hd.
  assert (locked_at w u = is_locked usr) as Hl
    by (unfold locked_at; by rewrite Hm).
  assert (forall k w0,
            (release_signal k w0).1 = 0 /\
            mem (release_signal k w0).2 = mem w0 /\
            user (dev (release_signal k w0).2) = user (dev w0) /\
            (forall q, fence_signaled w0 q = true ->
                       fence_signaled (release_signal k w0).2 q = true) /\
            (k = None -> fence (dev (release_signal k w0).2) = fence (dev w0)) /\
            (forall j, k = Some j ->
               fence_signaled (release_signal k w0).2 j = true /\
               nth2 (fence (dev (release_signal k w0).2)) (other j)
                 = nth2 (fence (dev w0)) (other j))) as Hsig.
  { intros [j|] w0; [|by split_and!].
    unfold release_signal, release_test, release_do_signal,
      dma_fence_is_signaled, fence_signaled.
    destruct (signaled (nth2 (fence (dev w0)) j)) eqn:Hs; simpl.
    - split_and!; try done. intros ? [= <-]. by split.
    - rewrite (dma_fence_signal_pending _ Hs). simpl.
      split_and!; try done.
      + intros q Hq. destruct (decide (j = q)) as [->|Hne].
        * by rewrite nth2_upd2_eq.
        * by rewrite nth2_upd2_ne.
      + intros ? [= <-]. by rewrite nth2_upd2_eq, nth2_upd2_other. }
  unfold validate_user.
  destruct (slot_is w P0 u) eqn:H0; [|destruct (slot_is w P1 u) eqn:H1];
    simplify_eq;
    match type of Hr with
    | release_signal ?k ?w0 = _ =>
      destruct (Hsig k w0) as (Hr0 & Hmem & Huser & Hmono & Hnone & Hsome)
    end; rewrite Hr in Hr0, Hmem, Huser, Hmono, Hnone, Hsome; simpl in *;
    clear Hsig Hr; rewrite Hmem, Huser; (split; [done|]); (split; [done|]).
  - split_and!.
    + by intros [|].
    + intros q Hq. by apply Hmono.
    + intros Hf. rewrite Hl in Hf. rewrite Hf in *. by apply Hnone.
    + intros p [= <-] Ht. rewrite Hl in Ht. rewrite Ht in *.
      by destruct (Hsome P1 eq_refl).
  - split_and!.
    + by intros [|].
    + intros q Hq. by apply Hmono.
    + intros Hf. rewrite Hl in Hf. rewrite Hf in *. by apply Hnone.
    + intros p [= <-] Ht. rewrite Hl in Ht. rewrite Ht in *.
      by destruct (Hsome P0 eq_refl).
  - split_and!.
    + by intros [|].
    + intros q Hq. by apply Hmono.
    + intros _. by apply Hnone.
    + done.
Qed.

Lemma close_always_succeeds_witness :
  dmapp_cdev_release ub (lock_commit ub P1 w_two)
    = Some (release_signal (Some P0)
              (kfree_user ub (set_user P1 None (lock_commit ub P1 w_two)))) /\
  (release_signal (Some P0)
     (kfree_user ub (set_user P1 None (lock_commit ub P1 w_two)))).1 = 0.
Proof.
  split; [reflexivity|].
  exact (proj1 (close_always_succeeds (lock_commit ub P1 w_two) ub
                  (release_signal (Some P0)
                     (kfree_user ub
                        (set_user P1 None (lock_commit ub P1 w_two)))).1
                  (release_signal (Some P0)
                     (kfree_user ub
                        (set_user P1 None (lock_commit ub P1 w_two)))).2
                  eq_refl)).
Defined.

(** ** One call per file at a time *)

Lemma start_call_not_clear c cf w' c' :
  start_call c cf = Some (w', c') -> forall u ret, c' <> PcUnlockClear u ret.
Proof.
  intros Hc u ret ->. destruct c as [kz|v|v cmd env]; simpl in Hc.
  - destruct (fresh kz (cworld cf)); [|done].
    destruct (dmapp_cdev_open kz (cworld cf)). by simplify_eq.
  - destruct (quiet v cf); [|done].
    destruct (release_disconnect v (cworld cf)) as [[sf w1]|]; by simplify_eq/=.
  - destruct (ioctl_entry v cmd env (cworld cf)) as [[r|p|p]|]; by simplify_eq/=.
Qed.

Lemma sched_step_unlock_ret cf loc s cf' :
  iinv cf loc ->
  (forall t u ret, threads cf !! t = Some (PcUnlockClear u ret) -> ret = 0) ->
  sched_step s cf = Some cf' ->
  forall t u ret, threads cf' !! t = Some (PcUnlockClear u ret) -> ret = 0.
Proof.
  intros Hinv HJ Hs t u ret. destruct s as [t0 c|t0 env]; simpl in Hs.
  - destruct (idle t0 cf); [|done].
    destruct (start_call c cf) as [[w' c']|] eqn:Hc; simplify_eq/=.
    destruct (decide (t = t0)) as [->|Hne].
    + rewrite lookup_insert_eq. intros [= ->].
      by destruct (start_call_not_clear _ _ _ _ Hc u ret).
    + rewrite lookup_insert_ne by done. apply HJ.
  - destruct (threads cf !! t0) as [c|] eqn:Hl; [|done]. simpl in Hs.
    destruct (step_pc env (cworld cf) c) as [[w' c']|] eqn:Hc; simplify_eq/=.
    destruct (decide (t = t0)) as [->|Hne];
      [|rewrite lookup_insert_ne by done; apply HJ].
    rewrite lookup_insert_eq. intros [= ->].
    destruct c as [v p|v p r|v p|v r|sf|k|r]; simpl in Hc.
    + destruct (lock_wait p env (cworld cf)) as [r|]; simplify_eq/=.
      by destruct (r <? 0).
    + by simplify_eq.
    + destruct (iinv_step_unlock_signal _ _ _ _ _ Hinv Hl) as (_ & Hr & _).
      destruct (unlock_signal p (cworld cf)). by simplify_eq/=.
    + by simplify_eq.
    + destruct (release_test sf (cworld cf)); by simplify_eq.
    + destruct (release_do_signal k (cworld cf)). by simplify_eq.
    + done.
Qed.

Lemma exec_polite_unlock_ret ss : forall cf loc log cf',
  iinv cf loc ->
  (forall t u ret, threads cf !! t = Some (PcUnlockClear u ret) -> ret = 0) ->
  exec_polite ss cf = Some (log, cf') ->
  (exists loc', iinv cf' loc') /\
  forall t u ret, threads cf' !! t = Some (PcUnlockClear u ret) -> ret = 0.
Proof.
  induction ss as [|s ss IH]; intros cf loc log cf' Hinv HJ He; simpl in He.
  - simplify_eq. split; [by exists loc|done].
  - destruct (polite s cf) eqn:Hp; [|done].
    destruct (sched_step s cf) as [cf1|] eqn:Hs; [|done]. simpl in He.
    destruct (exec_polite ss cf1) as [[log1 cf2]|] eqn:He1; simplify_eq/=.
    destruct (iinv_sched_step _ _ _ _ Hinv Hp Hs) as (loc1 & Hinv1 & _).
    eapply IH; [exact Hinv1| |exact He1].
    exact (sched_step_unlock_ret _ _ _ _ Hinv HJ Hs).
Qed.

(** X14: when every file is used by one thread at a time, no signal is
    ever a duplicate.  In every configuration a polite schedule reaches
    from an attach: a thread about to signal in unlock finds the other
    parity's fence pending, and its [dma_fence_signal] returns 0; a thread
    that has signaled in unlock returns 0; a thread in close that has a
    fence to signal finds it pending at the test, and its
    [dma_fence_signal] returns 0; a thread whose wait has succeeded
    returns 0 from lock. *)
Theorem signals_never_fail_politely w ss log cf t c :
  attached w ->
  exec_polite ss {| cworld := w; threads := ∅ |} = Some (log, cf) ->
  threads cf !! t = Some c ->
  match c with
  | PcUnlockSignal u p =>
    fence_signaled (cworld cf) (other p) = false /\
    (unlock_signal p (cworld cf)).1 = 0
  | PcUnlockClear u ret => ret = 0
  | PcReleaseSignal (Some k) => release_test (Some k) (cworld cf) = Some k
  | PcReleaseDoSignal k =>
    fence_signaled (cworld cf) k = false /\
    (release_do_signal k (cworld cf)).1 = 0
  | PcLockCommit u p ret => ret = 0
  | _ => True
  end.
Proof.
  intros Ha He Hl.
  assert (forall t u ret,
            threads {| cworld := w; threads := ∅ |} !! t
              = Some (PcUnlockClear u ret) -> ret = 0) as HJ0
    by (intros ? ? ?; simpl; by rewrite lookup_empty).
  destruct (exec_polite_unlock_ret ss _ _ _ _ (iinv_attached w Ha) HJ0 He)
    as [[loc Hinv] HJ].
  destruct c as [u p|u p ret|u p|u ret|[k|]|k|ret]; try done.
  - by destruct (ii_threads _ _ Hinv _ _ Hl) as (_ & _ & _ & ->).
  - destruct (iinv_step_unlock_signal _ _ _ _ _ Hinv Hl) as (_ & Hr & _).
    split; [|done]. rewrite unlock_signal_ret in Hr.
    by destruct (fence_signaled (cworld cf) (other p)).
  - by eapply HJ.
  - by destruct (iinv_step_release_test _ _ _ _ Hinv Hl).
  - destruct (iinv_step_release_do _ _ _ _ Hinv Hl) as (_ & Hr & _).
    split; [|done]. unfold release_do_signal in Hr.
    unfold fence_signaled.
    destruct (signaled (nth2 (fence (dev (cworld cf))) k)) eqn:Hs; [|done].
    by rewrite (dma_fence_signal_duplicate _ Hs) in Hr.
Qed.

Lemma signals_never_fail_politely_witness :
  attached w_attach /\
  exec_polite [ Start ta (Open (Some ua)); Start tb (Open (Some ub));
                Start tb (lock ub); Step tb awake; Step tb awake;
                Start ta (lock ua); Start tb (unlock ub) ] cf_attach
    = Some ([P1], {| cworld := lock_commit ub P1 w_two;
                     threads := {[ ta := PcLockWait ua P0;
                                   tb := PcUnlockSignal ub P1 ]} |}) /\
  (unlock_signal P1 (lock_commit ub P1 w_two)).1 = 0.
Proof.
  assert (exec_polite [ Start ta (Open (Some ua)); Start tb (Open (Some ub));
                        Start tb (lock ub); Step tb awake; Step tb awake;
                        Start ta (lock ua); Start tb (unlock ub) ] cf_attach
          = Some ([P1], {| cworld := lock_commit ub P1 w_two;
                           threads := {[ ta := PcLockWait ua P0;
                                         tb := PcUnlockSignal ub P1 ]} |}))
    as He by (vm_compute; reflexivity).
  split; [exact attached_w_attach|]. split; [exact He|].
  exact (proj2 (signals_never_fail_politely w_attach _ _ _ tb
                  (PcUnlockSignal ub P1) attached_w_attach He eq_refl)).
Defined.

(** X15: no wake-up is lost.  When every file is used by one thread at a
    time and both participants are asleep in lock, somebody can always
    run: one of the two sleepers, because its fence is signaled, or a
    thread in the middle of a close that is about to signal the fence it
    carries. *)
Theorem sleepers_are_woken w ss log cf t0 u0 t1 u1 env :
  attached w ->
  exec_polite ss {| cworld := w; threads := ∅ |} = Some (log, cf) ->
  threads cf !! t0 = Some (PcLockWait u0 P0) ->
  threads cf !! t1 = Some (PcLockWait u1 P1) ->
  exists t c cf',
    threads cf !! t = Some c /\
    (c = PcLockWait u0 P0 \/ c = PcLockWait u1 P1 \/ is_Some (carries c)) /\
    sched_step (Step t env) cf = Some cf'.
Proof.
  intros Ha He H0 H1.
  destruct (exec_polite_iinv w ss log cf Ha He) as [loc Hinv].
  assert (forall q t u, threads cf !! t = Some (PcLockWait u q) ->
            loc <> IHeld q) as Hnot.
  { intros q t u Hl ->.
    destruct (ii_threads _ _ Hinv _ _ Hl) as [Hslot Hfree].
    assert (in_turn (cworld cf) q = true) as Hin
      by (apply (ii_turn _ _ Hinv); by left).
    rewrite (in_turn_slot _ _ _ Hslot) in Hin. congruence. }
  assert (forall q t u, threads cf !! t = Some (PcLockWait u q) ->
            loc = IFence q ->
            exists cf', sched_step (Step t env) cf = Some cf') as Hgo.
  { intros q t u Hl ->. simpl. rewrite Hl. simpl.
    rewrite (lock_wait_signaled (cworld cf) q env); [by eexists|].
    by apply (ii_fence _ _ Hinv). }
  destruct loc as [[|]|q|t q].
  - destruct (Hgo P0 t0 u0 H0 eq_refl) as [cf' Hs].
    exists t0, (PcLockWait u0 P0), cf'. split_and!; [done|by left|done].
  - destruct (Hgo P1 t1 u1 H1 eq_refl) as [cf' Hs].
    exists t1, (PcLockWait u1 P1), cf'.
    split_and!; [done|by right; left|done].
  - destruct q; [by destruct (Hnot P0 t0 u0 H0)|by destruct (Hnot P1 t1 u1 H1)].
  - pose proof (ii_abandon _ _ Hinv t q eq_refl) as Hc.
    destruct (threads cf !! t) as [c|] eqn:Hl; [|done]. simpl in Hc.
    assert (exists w' c', step_pc env (cworld cf) c = Some (w', c'))
      as (w' & c' & Hpc).
    { destruct c as [u p|u p ret|u p|u ret|[k|]|k|ret];
        simpl in Hc; simplify_eq; cbn [step_pc].
      - destruct (release_test (Some q) (cworld cf)); by eexists _, _.
      - destruct (release_do_signal q (cworld cf)); by eexists _, _. }
    exists t, c, {| cworld := w'; threads := <[t := c']> (threads cf) |}.
    split_and!; [done|right; right; by rewrite Hc|].
    simpl. rewrite Hl. simpl. by rewrite Hpc.
Qed.

Lemma sleepers_are_woken_witness :
  attached w_attach /\
  exec_polite [ Start ta (Open (Some ua)); Start tb (Open (Some ub));
                Start ta (lock ua); Start tb (lock ub) ] cf_attach
    = Some ([], {| cworld := w_two;
                   threads := {[ ta := PcLockWait ua P0;
                                 tb := PcLockWait ub P1 ]} |}) /\
  exists t c cf',
    ({[ ta := PcLockWait ua P0; tb := PcLockWait ub P1 ]} : gmap nat pc) !! t
      = Some c /\
    sched_step (Step t awake)
      {| cworld := w_two;
         threads := {[ ta := PcLockWait ua P0; tb := PcLockWait ub P1 ]} |}
    = Some cf'.
Proof.
  assert (exec_polite [ Start ta (Open (Some ua)); Start tb (Open (Some ub));
                        Start ta (lock ua); Start tb (lock ub) ] cf_attach
          = Some ([], {| cworld := w_two;
                         threads := {[ ta := PcLockWait ua P0;
                                       tb := PcLockWait ub P1 ]} |})) as He
    by (vm_compute; reflexivity).
  split; [exact attached_w_attach|]. split; [exact He|].
  destruct (sleepers_are_woken w_attach _ _ _ ta ua tb ub awake
              attached_w_attach He eq_refl eq_refl)
    as (t & c & cf' & Hl & _ & Hs).
  by exists t, c, cf'.
Defined.

(** ** The turn across sessions *)

Lemma run_no_acquisition cs : forall w w' ts,
  wf w -> view w = turn_view ts -> run cs w = Some ([], w') ->
  wf w' /\ exists ts',
    view w' = turn_view ts' /\ next_acquirer ts' = next_acquirer ts.
Proof.
  induction cs as [|c cs IH]; intros w w' ts Hwf Hview Hrun; simpl in Hrun.
  - simplify_eq. split; [done|]. by exists ts.
  - destruct (do_call c w) as [[o w1]|] eqn:Hc; [|done]. simpl in Hrun.
    destruct (run cs w1) as [[log w2]|] eqn:Hr; [|done]. simpl in Hrun.
    simplify_eq.
    match goal with H : _ ++ _ = [] |- _ => apply app_eq_nil in H as [Ha ->] end.
    destruct (call_step _ _ _ _ _ Hwf Hview Hc) as (Hwf1 & ts1 & Hv1 & Hstep).
    destruct (acquires c w); [done|]. simpl in Hstep.
    destruct (IH _ _ _ Hwf1 Hv1 Hr) as (Hwf' & ts' & Hv' & Hn).
    split; [done|]. exists ts'. split; [done|]. congruence.
Qed.

(** X16: the device is never reset between sessions.  Calls that take no
    turn (opens, closes, queries, unlocks, lock calls that fail, sleep or
    find the flag set), run one after the other from any reachable state,
    leave the parity of the next acquisition as it was; so after both
    participants have closed, the next pair of participants goes on where
    the last one stopped, and the odd parity goes first only after an
    attach. *)
Theorem turn_survives_disconnect w cs w' :
  reachable w -> run cs w = Some ([], w') ->
  exists ts ts',
    view w = turn_view ts /\ view w' = turn_view ts' /\
    next_acquirer ts' = next_acquirer ts.
Proof.
  intros Hr Hrun. destruct (reachable_turn w Hr) as (Hwf & ts & Hview).
  destruct (run_no_acquisition cs _ _ _ Hwf Hview Hrun) as (_ & ts' & Hv & Hn).
  by exists ts, ts'.
Qed.

Lemma turn_survives_disconnect_witness :
  reachable (unlock_clear ub (unlock_signal P1 (lock_commit ub P1 w_two)).2) /\
  exists w',
    run [Close ua; Close ub; Open (Some uc); Open (Some ua)]
        (unlock_clear ub (unlock_signal P1 (lock_commit ub P1 w_two)).2)
      = Some ([], w') /\
    view w' = turn_view (FenceReady P0).
Proof.
  assert (reachable
            (unlock_clear ub (unlock_signal P1 (lock_commit ub P1 w_two)).2))
    as Hr.
  { apply (reachable_call (lock_commit ub P1 w_two) (unlock ub) (Returned 0));
      [|vm_compute; reflexivity].
    apply (reachable_call w_two (lock ub) (Returned 0));
      [|vm_compute; reflexivity].
    apply (reachable_call (dmapp_cdev_open (Some ua) w_attach).2
             (Open (Some ub)) (Returned 0)); [|vm_compute; reflexivity].
    apply (reachable_call w_attach (Open (Some ua)) (Returned 0));
      [|vm_compute; reflexivity].
    apply reachable_attach, attached_w_attach. }
  split; [exact Hr|].
  eexists. split; [vm_compute; reflexivity|].
  match goal with
  | |- view ?w' = _ =>
    destruct (turn_survives_disconnect _
                [Close ua; Close ub; Open (Some uc); Open (Some ua)] w' Hr)
      as (ts & ts' & _ & _ & _); [vm_compute; reflexivity|]
  end.
  vm_compute. reflexivity.
Defined.

(** ** The user program of the driver *)

(** X17: on an open file the three queries of the user program cannot
    fail its checks.  The size is 10, so positive; the parity is the
    index of the caller's slot, so 0 or 1; none of the calls sleeps or
    changes the driver's state.  The program therefore fails before
    [mmap] only when [dma_buf_fd] fails, and otherwise maps
    [DMAPP_BUFFER_SIZE * sizeof(int)] bytes, exactly the size of the
    buffer that the probe exports. *)
Theorem client_setup_passes_checks w u p env :
  validate_user u w = Some p -> is_Some (mem w !! u) ->
  main_setup u env w =
  Some (Some (if dma_buf_fd env <? 0 then fail_dma_buf_fd
              else Ready buf_size (parity_Z p) (dma_buf_fd env)), w).
Proof.
  intros Hv Hm. unfold main_setup, user_ioctl.
  rewrite (ioctl_query w u p env DMAPP_IOCTL_GET_BUFFER_SIZE Hv Hm) by done.
  simpl.
  rewrite (ioctl_query w u p env DMAPP_IOCTL_GET_BUFFER_PARITY Hv Hm) by done.
  simpl.
  replace (sys_ioctl (parity_Z p)) with (parity_Z p) by by destruct p.
  replace ((parity_Z p <? 0) || (parity_Z p >? 1)) with false by by destruct p.
  rewrite (ioctl_query w u p env DMAPP_IOCTL_GET_BUFFER_FD Hv Hm) by done.
  simpl. unfold sys_ioctl.
  destruct (Z.ltb_spec (dma_buf_fd env) 0) as [Hneg|Hpos]; [done|].
  destruct (Z.ltb_spec (dma_buf_fd env) 0); [lia|done].
Qed.

Lemma client_setup_passes_checks_witness :
  validate_user ua w_two = Some P0 /\ is_Some (mem w_two !! ua) /\
  main_setup ua awake w_two = Some (Some (Ready 40 0 3), w_two).
Proof.
  assert (is_Some (mem w_two !! ua)) as Hm by (vm_compute; by eexists).
  split; [reflexivity|]. split; [exact Hm|].
  exact (client_setup_passes_checks w_two ua P0 awake eq_refl Hm).
Defined.

Lemma user_lock_cases w u p env :
  validate_user u w = Some p -> is_Some (mem w !! u) ->
  user_ioctl u DMAPP_IOCTL_BUFFER_LOCK env w =
  Some (if locked_at w u then (Some 0, w)
        else if fence_signaled w p then (Some 0, lock_commit u p w)
        else if signal_pending env then (Some (-1), w)
        else (None, w)).
Proof.
  intros Hv Ha. unfold user_ioctl. rewrite (lock_cases w u p env Hv Ha).
  by destruct (locked_at w u), (fence_signaled w p), (signal_pending env).
Qed.

Lemma user_unlock_cases w u p env :
  validate_user u w = Some p -> is_Some (mem w !! u) ->
  locked_at w u = true ->
  user_ioctl u DMAPP_IOCTL_BUFFER_UNLOCK env w =
  Some (Some (if fence_signaled w (other p) then -1 else 0),
        unlock_clear u (unlock_signal p w).2).
Proof.
  intros Hv Ha Hl. unfold user_ioctl.
  rewrite (unlock_cases w u p env Hv Ha), Hl.
  by destruct (fence_signaled w (other p)).
Qed.

(** X18: the user program works on the buffer only with its flag set.  In
    a pass of its loop that runs on its own, the program reaches the work
    between lock and unlock only in a state where its own flag is set
    (it was set already, or its fence was signaled and the lock call took
    the turn); after the pass the flag is clear and the other parity's
    fence is signaled, whatever the unlock call reported.  When the lock
    call fails or sleeps, the program does no work and the state is
    unchanged. *)
Theorem client_works_only_in_turn w u p env r w' :
  validate_user u w = Some p ->
  main_pass u env w = Some (r, w') ->
  match r with
  | PassAsleep =>
    w' = w /\ locked_at w u = false /\ fence_signaled w p = false /\
    signal_pending env = false
  | PassRetry =>
    w' = w /\ locked_at w u = false /\ fence_signaled w p = false /\
    signal_pending env = true
  | PassWork during ret =>
    locked_at during u = true /\
    (locked_at w u = true /\ during = w \/
     fence_signaled w p = true /\ during = lock_commit u p w) /\
    locked_at w' u = false /\
    fence_signaled w' (other p) = true /\
    (ret = 0 \/ ret = -1)
  end.
Proof.
  intros Hv Hp. unfold main_pass in Hp.
  assert (is_Some (mem w !! u)) as Ha.
  { destruct (user_ioctl u DMAPP_IOCTL_BUFFER_LOCK env w) as [[o w1]|] eqn:Hio;
      [|done].
    unfold user_ioctl in Hio.
    destruct (dmapp_cdev_ioctl u DMAPP_IOCTL_BUFFER_LOCK env w)
      as [[o' w1']|] eqn:Hio'; [|done].
    by eapply ioctl_allocated. }
  rewrite (user_lock_cases w u p env Hv Ha) in Hp.
  destruct (locked_at w u) eqn:Hl; [|destruct (fence_signaled w p) eqn:Hf;
    [|destruct (signal_pending env) eqn:Hs]]; simpl in Hp.
  - rewrite (user_unlock_cases w u p env Hv Ha Hl) in Hp. simpl in Hp.
    simplify_eq.
    split_and!; [done|by left|by apply locked_at_unlock
                |by apply fence_signaled_unlock|].
    by destruct (fence_signaled w (other p)); [right|left].
  - rewrite (user_unlock_cases (lock_commit u p w) u p env) in Hp;
      [|by rewrite (validate_user_frame u w _ (user_lock_commit u p w))
       |by apply alter_is_Some|by apply locked_at_lock_commit].
    simpl in Hp. simplify_eq.
    split_and!; [by apply locked_at_lock_commit|by right| | |].
    + apply locked_at_unlock. by apply alter_is_Some.
    + by apply fence_signaled_unlock.
    + by destruct (fence_signaled _ (other p)); [right|left].
  - by simplify_eq.
  - by simplify_eq.
Qed.

Lemma client_works_only_in_turn_witness :
  validate_user ub w_two = Some P1 /\
  main_pass ub awake w_two
    = Some (PassWork (lock_commit ub P1 w_two) 0,
            unlock_clear ub (unlock_signal P1 (lock_commit ub P1 w_two)).2) /\
  locked_at (lock_commit ub P1 w_two) ub = true.
Proof.
  assert (main_pass ub awake w_two
          = Some (PassWork (lock_commit ub P1 w_two) 0,
                  unlock_clear ub
                    (unlock_signal P1 (lock_commit ub P1 w_two)).2)) as Hp
    by (vm_compute; reflexivity).
  split; [reflexivity|]. split; [exact Hp|].
  exact (proj1 (client_works_only_in_turn w_two ub P1 awake _ _ eq_refl Hp)).
Defined.

(** ** The echo module *)

(** X19: [ekm_platform_driver_probe] either fails with a negative status,
    no device, and everything it had obtained given back in reverse
    order; or returns 0 with the device number, the character device and
    the device node held and [data.value] set to 42.  After a successful
    probe, [ekm_platform_driver_remove] gives the four objects back in
    reverse order. *)
Theorem ekm_probe_gives_back_on_failure env :
  ((ekm_platform_driver_probe env).1.1 < 0 /\
   (ekm_platform_driver_probe env).1.2 = None /\
   unwind [] (ekm_platform_driver_probe env).2 = Some []) \/
  ((ekm_platform_driver_probe env).1.1 = 0 /\
   (ekm_platform_driver_probe env).1.2 = Some {| data := {| value := 42 |} |} /\
   unwind [] (ekm_platform_driver_probe env).2
     = Some [RDeviceNode; RCdev; RChrdevRegion; RDevStruct] /\
   unwind [] ((ekm_platform_driver_probe env).2 ++ ekm_platform_driver_remove.2)
     = Some []).
Proof.
  unfold ekm_platform_driver_probe. destruct env as [ok chr ca dc]; simpl.
  destruct ok; simpl; [|left; by split_and!].
  destruct (Z.ltb_spec chr 0), (Z.ltb_spec ca 0), (Z.ltb_spec dc 0); simpl;
    try (left; split_and!; [lia|reflexivity|reflexivity]).
  right. by split_and!.
Qed.

Lemma default_last_cons {A} (x v : A) l :
  default x (last (v :: l)) = default v (last l).
Proof.
  revert x v. induction l as [|a l IH]; intros x v; [done|].
  change (last (v :: a :: l)) with (last (a :: l)). by rewrite !IH.
Qed.

Lemma ekm_calls_data cs : forall d,
  data (ekm_calls cs d) = default (data d) (last (omap ekm_sets cs)).
Proof.
  induction cs as [|[cmd arg] cs IH]; intros d; [done|].
  cbn [ekm_calls omap list_omap]. rewrite IH.
  unfold ekm_sets at 2, ekm_cdev_ioctl. cbn [fst snd].
  destruct (Z.eqb_spec cmd EKM_IOCTL_GET_DATA) as [->|Hg].
  - replace (EKM_IOCTL_GET_DATA =? EKM_IOCTL_SET_DATA) with false by done.
    by destruct arg.
  - destruct (cmd =? EKM_IOCTL_SET_DATA); [|done].
    destruct arg as [v|]; [|done]. simpl. by rewrite default_last_cons.
Qed.

(** X20: the echo device is a register.  After any sequence of control
    calls, [EKM_IOCTL_GET_DATA] with accessible user memory returns 0,
    leaves the device as it is and stores in the user memory the data of
    the last [EKM_IOCTL_SET_DATA] call that succeeded, or the data the
    device started with when there was none. *)
Theorem ekm_get_reads_last_set cs d arg :
  ekm_cdev_ioctl EKM_IOCTL_GET_DATA (Some arg) (ekm_calls cs d)
  = (0, ekm_calls cs d, Some (default (data d) (last (omap ekm_sets cs)))).
Proof.
  unfold ekm_cdev_ioctl. rewrite Z.eqb_refl. by rewrite ekm_calls_data.
Qed.

(** X21: a control call of the echo module that fails changes nothing.
    The result is 0, [-EFAULT] or [-ENOTTY]; it is [-EFAULT] exactly for
    one of the two commands with inaccessible user memory, and [-ENOTTY]
    exactly for any other command; with a result other than 0 the device
    and the user memory are as before.  Only a set call changes the
    device, to the data in user memory, and only a get call changes the
    user memory, to the data of the device. *)
Theorem ekm_failed_call_changes_nothing cmd arg d :
  ((ekm_cdev_ioctl cmd arg d).1.1 = 0 \/
   (ekm_cdev_ioctl cmd arg d).1.1 = - EFAULT \/
   (ekm_cdev_ioctl cmd arg d).1.1 = - ENOTTY) /\
  ((ekm_cdev_ioctl cmd arg d).1.1 <> 0 ->
   (ekm_cdev_ioctl cmd arg d).1.2 = d /\ (ekm_cdev_ioctl cmd arg d).2 = arg) /\
  ((ekm_cdev_ioctl cmd arg d).1.1 = - EFAULT <->
   (cmd = EKM_IOCTL_GET_DATA \/ cmd = EKM_IOCTL_SET_DATA) /\ arg = None) /\
  ((ekm_cdev_ioctl cmd arg d).1.1 = - ENOTTY <->
   cmd <> EKM_IOCTL_GET_DATA /\ cmd <> EKM_IOCTL_SET_DATA) /\
  ((ekm_cdev_ioctl cmd arg d).1.2 <> d ->
   cmd = EKM_IOCTL_SET_DATA /\
   arg = Some (data (ekm_cdev_ioctl cmd arg d).1.2)) /\
  ((ekm_cdev_ioctl cmd arg d).2 <> arg ->
   cmd = EKM_IOCTL_GET_DATA /\
   (ekm_cdev_ioctl cmd arg d).2 = Some (data d) /\
   (ekm_cdev_ioctl cmd arg d).1.2 = d).
Proof.
  unfold ekm_cdev_ioctl.
  destruct (Z.eqb_spec cmd EKM_IOCTL_GET_DATA) as [->|Hg];
    [|destruct (Z.eqb_spec cmd EKM_IOCTL_SET_DATA) as [->|Hs]];
    destruct arg as [a|]; simpl; split_and!; try done;
    try (by left); try (by right; left); try (by right; right);
    try (split; [by intros ?|by intros [[?|?] ?]]);
    try (split; [by intros ?|by intros [? ?]]);
    try (split; [intros _; split; [by left|done] | done]);
    try (split; [intros _; split; [by right|done] | done]);
    try (split; [done|by intros [[?|?] ?]]).
Qed.

Lemma to_int_to_uint32 x :
  - 2 ^ 31 <= x < 2 ^ 31 -> to_int (to_uint32 x) = x.
Proof.
  unfold to_int, to_uint32.
  change (2 ^ 32) with 4294967296. change (2 ^ 31) with 2147483648.
  intros Hx. destruct (Z_lt_le_dec x 0).
  - replace (x mod 4294967296) with (x + 4294967296)
      by (apply Z.mod_unique with (-1); lia).
    replace ((x + 4294967296 + 2147483648) mod 4294967296)
      with (x + 2147483648) by (apply Z.mod_unique with 1; lia).
    lia.
  - rewrite (Z.mod_small x) by lia.
    rewrite (Z.mod_small (x + 2147483648)) by lia. lia.
Qed.

(** X22: the user program of the echo module echoes its argument.  Run
    with a device name and a value that fits a 32-bit [int], on a device
    it can open, it exits with [EXIT_SUCCESS], prints the value after the
    write and the same value after the read, and leaves the value in the
    device, whatever the device held before; a negative value survives
    the conversion through [uint32_t]. *)
Theorem ekm_main_echoes x d :
  - 2 ^ 31 <= x < 2 ^ 31 ->
  ekm_main 3 true x d
  = (EXIT_SUCCESS, [LineWrite x; LineRead x], {| data := {| value := x |} |}).
Proof.
  intros Hx. unfold ekm_main. simpl.
  unfold arg_value. simpl. by rewrite (to_int_to_uint32 x Hx).
Qed.

Lemma ekm_main_echoes_witness :
  - 2 ^ 31 <= -5 < 2 ^ 31 /\
  ekm_main 3 true (-5) {| data := {| value := 42 |} |}
  = (EXIT_SUCCESS, [LineWrite (-5); LineRead (-5)],
     {| data := {| value := -5 |} |}).
Proof.
  assert (- 2 ^ 31 <= -5 < 2 ^ 31) as Hx by (change (2 ^ 31) with 2147483648; lia).
  split; [exact Hx|].
  exact (ekm_main_echoes (-5) {| data := {| value := 42 |} |} Hx).
Defined.

(** X23: [ekm_module_init] either fails with the negative code of the
    registration that failed, having undone the registrations made before
    it in reverse order, or returns 0 with the platform device, the class
    and the platform driver registered; [ekm_module_exit] then undoes the
    three in reverse order. *)
Theorem ekm_module_init_gives_back_on_failure env :
  ((ekm_module_init env).1 < 0 /\
   unwind [] (ekm_module_init env).2 = Some []) \/
  ((ekm_module_init env).1 = 0 /\
   unwind [] (ekm_module_init env).2
     = Some [RPlatformDriver; RClass; RPlatformDevice] /\
   unwind [] ((ekm_module_init env).2 ++ ekm_module_exit) = Some []).
Proof.
  unfold ekm_module_init. destruct env as [pd cc dr]; simpl.
  destruct (Z.ltb_spec pd 0), (Z.ltb_spec cc 0), (Z.ltb_spec dr 0); simpl;
    try (left; split; [lia|reflexivity]).
  right. by split_and!.
Qed.
